(** * Event correlation of the WebMCP debugger panel

    A shallow embedding of [event-utils.ts] (classification of inspector
    events) and of the merge module behind the timeline (pairing of
    request and response events, and the facts displayed per entry),
    followed by the properties of the specification proved or refuted on it. *)

From Stdlib Require Import ZArith Lia Ascii String Floats Uint63.
From stdpp Require Import base option list gmap pretty sorting.

Set Warnings "-register-all,-inexact-float".
Open Scope Z_scope.

(** ** JavaScript values *)

Module JS.

(** A JavaScript string is a sequence of UTF-16 code units; [length] is
    the [.length] of the program.  [js] embeds an ASCII literal. *)
Abbreviation jsstring := (list N).

Definition js (s : string) : jsstring :=
  (λ c, N_of_ascii c) <$> list_ascii_of_string s.
Arguments js : simpl never.

(** *** Numbers as text: sizes *)

(** A size is a length, an integer far below 2^53: on these the text of
    a number is the decimal text of the integer, and the division of
    doubles is written here in integers.  The numbers of events are the
    doubles that follow. *)

(** The decimal text of an integer-valued number, as a template literal
    prints it. *)
Definition Number_toString (z : Z) : jsstring := js (pretty z).

(** A non-negative double [mant * 2^expo]. *)
Record double := { mant : Z; expo : Z }.

(** [a / b] on doubles holding the integers [0 <= a] and [0 < b]: the
    quotient rounded to 53 significant bits, ties to the even mantissa. *)
Definition Number_div (a b : Z) : double :=
  if decide (a <= 0) then {| mant := 0; expo := 0 |} else
  let e0 := Z.log2 a - Z.log2 b - 53 in
  let e := if decide (2 ^ 53 * b <= a * 2 ^ (- e0)) then e0 + 1 else e0 in
  let num := a * 2 ^ (Z.max 0 (- e)) in
  let den := b * 2 ^ (Z.max 0 e) in
  let q := num / den in
  let r := num mod den in
  let up := if decide (2 * r < den) then false
            else if decide (den < 2 * r) then true
            else Z.odd q in
  {| mant := if up then q + 1 else q; expo := e |}.

(** Left padding with zeros to [n] digits. *)
Definition pad_zeros (n : nat) (s : jsstring) : jsstring :=
  replicate (n - length s) 48%N ++ s.

(** [x.toFixed(f)] for [0 <= x < 10^21]: the integer [n] with [n / 10^f]
    nearest to [x], the larger one on a tie, printed with [f] decimals. *)
Definition toFixed (f : nat) (x : double) : jsstring :=
  let scaled := mant x * 10 ^ Z.of_nat f in
  let n := if decide (0 <= expo x) then scaled * 2 ^ expo x
           else (2 * scaled + 2 ^ (- expo x)) / 2 ^ (1 - expo x) in
  match f with
  | O => Number_toString n
  | _ => Number_toString (n / 10 ^ Z.of_nat f) ++ js "."
         ++ pad_zeros f (Number_toString (n mod 10 ^ Z.of_nat f))
  end.

(** *** Numbers *)

(** A Number is an IEEE 754 binary64 value, in the representation of the
    standard library: NaN, a zero or an infinity with its sign, or
    [(-1)^s * m * 2^e], where [m] has 53 bits, or fewer at the least
    exponent -1074.  The arithmetic is the library's, by which it
    specifies the floating-point numbers of the kernel. *)
Abbreviation number := spec_float.

Module Number.

(** The double nearest to an integer: what an integer literal denotes. *)
Definition of_Z (z : Z) : number := binary_normalize prec emax z 0 false.

(** [x - y], [x / y], [x < y] and [x <= y] *)
Definition sub : number → number → number := SF64sub.
Definition div : number → number → number := SF64div.
Definition lt : number → number → bool := SFltb.
Definition le : number → number → bool := SFleb.

Definition is_finite (x : number) : bool :=
  match x with
  | S754_zero _ | S754_finite _ _ _ => true
  | _ => false
  end.

(** The pair of [m] and [e] is the one that the format gives the number. *)
Definition is_double (x : number) : bool := valid_binary x.

(** A positive double [m * 2^e] as a fraction, between the bounds of the
    real numbers that round to it: [(lo, v, hi, den)] stands for
    [lo / den], [v / den] and [hi / den].  The lower bound is nearer
    where the doubles below are spaced at half the distance. *)
Definition neighbourhood (m : positive) (e : Z) : Z * Z * Z * Z :=
  let p := 2 ^ Z.max 0 (e - 2) in
  let below := if decide (Z.pos m = 2 ^ 52 ∧ -1074 < e) then 1 else 2 in
  ((4 * Z.pos m - below) * p, 4 * Z.pos m * p, (4 * Z.pos m + 2) * p,
   2 ^ Z.max 0 (2 - e)).

(** [num / den < 10^n] *)
Definition below_pow10 (num den n : Z) : bool :=
  bool_decide (num * 10 ^ Z.max 0 (- n) < den * 10 ^ Z.max 0 n).

(** The [n] with [10^(n-1) <= m * 2^e < 10^n], found next to
    [log2 (m * 2^e) * log10 2]. *)
Definition decimal_exponent (m : positive) (e : Z) : Z :=
  let '(_, v, _, den) := neighbourhood m e in
  let t := (Z.log2 (Z.pos m) + e) * 30103 / 100000 in
  default (t + 3) (find (below_pow10 v den) [t - 1; t; t + 1; t + 2]).

(** The integer [s] of [k] digits for which [s * 10^(n-k)] is nearest to
    [m * 2^e], if that decimal rounds to [m * 2^e]; of two equally near
    ones the even one. *)
Definition digits_of_length (m : positive) (e n k : Z) : option Z :=
  let '(lo, v, hi, den) := neighbourhood m e in
  let a := 10 ^ Z.max 0 (n - k) in
  let b := 10 ^ Z.max 0 (k - n) in
  let unit := a * den in
  let s := v * b / unit in
  let inside (s : Z) : bool :=
    if Z.even (Z.pos m)
    then bool_decide (lo * b <= s * unit <= hi * b)
    else bool_decide (lo * b < s * unit < hi * b) in
  let nearer := v * b - s * unit in
  let farther := (s + 1) * unit - v * b in
  match inside s, inside (s + 1) with
  | true, true =>
      if decide (nearer < farther) then Some s
      else if decide (farther < nearer) then Some (s + 1)
      else if Z.even s then Some s else Some (s + 1)
  | true, false => Some s
  | false, true => Some (s + 1)
  | false, false => None
  end.

(** The [s], [k] and [n] of Number::toString: [s] has [k] digits,
    [s * 10^(n-k)] rounds to [m * 2^e], and [k] is as small as possible;
    seventeen digits always do. *)
Definition shortest (m : positive) (e : Z) : Z * Z * Z :=
  let n := decimal_exponent m e in
  match
    list_find (λ r, is_Some r.2)
      ((λ k, (k, digits_of_length m e n k)) <$> (Z.of_nat <$> seq 1 17))
  with
  | Some (_, (k, Some s)) => if decide (s = 10 ^ k) then (1, 1, n + 1) else (s, k, n)
  | _ => (Z.pos m, 0, 0)
  end.

(** The text that Number::toString makes of [s], [k] and [n]: plain
    digits for [n] from -5 to 21, else with an exponent. *)
Definition decimal_text (s k n : Z) : jsstring :=
  let digits := js (pretty s) in
  if decide (-5 <= n <= 21) then
    if decide (k <= n) then digits ++ replicate (Z.to_nat (n - k)) 48%N
    else if decide (0 < n)
    then take (Z.to_nat n) digits ++ js "." ++ drop (Z.to_nat n) digits
    else js "0." ++ replicate (Z.to_nat (- n)) 48%N ++ digits
  else
    let exponent := (if decide (0 <= n - 1) then js "+" else js "-")
                    ++ js (pretty (Z.abs (n - 1))) in
    if decide (k = 1) then digits ++ js "e" ++ exponent
    else take 1 digits ++ js "." ++ drop 1 digits ++ js "e" ++ exponent.

(** Number::toString in radix 10: what [String(x)] and a template
    literal make of a number. *)
Definition toString (x : number) : jsstring :=
  match x with
  | S754_nan => js "NaN"
  | S754_zero _ => js "0"
  | S754_infinity s => (if s then js "-" else []) ++ js "Infinity"
  | S754_finite s m e =>
      let '(d, k, n) := shortest m e in
      (if s then js "-" else []) ++ decimal_text d k n
  end.

(** [x] is finite and [|x| < z]. *)
Definition magnitude_below (x : number) (z : Z) : bool :=
  match x with
  | S754_zero _ => bool_decide (0 < z)
  | S754_finite _ m e =>
      bool_decide (Z.pos m * 2 ^ Z.max 0 e < z * 2 ^ Z.max 0 (- e))
  | _ => false
  end.

(** [x.toFixed(f)] for [f] up to 100: the text of [x] itself when [x] is
    not finite, else its sign, and after it the digits that [toFixed]
    above gives the magnitude when that is below 10^21, and else the
    text of the magnitude. *)
Definition toFixed (f : nat) (x : number) : jsstring :=
  match x with
  | S754_nan | S754_infinity _ => toString x
  | S754_zero _ => toFixed f {| mant := 0; expo := 0 |}
  | S754_finite s m e =>
      (if s then js "-" else []) ++
      if magnitude_below x (10 ^ 21)
      then toFixed f {| mant := Z.pos m; expo := e |}
      else toString (S754_finite false m e)
  end.

End Number.

(** An integer written where a number stands is the double of that
    value. *)
Coercion Number.of_Z : Z >-> spec_float.

(** The values an event carries.  An object is its list of own
    properties, in property order. *)
Inductive value :=
| VUndefined
| VNull
| VBool (b : bool)
| VNumber (x : number)
| VString (s : jsstring)
| VArray (l : list value)
| VObject (props : list (jsstring * value)).

(** Own property of an object given by its property list. *)
Fixpoint assoc {A} (props : list (jsstring * A)) (k : jsstring) : option A :=
  match props with
  | [] => None
  | (k', a) :: props' => if decide (k' = k) then Some a else assoc props' k
  end.

(** [v ?? d] *)
Definition nullish (v d : value) : value :=
  match v with
  | VUndefined | VNull => d
  | _ => v
  end.

(** [v != null] *)
Definition not_nullish (v : value) : bool :=
  match v with
  | VUndefined | VNull => false
  | _ => true
  end.

(** [typeof v === "number"] *)
Definition is_number (v : value) : option number :=
  match v with
  | VNumber x => Some x
  | _ => None
  end.

(** [String(v)].  [None] is the TypeError of OrdinaryToPrimitive: an own
    data property [toString] hides [Object.prototype.toString] and cannot
    be called, and [valueOf] gives the object back.  An array is joined
    with commas, [undefined] and [null] elements printing as nothing. *)
Fixpoint ToString (v : value) : option jsstring :=
  match v with
  | VUndefined => Some (js "undefined")
  | VNull => Some (js "null")
  | VBool true => Some (js "true")
  | VBool false => Some (js "false")
  | VNumber x => Some (Number.toString x)
  | VString s => Some s
  | VArray l =>
      (fix join (l : list value) : option jsstring :=
         match l with
         | [] => Some []
         | x :: l' =>
             s ← match x with
                 | VUndefined | VNull => Some []
                 | _ => ToString x
                 end;
             match l' with
             | [] => Some s
             | _ => r ← join l'; Some (s ++ js "," ++ r)
             end
         end) l
  | VObject props =>
      match assoc props (js "toString") with
      | Some _ => None
      | None => Some (js "[object Object]")
      end
  end.

(** What a property read finds on [Object.prototype] when the object has
    no own property of that name: one of its built-in functions, or the
    prototype object itself behind the [__proto__] accessor. *)
Inductive inherited :=
| BuiltinFunction (name : jsstring)
| ObjectPrototype.

Definition Object_prototype_functions : list (jsstring * jsstring) :=
  [ (js "constructor", js "Object");
    (js "hasOwnProperty", js "hasOwnProperty");
    (js "isPrototypeOf", js "isPrototypeOf");
    (js "propertyIsEnumerable", js "propertyIsEnumerable");
    (js "toLocaleString", js "toLocaleString");
    (js "toString", js "toString");
    (js "valueOf", js "valueOf");
    (js "__defineGetter__", js "__defineGetter__");
    (js "__defineSetter__", js "__defineSetter__");
    (js "__lookupGetter__", js "__lookupGetter__");
    (js "__lookupSetter__", js "__lookupSetter__") ].

Definition Object_prototype_get (k : jsstring) : option inherited :=
  match assoc Object_prototype_functions k with
  | Some name => Some (BuiltinFunction name)
  | None => if decide (k = js "__proto__") then Some ObjectPrototype else None
  end.

(** The string a template literal makes of an inherited member. *)
Definition inherited_to_string (i : inherited) : jsstring :=
  match i with
  | BuiltinFunction name => js "function " ++ name ++ js "() { [native code] }"
  | ObjectPrototype => js "[object Object]"
  end.

(** A read [table[k]] of an object literal used as a lookup table:
    the own property, else the member inherited from [Object.prototype],
    else [undefined] ([None]). *)
Inductive found (A : Type) :=
| Own (a : A)
| Inherited (i : inherited).
Arguments Own {A} a.
Arguments Inherited {A} i.

Definition table_get {A} (table : list (jsstring * A)) (k : jsstring)
  : option (found A) :=
  match assoc table k with
  | Some a => Some (Own a)
  | None => Inherited <$> Object_prototype_get k
  end.

(** *** JSON text *)

Definition hex_digit (d : N) : N :=
  (if decide (d < 10) then 48 + d else 87 + d)%N.

(** [\uXXXX] *)
Definition unicode_escape (c : N) : jsstring :=
  [92; 117; hex_digit (c / 4096 mod 16); hex_digit (c / 256 mod 16);
   hex_digit (c / 16 mod 16); hex_digit (c mod 16)]%N.

Definition is_high_surrogate (c : N) : bool :=
  bool_decide (55296 <= c < 56320)%N.
Definition is_low_surrogate (c : N) : bool :=
  bool_decide (56320 <= c < 57344)%N.

(** One code unit that is not part of a surrogate pair, inside quotes. *)
Definition quote_unit (c : N) : jsstring :=
  (if decide (c = 8) then [92; 98]
   else if decide (c = 9) then [92; 116]
   else if decide (c = 10) then [92; 110]
   else if decide (c = 12) then [92; 102]
   else if decide (c = 13) then [92; 114]
   else if decide (c = 34) then [92; 34]
   else if decide (c = 92) then [92; 92]
   else if decide (c < 32) then unicode_escape c
   else if is_high_surrogate c || is_low_surrogate c then unicode_escape c
   else [c])%N.

Fixpoint quote_units (s : jsstring) : jsstring :=
  match s with
  | [] => []
  | c :: s' =>
      match s' with
      | d :: s'' =>
          if is_high_surrogate c && is_low_surrogate d
          then c :: d :: quote_units s''
          else quote_unit c ++ quote_units s'
      | [] => quote_unit c
      end
  end.

(** QuoteJSONString *)
Definition quote (s : jsstring) : jsstring := [34%N] ++ quote_units s ++ [34%N].

Fixpoint join_with (sep : jsstring) (parts : list jsstring) : jsstring :=
  match parts with
  | [] => []
  | [p] => p
  | p :: parts' => p ++ sep ++ join_with sep parts'
  end.

(** [JSON.stringify(v)]; [None] is the [undefined] it returns for
    [undefined].  A property whose value is [undefined] is left out, an
    [undefined] array element is written [null]. *)
Fixpoint JSON_stringify (v : value) : option jsstring :=
  match v with
  | VUndefined => None
  | VNull => Some (js "null")
  | VBool true => Some (js "true")
  | VBool false => Some (js "false")
  | VNumber x =>
      Some (if Number.is_finite x then Number.toString x else js "null")
  | VString s => Some (quote s)
  | VArray l =>
      Some (js "[" ++
            join_with (js ",")
              ((fix elements (l : list value) : list jsstring :=
                  match l with
                  | [] => []
                  | x :: l' => default (js "null") (JSON_stringify x) :: elements l'
                  end) l)
            ++ js "]")
  | VObject props =>
      Some (js "{" ++
            join_with (js ",")
              ((fix members (ps : list (jsstring * value)) : list jsstring :=
                  match ps with
                  | [] => []
                  | (k, x) :: ps' =>
                      match JSON_stringify x with
                      | Some s => (quote k ++ js ":" ++ s) :: members ps'
                      | None => members ps'
                      end
                  end) props)
            ++ js "}")
  end.

(** The size of [new Blob([s])]: the length of [s] in UTF-8. *)
Fixpoint utf8_length (s : jsstring) : nat :=
  match s with
  | [] => 0
  | c :: s' =>
      if decide (c < 128)%N then S (utf8_length s')
      else if decide (c < 2048)%N then 2 + utf8_length s'
      else match s' with
           | d :: s'' =>
               if is_high_surrogate c && is_low_surrogate d
               then 4 + utf8_length s''
               else 3 + utf8_length s'
           | [] => 3
           end
  end%nat.

End JS.

(** ** event-utils.ts *)

Module EventUtils.
Import JS.

(** An event: its [type], its [ts], and its other own properties. *)
Record InspectorEvent := {
  type : jsstring;
  ts : value;
  fields : list (jsstring * value)
}.

(** The read [e.k] of a property other than [type] and [ts]; no name the
    program reads this way is a member of [Object.prototype]. *)
Definition get (e : InspectorEvent) (k : string) : value :=
  default VUndefined (assoc (fields e) (js k)).

Inductive EventCategory := AI | Tool | WebMCP | Event | System.

Definition CATEGORY_TYPES : list (EventCategory * list jsstring) :=
  [ (AI, [js "SESSION_CREATED"; js "PROMPT_SENT"; js "PROMPT_RESPONSE";
          js "PROMPT_ERROR"; js "STREAM_START"; js "STREAM_END"]);
    (Tool, [js "TOOL_CALL"; js "TOOL_RESULT_AI"]);
    (WebMCP, [js "TOOL_REGISTERED"; js "TOOL_UNREGISTERED"; js "CONTEXT_CLEARED"]);
    (Event, [js "TOOL_ACTIVATED"; js "TOOL_CANCEL"]);
    (System, [js "PAGE_RELOAD"]) ].

(** [table[k] = a] on a table kept as its list of own properties. *)
Fixpoint table_set {A} (table : list (jsstring * A)) (k : jsstring) (a : A)
  : list (jsstring * A) :=
  match table with
  | [] => [(k, a)]
  | (k', a') :: table' =>
      if decide (k' = k) then (k, a) :: table'
      else (k', a') :: table_set table' k a
  end.

(** The two loops that fill the table when the module is loaded. *)
Definition TYPE_TO_CATEGORY : list (jsstring * EventCategory) :=
  foldl (λ table '(cat, types),
           foldl (λ table t, table_set table t cat) table types)
        [] CATEGORY_TYPES.

(** [TYPE_TO_CATEGORY[type] ?? "System"]: what the read finds is never
    [null], so the default applies when it finds nothing. *)
Definition getCategory (type : jsstring) : found EventCategory :=
  default (Own System) (table_get TYPE_TO_CATEGORY type).

Record status := { label : jsstring; color : jsstring }.

(** [v !== ""] *)
Definition not_empty_string (v : value) : bool :=
  match v with
  | VString [] => false
  | _ => true
  end.

(** [t === "K"] *)
Definition type_is (k : string) (t : jsstring) : bool := bool_decide (t = js k).

Definition getEventStatus (e : InspectorEvent) : status :=
  let t := type e in
  if type_is "PROMPT_ERROR" t then {| label := js "error"; color := js "#f44336" |}
  else if type_is "PROMPT_RESPONSE" t || type_is "STREAM_END" t then
    {| label := js "ok"; color := js "#4caf50" |}
  else if type_is "TOOL_RESULT_AI" t then
    if not_nullish (get e "error") && not_empty_string (get e "error") then
      {| label := js "error"; color := js "#f44336" |}
    else if negb (not_nullish (get e "result")) then
      {| label := js "empty"; color := js "#ff9800" |}
    else {| label := js "ok"; color := js "#4caf50" |}
  else if type_is "PROMPT_SENT" t || type_is "STREAM_START" t || type_is "TOOL_CALL" t then
    {| label := js "sent"; color := js "#ff9800" |}
  else if type_is "SESSION_CREATED" t then {| label := js "new"; color := js "#2196f3" |}
  else if type_is "TOOL_REGISTERED" t then {| label := js "+"; color := js "#4caf50" |}
  else if type_is "TOOL_UNREGISTERED" t then {| label := [8722%N]; color := js "#f44336" |}
  else if type_is "CONTEXT_CLEARED" t then {| label := js "clear"; color := js "#ff5722" |}
  else if type_is "PAGE_RELOAD" t then {| label := js "reload"; color := js "#607d8b" |}
  else {| label := [8212%N]; color := js "#999" |}.

Definition isEventError (e : InspectorEvent) : bool :=
  if type_is "PROMPT_ERROR" (type e) then true
  else if type_is "TOOL_RESULT_AI" (type e)
          && not_nullish (get e "error") && not_empty_string (get e "error")
  then true
  else false.

(** [JSON.stringify(rest)] for the object [rest] of the properties other
    than [type] and [ts]. *)
Definition rest_json (e : InspectorEvent) : jsstring :=
  default [] (JSON_stringify (VObject (fields e))).

Definition getDataSize (e : InspectorEvent) : jsstring :=
  let json := rest_json e in
  let bytes := utf8_length json in
  if decide (bytes < 1024)%nat then Number_toString (Z.of_nat bytes) ++ js " B"
  else toFixed 1 (Number_div (Z.of_nat bytes) 1024) ++ js " KB".

Definition TYPE_COLORS : list (jsstring * jsstring) :=
  [ (js "SESSION_CREATED", js "#2196f3");
    (js "PROMPT_SENT", js "#ff9800");
    (js "PROMPT_RESPONSE", js "#4caf50");
    (js "PROMPT_ERROR", js "#f44336");
    (js "STREAM_START", js "#9c27b0");
    (js "STREAM_END", js "#9c27b0");
    (js "TOOL_CALL", js "#ff5722");
    (js "TOOL_RESULT_AI", js "#8bc34a");
    (js "TOOL_REGISTERED", js "#4caf50");
    (js "TOOL_UNREGISTERED", js "#f44336");
    (js "CONTEXT_CLEARED", js "#ff5722");
    (js "TOOL_ACTIVATED", js "#00bcd4");
    (js "TOOL_CANCEL", js "#e91e63");
    (js "PAGE_RELOAD", js "#607d8b") ].

(** The property name that a category is as a key. *)
Definition category_name (c : EventCategory) : jsstring :=
  match c with
  | AI => js "AI"
  | Tool => js "Tool"
  | WebMCP => js "WebMCP"
  | Event => js "Event"
  | System => js "System"
  end.

Definition CATEGORY_COLORS : list (jsstring * jsstring) :=
  [ (category_name AI, js "#2196f3");
    (category_name Tool, js "#ff5722");
    (category_name WebMCP, js "#4caf50");
    (category_name Event, js "#00bcd4");
    (category_name System, js "#607d8b") ].

(** [s.length > max ? s.slice(0, max) + "..." : s], the dots being the
    one code unit U+2026. *)
Definition truncate (s : jsstring) (max : nat) : jsstring :=
  if decide (max < length s)%nat then take max s ++ [8230%N] else s.

(** [v?.k] for the names [name] and [description], which no prototype of
    a string, number, boolean, array or plain object defines: the own
    property of an object, else [undefined]. *)
Definition optional_member (v : value) (k : string) : value :=
  match v with
  | VObject props => default VUndefined (assoc props (js k))
  | _ => VUndefined
  end.

(** [String(e.k ?? d)] *)
Definition field_text (e : InspectorEvent) (k : string) (d : string)
  : option jsstring :=
  ToString (nullish (get e k) (VString (js d))).

(** [None] is the TypeError of a [String(..)] that fails. *)
Definition getEventName (e : InspectorEvent) : option jsstring :=
  let t := type e in
  if type_is "SESSION_CREATED" t then
    s ← field_text e "sessionId" ""; Some (js "Session #" ++ take 8 s)
  else if type_is "PROMPT_SENT" t || type_is "STREAM_START" t then
    s ← field_text e "input" ""; Some (truncate s 60)
  else if type_is "PROMPT_RESPONSE" t || type_is "STREAM_END" t then
    s ← field_text e "result" ""; Some (truncate s 60)
  else if type_is "PROMPT_ERROR" t then
    s ← field_text e "error" "error"; Some (truncate s 60)
  else if type_is "TOOL_CALL" t || type_is "TOOL_RESULT_AI" t then
    field_text e "tool" "unknown"
  else if type_is "TOOL_REGISTERED" t then
    ToString (nullish (optional_member (get e "tool") "name")
                      (VString (js "unknown")))
  else if type_is "TOOL_UNREGISTERED" t then field_text e "name" "unknown"
  else if type_is "CONTEXT_CLEARED" t then Some (js "(all tools)")
  else if type_is "TOOL_ACTIVATED" t || type_is "TOOL_CANCEL" t then
    field_text e "toolName" "unknown"
  else if type_is "PAGE_RELOAD" t then Some (js "(navigation)")
  else Some t.

(** The object literal [{ k1: e.k1, k2: e.k2, ... }]. *)
Definition pick (e : InspectorEvent) (ks : list string) : value :=
  VObject ((λ k, (js k, get e k)) <$> ks).

Definition getPayload (e : InspectorEvent) : value :=
  let t := type e in
  if type_is "SESSION_CREATED" t then pick e ["options"; "quotaUsage"]
  else if type_is "PROMPT_SENT" t || type_is "STREAM_START" t then
    pick e ["input"; "opts"]
  else if type_is "TOOL_CALL" t then pick e ["tool"; "args"]
  else if type_is "TOOL_REGISTERED" t then get e "tool"
  else if type_is "TOOL_UNREGISTERED" t then pick e ["name"]
  else if type_is "TOOL_ACTIVATED" t || type_is "TOOL_CANCEL" t then
    pick e ["toolName"]
  else VNull.

Definition getResponse (e : InspectorEvent) : value :=
  let t := type e in
  if type_is "PROMPT_RESPONSE" t || type_is "STREAM_END" t then pick e ["result"]
  else if type_is "PROMPT_ERROR" t then pick e ["error"]
  else if type_is "TOOL_RESULT_AI" t then pick e ["tool"; "result"; "error"]
  else VNull.

End EventUtils.

(** ** The merge of events into entries *)

Module Merge.
Import JS EventUtils.

Record MergedEntry := {
  id : nat;
  request : InspectorEvent;
  response : option InspectorEvent
}.

Definition REQUEST_PAIR : list (jsstring * jsstring) :=
  [ (js "PROMPT_SENT", js "prompt");
    (js "STREAM_START", js "stream");
    (js "TOOL_CALL", js "tool") ].

Definition RESPONSE_PAIR : list (jsstring * jsstring) :=
  [ (js "PROMPT_RESPONSE", js "prompt");
    (js "PROMPT_ERROR", js "prompt");
    (js "STREAM_END", js "stream");
    (js "TOOL_RESULT_AI", js "tool") ].

(** What [if (p)] and [`${p}`] make of a value read from a pairing table. *)
Definition truthy (p : found jsstring) : bool :=
  match p with
  | Own s => bool_decide (s ≠ [])
  | Inherited _ => true
  end.

Definition pair_to_string (p : found jsstring) : jsstring :=
  match p with
  | Own s => s
  | Inherited i => inherited_to_string i
  end.

(** [pairType === "tool"] *)
Definition is_tool (p : found jsstring) : bool :=
  match p with
  | Own s => bool_decide (s = js "tool")
  | Inherited _ => false
  end.

(** [None] is the TypeError of a [String(..)] that fails. *)
Definition matchKey (event : InspectorEvent) (pairType : found jsstring)
  : option jsstring :=
  sid ← ToString (nullish (get event "sessionId") (VString []));
  if is_tool pairType then
    tool ← ToString (nullish (get event "tool") (VString []));
    Some (js "tool:" ++ sid ++ js ":" ++ tool)
  else Some (pair_to_string pairType ++ js ":" ++ sid).

(** The variables of the loop. *)
Record merge_state := {
  entries : list MergedEntry;
  pending : gmap jsstring nat;
  nextId : nat
}.

Definition set_response (event : InspectorEvent) (e : MergedEntry) : MergedEntry :=
  {| id := id e; request := request e; response := Some event |}.

(** The first half of the loop body.  [Some (Some st)]: the event was
    attached to the pending entry and the loop continues from [st];
    [Some None]: control falls through; [None]: a TypeError, from
    [matchKey] or from [entries[idx]] being [undefined]. *)
Definition absorb (st : merge_state) (event : InspectorEvent)
  : option (option merge_state) :=
  match table_get RESPONSE_PAIR (type event) with
  | Some resPair =>
      if truthy resPair then
        key ← matchKey event resPair;
        match pending st !! key with
        | Some idx =>
            e ← entries st !! idx;
            Some (Some {| entries := <[idx := set_response event e]> (entries st);
                          pending := delete key (pending st);
                          nextId := nextId st |})
        | None => Some None
        end
      else Some None
  | None => Some None
  end.

(** The second half: a new entry, registered as pending when the event
    opens a pair. *)
Definition create (st : merge_state) (event : InspectorEvent)
  : option merge_state :=
  let idx := length (entries st) in
  let entries' :=
    entries st ++ [{| id := nextId st; request := event; response := None |}] in
  match table_get REQUEST_PAIR (type event) with
  | Some reqPair =>
      if truthy reqPair then
        key ← matchKey event reqPair;
        Some {| entries := entries';
                pending := <[key := idx]> (pending st);
                nextId := S (nextId st) |}
      else Some {| entries := entries'; pending := pending st;
                   nextId := S (nextId st) |}
  | None => Some {| entries := entries'; pending := pending st;
                    nextId := S (nextId st) |}
  end.

Definition merge_step (st : merge_state) (event : InspectorEvent)
  : option merge_state :=
  r ← absorb st event;
  match r with
  | Some st' => Some st'
  | None => create st event
  end.

Fixpoint merge_loop (st : merge_state) (events : list InspectorEvent)
  : option merge_state :=
  match events with
  | [] => Some st
  | event :: events' => st' ← merge_step st event; merge_loop st' events'
  end.

Definition initial : merge_state :=
  {| entries := []; pending := ∅; nextId := 0 |}.

Definition mergeEvents (events : list InspectorEvent) : option (list MergedEntry) :=
  entries <$> merge_loop initial events.

(** *** Facts displayed per entry *)

Definition is_pairable (e : MergedEntry) : bool :=
  match table_get REQUEST_PAIR (type (request e)) with
  | Some p => truthy p
  | None => false
  end.

Definition getEntryStatus (e : MergedEntry) : status :=
  match response e with
  | Some r => getEventStatus r
  | None =>
      if is_pairable e then {| label := js "pending"; color := js "#ff9800" |}
      else getEventStatus (request e)
  end.

Definition isEntryFailed (e : MergedEntry) : bool :=
  if match response e with Some r => isEventError r | None => false end then true
  else if isEventError (request e) then true
  else if is_pairable e && negb (bool_decide (is_Some (response e))) then true
  else false.

(** [JSON.stringify(rest).length] *)
Definition jsonLen (ev : InspectorEvent) : nat := length (rest_json ev).

Definition getEntrySize (e : MergedEntry) : jsstring :=
  let bytes := jsonLen (request e) in
  let bytes := match response e with
               | Some r => (bytes + jsonLen r)%nat
               | None => bytes
               end in
  if decide (bytes < 1024)%nat then Number_toString (Z.of_nat bytes) ++ js " B"
  else toFixed 1 (Number_div (Z.of_nat bytes) 1024) ++ js " KB".

Definition getEntryDuration (e : MergedEntry) : option jsstring :=
  match response e with
  | None => None
  | Some r =>
      match is_number (ts (request e)), is_number (ts r) with
      | Some start, Some end_ =>
          let ms := Number.sub end_ start in
          if Number.lt ms 1000 then Some (Number.toString ms ++ js " ms")
          else Some (Number.toFixed 2 (Number.div ms 1000) ++ js " s")
      | _, _ => None
      end
  end.

Definition PAIRED_LABELS : list (jsstring * jsstring) :=
  [ (js "PROMPT_SENT", js "PROMPT");
    (js "STREAM_START", js "STREAM");
    (js "TOOL_CALL", js "TOOL_CALL") ].

Definition getEntryType (e : MergedEntry) : found jsstring :=
  default (Own (type (request e))) (table_get PAIRED_LABELS (type (request e))).

Definition getEntryColor (e : MergedEntry) : found jsstring :=
  default (Own (js "#999")) (table_get TYPE_COLORS (type (request e))).

Definition getEntryName (e : MergedEntry) : option jsstring :=
  getEventName (request e).

Definition getEntryCategory (e : MergedEntry) : found EventCategory :=
  getCategory (type (request e)).

(** [CATEGORY_COLORS[c]], the key being the category, or the text of
    what [getCategory] returned in its place; [None] is [undefined]. *)
Definition getEntryCategoryColor (e : MergedEntry) : option (found jsstring) :=
  table_get CATEGORY_COLORS
    match getEntryCategory e with
    | Own c => category_name c
    | Inherited i => inherited_to_string i
    end.

Definition getEntryPayload (e : MergedEntry) : value := getPayload (request e).

Definition getEntryResponseData (e : MergedEntry) : value :=
  match response e with
  | Some r => getResponse r
  | None => getResponse (request e)
  end.

End Merge.

(** ** The row component of the first panel *)

Module TimelineEntry.
Import JS EventUtils.

Definition TYPE_COLORS : list (jsstring * jsstring) :=
  [ (js "TOOL_REGISTERED", js "#4caf50");
    (js "TOOL_UNREGISTERED", js "#f44336");
    (js "CONTEXT_CLEARED", js "#ff5722");
    (js "SESSION_CREATED", js "#2196f3");
    (js "PROMPT_SENT", js "#ff9800");
    (js "PROMPT_RESPONSE", js "#4caf50");
    (js "PROMPT_ERROR", js "#f44336");
    (js "STREAM_START", js "#9c27b0");
    (js "STREAM_END", js "#9c27b0");
    (js "TOOL_CALL", js "#ff5722");
    (js "TOOL_RESULT_AI", js "#8bc34a");
    (js "TOOL_ACTIVATED", js "#00bcd4");
    (js "TOOL_CANCEL", js "#e91e63");
    (js "PAGE_RELOAD", js "#607d8b") ].

(** [TYPE_COLORS[event.type] ?? "#999"] *)
Definition color (event : InspectorEvent) : found jsstring :=
  default (Own (js "#999")) (table_get TYPE_COLORS (type event)).

End TimelineEntry.

(** ** Notions the properties are stated with *)

Import JS EventUtils Merge.

(** An event written with ASCII names. *)
Definition ev (t : string) (time : value) (fs : list (string * value))
  : InspectorEvent :=
  {| type := js t; ts := time; fields := (λ '(k, v), (js k, v)) <$> fs |}.

(** The text that [getEntrySize] and [getDataSize] make of a size. *)
Definition format_bytes (bytes : nat) : jsstring :=
  if decide (bytes < 1024)%nat then Number_toString (Z.of_nat bytes) ++ js " B"
  else toFixed 1 (Number_div (Z.of_nat bytes) 1024) ++ js " KB".

(** The division of the kernel's binary64 numbers, on integers below
    2^63, as mantissa and exponent. *)
Definition binary64_div (a b : Z) : Z * Z :=
  match Prim2SF (PrimFloat.div (PrimFloat.of_uint63 (Uint63.of_Z a))
                               (PrimFloat.of_uint63 (Uint63.of_Z b))) with
  | S754_finite _ m e => (Z.pos m, e)
  | _ => (0, 0)
  end.

(** Two pairs of mantissa and exponent are one number. *)
Definition same_number (x : double) (y : Z * Z) : bool :=
  let e := Z.min (expo x) y.2 in
  bool_decide (mant x * 2 ^ (expo x - e) = y.1 * 2 ^ (y.2 - e)).

(** [REQUEST_PAIR[e.type]] is truthy: the event opens a pair. *)
Definition opening (e : InspectorEvent) : bool :=
  match table_get REQUEST_PAIR (type e) with
  | Some p => truthy p
  | None => false
  end.

(** [RESPONSE_PAIR[e.type]] is truthy: the event closes a pair. *)
Definition closing (e : InspectorEvent) : bool :=
  match table_get RESPONSE_PAIR (type e) with
  | Some p => truthy p
  | None => false
  end.

(** The key under which an opening event is registered as pending. *)
Definition open_key (e : InspectorEvent) : option jsstring :=
  match table_get REQUEST_PAIR (type e) with
  | Some p => if truthy p then matchKey e p else None
  | None => None
  end.

(** The key a closing event is looked up with. *)
Definition close_key (e : InspectorEvent) : option jsstring :=
  match table_get RESPONSE_PAIR (type e) with
  | Some p => if truthy p then matchKey e p else None
  | None => None
  end.

(** Every key the loop computes for the event exists: no [String(..)] of
    its [sessionId] or [tool] raises. *)
Definition keys_computable (e : InspectorEvent) : bool :=
  (negb (opening e) || bool_decide (is_Some (open_key e)))
  && (negb (closing e) || bool_decide (is_Some (close_key e))).

(** In the state [st], the event [e] is attached to a pending entry
    instead of making an entry of its own. *)
Definition absorbed_by (st : merge_state) (e : InspectorEvent) : bool :=
  match absorb st e with
  | Some (Some _) => true
  | _ => false
  end.

(** The same of an event that arrives after the events [pre]. *)
Definition absorbed (pre : list InspectorEvent) (e : InspectorEvent) : bool :=
  match merge_loop initial pre with
  | Some st => absorbed_by st e
  | None => false
  end.

(** The pending table once the events [pre] are processed. *)
Definition pending_after (pre : list InspectorEvent) : gmap jsstring nat :=
  match merge_loop initial pre with
  | Some st => pending st
  | None => ∅
  end.


(** An event that arrives after the events [pre] closes a key that is
    pending: the table made of [pre] holds the key of the event. *)
Definition closes_pending (pre : list InspectorEvent) (e : InspectorEvent) : bool :=
  match close_key e with
  | Some k => bool_decide (is_Some (pending_after pre !! k))
  | None => false
  end.

(** How many of the events, which arrive after [pre], close a key that
    is pending when they arrive. *)
Fixpoint matched_from (pre events : list InspectorEvent) : nat :=
  match events with
  | [] => 0
  | e :: events' =>
      ((if closes_pending pre e then 1 else 0) + matched_from (pre ++ [e]) events')%nat
  end.

(** How many closing events of a stream match a pending key. *)
Definition matched_count (events : list InspectorEvent) : nat :=
  matched_from [] events.

(** The index of the entry that an event arriving after [pre] creates:
    the number of entries made so far. *)
Definition entry_index (pre : list InspectorEvent) : nat :=
  length (default [] (mergeEvents pre)).


(** The invariant of the loop: ids follow positions, and every pending
    key leads to an entry in range that still waits for its response and
    was opened under that key. *)
Record consistent (st : merge_state) : Prop := {
  consistent_next : nextId st = length (entries st);
  consistent_ids : ∀ i e, entries st !! i = Some e → id e = i;
  consistent_pending : ∀ k i, pending st !! k = Some i →
    ∃ e, entries st !! i = Some e ∧ response e = None
         ∧ open_key (request e) = Some k
}.

(** *** Streams used as examples *)

Definition session_a : list (string * value) := [("sessionId", VString (js "a"))].

Definition prompt_1 : InspectorEvent :=
  ev "PROMPT_SENT" (VNumber 100) (session_a ++ [("input", VString (js "hi"))]).
Definition prompt_2 : InspectorEvent :=
  ev "PROMPT_SENT" (VNumber 120) (session_a ++ [("input", VString (js "again"))]).
Definition answer_1 : InspectorEvent :=
  ev "PROMPT_RESPONSE" (VNumber 150) (session_a ++ [("result", VString (js "hello"))]).
Definition answer_2 : InspectorEvent :=
  ev "PROMPT_RESPONSE" (VNumber 170) (session_a ++ [("result", VString (js "bye"))]).
Definition reload : InspectorEvent := ev "PAGE_RELOAD" (VNumber 160) [].
Definition search_call : InspectorEvent :=
  ev "TOOL_CALL" (VNumber 100) (session_a ++ [("tool", VString (js "search"))]).

Definition fetch_call : InspectorEvent :=
  ev "TOOL_CALL" (VNumber 110) (session_a ++ [("tool", VString (js "fetch"))]).
Definition search_result : InspectorEvent :=
  ev "TOOL_RESULT_AI" (VNumber 140)
     (session_a ++ [("tool", VString (js "search")); ("result", VNumber 3)]).
Definition fetch_result : InspectorEvent :=
  ev "TOOL_RESULT_AI" (VNumber 120)
     (session_a ++ [("tool", VString (js "fetch")); ("result", VNull)]).

(** A prompt stamped later than its answer. *)
Definition late_prompt : InspectorEvent :=
  ev "PROMPT_SENT" (VNumber 150) (session_a ++ [("input", VString (js "hi"))]).
Definition early_answer : InspectorEvent :=
  ev "PROMPT_RESPONSE" (VNumber 100) (session_a ++ [("result", VString (js "hello"))]).
Definition slow_answer : InspectorEvent :=
  ev "PROMPT_RESPONSE" (VNumber 1105) (session_a ++ [("result", VString (js "hello"))]).

(** A prompt whose input is the one letter U+00E9, e with an acute
    accent: one code unit, two bytes in UTF-8. *)
Definition accent_prompt : InspectorEvent :=
  ev "PROMPT_SENT" (VNumber 100) [("input", VString [233%N])].

(** Events without a [sessionId]. *)
Definition bare_prompt : InspectorEvent :=
  ev "PROMPT_SENT" (VNumber 100) [("input", VString (js "one"))].
Definition bare_answer : InspectorEvent :=
  ev "PROMPT_RESPONSE" (VNumber 130) [("result", VString (js "other"))].
Definition bare_call : InspectorEvent := ev "TOOL_CALL" (VNumber 100) [].

(** A tool call whose [tool] is an object with a property [toString]. *)
Definition odd_call : InspectorEvent :=
  ev "TOOL_CALL" (VNumber 100) [("tool", VObject [(js "toString", VNumber 1)])].

(** A call and its result, and the result of another session and tool
    that has the same key: the session of the one and the tool of the
    other hold a colon. *)
Definition colon_call : InspectorEvent :=
  ev "TOOL_CALL" (VNumber 100)
     [("sessionId", VString (js "a")); ("tool", VString (js "b:c"))].
Definition colon_result : InspectorEvent :=
  ev "TOOL_RESULT_AI" (VNumber 140)
     [("sessionId", VString (js "a")); ("tool", VString (js "b:c"));
      ("result", VNumber 1)].
Definition foreign_result : InspectorEvent :=
  ev "TOOL_RESULT_AI" (VNumber 120)
     [("sessionId", VString (js "a:b")); ("tool", VString (js "c"));
      ("result", VNumber 2)].

(** A prompt at time 0 and an answer 10^24 milliseconds later, and
    events stamped with a fraction, with NaN and with an infinity. *)
Definition epoch_prompt : InspectorEvent :=
  ev "PROMPT_SENT" (VNumber 0) (session_a ++ [("input", VString (js "hi"))]).
Definition far_answer : InspectorEvent :=
  ev "PROMPT_RESPONSE" (VNumber (10 ^ 24))
     (session_a ++ [("result", VString (js "hello"))]).
Definition half_prompt : InspectorEvent :=
  ev "PROMPT_SENT" (VNumber (Number.div 1 2))
     (session_a ++ [("input", VString (js "hi"))]).
Definition fraction_answer : InspectorEvent :=
  ev "PROMPT_RESPONSE" (VNumber (Number.div 12 10))
     (session_a ++ [("result", VString (js "hello"))]).
Definition nan_answer : InspectorEvent :=
  ev "PROMPT_RESPONSE" (VNumber S754_nan)
     (session_a ++ [("result", VString (js "hello"))]).
Definition never_answer : InspectorEvent :=
  ev "PROMPT_RESPONSE" (VNumber (S754_infinity false))
     (session_a ++ [("result", VString (js "hello"))]).

(** The field is [undefined] or [null]. *)
Definition missing (e : InspectorEvent) (k : string) : Prop :=
  not_nullish (get e k) = false.

(** What one turn of the loop does, when it does not raise. *)
Inductive turn (st : merge_state) (e : InspectorEvent) (st' : merge_state) : Prop :=
| turn_absorb k idx ent :
    close_key e = Some k →
    pending st !! k = Some idx →
    entries st !! idx = Some ent →
    st' = {| entries := <[idx := set_response e ent]> (entries st);
             pending := delete k (pending st);
             nextId := nextId st |} →
    absorbed_by st e = true →
    turn st e st'
| turn_create :
    (∀ k, close_key e = Some k → pending st !! k = None) →
    entries st' =
      entries st ++ [{| id := nextId st; request := e; response := None |}] →
    nextId st' = S (nextId st) →
    pending st' = match open_key e with
                  | Some k => <[k := length (entries st)]> (pending st)
                  | None => pending st
                  end →
    absorbed_by st e = false →
    turn st e st'.

(** The events an entry holds: its request, then its response. *)
Definition entry_events (x : MergedEntry) : list InspectorEvent :=
  request x :: match response x with Some r => [r] | None => [] end.

(** The events that a list of entries holds, entry after entry. *)
Definition events_of (l : list MergedEntry) : list InspectorEvent :=
  l ≫= entry_events.

(** The entry [x'] continues the entry [x]: same id, same request, and
    the response of [x] if it has one. *)
Definition continues (x x' : MergedEntry) : Prop :=
  id x' = id x ∧ request x' = request x
  ∧ ∀ r, response x = Some r → response x' = Some r.

(** The entry made of an event that is shown on its own. *)
Definition standalone (i : nat) (e : InspectorEvent) : MergedEntry :=
  {| id := i; request := e; response := None |}.

(** The entry [x] with its id raised by [n]. *)
Definition shift (n : nat) (x : MergedEntry) : MergedEntry :=
  {| id := n + id x; request := request x; response := response x |}.

(** The timestamps of a stream that are numbers, in the order of the
    stream. *)
Definition instants (events : list InspectorEvent) : list number :=
  omap (λ e, is_number (ts e)) events.

(** The stream is time-ordered: its timestamps, where they are numbers,
    are finite doubles and do not decrease along the stream. *)
Definition time_ordered (events : list InspectorEvent) : Prop :=
  Forall (λ x, Number.is_finite x = true ∧ Number.is_double x = true)
    (instants events)
  ∧ StronglySorted (λ x y, Number.le x y = true) (instants events).

(** [n] hundredths are nearest to the number [x], which is finite and
    not negative. *)
Definition nearest_hundredths (x : number) (n : Z) : Prop :=
  match x with
  | S754_zero _ => n = 0
  | S754_finite false m e =>
      0 <= n
      ∧ Z.abs (2 * (n * 2 ^ Z.max 0 (- e) - 100 * Z.pos m * 2 ^ Z.max 0 e))
        <= 2 ^ Z.max 0 (- e)
  | _ => False
  end.

(** The number [(-1)^s * m * 2^e] in units of [2^ez], as the addition
    and subtraction of doubles align it. *)
Definition aligned (s : bool) (m : positive) (e ez : Z) : Z :=
  cond_Zopp s (Z.pos (shl_align m e ez).1).

(** The code unit of the colon. *)
Definition colon : N := 58%N.

(** Evaluates the tests of a type that is known. *)
Ltac known_type :=
  repeat match goal with
         | |- context [type_is ?k (js ?t)] =>
             let b := eval vm_compute in (type_is k (js t)) in
             change (type_is k (js t)) with b
         end;
  cbn [orb andb].

(** Every event of a listed stream has its keys. *)
Ltac keys_exist := repeat (constructor; [by vm_compute|]); by constructor.

(** ** Properties *)

(** *** The loop body by cases *)

Lemma is_pairable_opening e : is_pairable e = opening (request e).
Proof. reflexivity. Qed.

Lemma absorb_unfold st e :
  absorb st e =
  if closing e then
    key ← close_key e;
    match pending st !! key with
    | Some idx =>
        ent ← entries st !! idx;
        Some (Some {| entries := <[idx := set_response e ent]> (entries st);
                      pending := delete key (pending st);
                      nextId := nextId st |})
    | None => Some None
    end
  else Some None.
Proof.
  unfold absorb, closing, close_key.
  destruct (table_get RESPONSE_PAIR (type e)) as [p|]; [|done].
  by destruct (truthy p).
Qed.

Lemma create_unfold st e :
  create st e =
  let entries' :=
    entries st ++ [{| id := nextId st; request := e; response := None |}] in
  if opening e then
    key ← open_key e;
    Some {| entries := entries';
            pending := <[key := length (entries st)]> (pending st);
            nextId := S (nextId st) |}
  else Some {| entries := entries'; pending := pending st;
               nextId := S (nextId st) |}.
Proof.
  unfold create, opening, open_key.
  destruct (table_get REQUEST_PAIR (type e)) as [p|]; [|done].
  by destruct (truthy p).
Qed.

Lemma open_key_opening e k : open_key e = Some k → opening e = true.
Proof.
  unfold open_key, opening.
  destruct (table_get REQUEST_PAIR (type e)) as [p|]; [|done].
  by destruct (truthy p).
Qed.

Lemma close_key_closing e k : close_key e = Some k → closing e = true.
Proof.
  unfold close_key, closing.
  destruct (table_get RESPONSE_PAIR (type e)) as [p|]; [|done].
  by destruct (truthy p).
Qed.

Lemma absorbed_by_unfold st e :
  absorbed_by st e =
  match close_key e with
  | Some k =>
      match pending st !! k with
      | Some idx => bool_decide (is_Some (entries st !! idx))
      | None => false
      end
  | None => false
  end.
Proof.
  unfold absorbed_by. rewrite absorb_unfold.
  destruct (closing e) eqn:Hc.
  - destruct (close_key e) as [k|]; simpl; [|done].
    destruct (pending st !! k) as [idx|]; simpl; [|done].
    by destruct (entries st !! idx).
  - destruct (close_key e) eqn:E; [|done].
    apply close_key_closing in E. congruence.
Qed.

Lemma not_opening_key e : opening e = false → open_key e = None.
Proof.
  intros Ho. destruct (open_key e) eqn:E; [|done].
  apply open_key_opening in E. congruence.
Qed.

Lemma not_closing_key e : closing e = false → close_key e = None.
Proof.
  intros Hc. destruct (close_key e) eqn:E; [|done].
  apply close_key_closing in E. congruence.
Qed.

Lemma merge_step_turn st e st' : merge_step st e = Some st' → turn st e st'.
Proof.
  unfold merge_step. rewrite absorb_unfold, create_unfold.
  destruct (closing e) eqn:Hc; simpl.
  - destruct (close_key e) as [k|] eqn:Hk; simpl; [|done].
    destruct (pending st !! k) as [idx|] eqn:Hp; simpl.
    + destruct (entries st !! idx) as [ent|] eqn:He; simpl; [|done].
      intros [= <-]. eapply turn_absorb; try done.
      by rewrite absorbed_by_unfold, Hk, Hp, He.
    + assert (absorbed_by st e = false) as Hab
        by (by rewrite absorbed_by_unfold, Hk, Hp).
      assert (∀ k0, close_key e = Some k0 → pending st !! k0 = None) as Hnone
        by (rewrite Hk; by intros k0 [= <-]).
      destruct (opening e) eqn:Ho.
      * destruct (open_key e) as [k'|] eqn:Hk'; simpl; [|done].
        intros [= <-]. apply turn_create; simpl; rewrite ?Hk'; done.
      * intros [= <-]. apply turn_create; simpl;
          rewrite ?(not_opening_key e Ho); done.
  - pose proof (not_closing_key e Hc) as Hn.
    assert (absorbed_by st e = false) as Hab
      by (by rewrite absorbed_by_unfold, Hn).
    assert (∀ k0, close_key e = Some k0 → pending st !! k0 = None) as Hnone
      by (by rewrite Hn).
    destruct (opening e) eqn:Ho.
    + destruct (open_key e) as [k'|] eqn:Hk'; simpl; [|done].
      intros [= <-]. apply turn_create; simpl; rewrite ?Hk'; done.
    + intros [= <-]. apply turn_create; simpl;
        rewrite ?(not_opening_key e Ho); done.
Qed.

(** *** The invariant *)

Lemma consistent_initial : consistent initial.
Proof. split; simpl; [done|done|]. intros k i. by rewrite lookup_empty. Qed.

Lemma turn_consistent st e st' : consistent st → turn st e st' → consistent st'.
Proof.
  intros [Hn Hi Hp] [k idx ent Hk Hpk Hent -> _|Hfree Hents Hnext Hpend _].
  - split; simpl.
    + by rewrite length_insert.
    + intros i x. destruct (decide (i = idx)) as [->|Hne].
      * rewrite list_lookup_insert_eq by (by eapply lookup_lt_Some).
        intros [= <-]. simpl. by apply Hi.
      * rewrite list_lookup_insert_ne by done. apply Hi.
    + intros k' i. destruct (decide (k = k')) as [->|Hne].
      { by rewrite lookup_delete_eq. }
      rewrite lookup_delete_ne by done. intros Hk'.
      destruct (Hp _ _ Hk') as (x & Hx & Hr & Ho).
      destruct (Hp _ _ Hpk) as (y & Hy & _ & Ho').
      assert (i ≠ idx) by (intros ->; congruence).
      exists x. by rewrite list_lookup_insert_ne.
  - split.
    + rewrite Hnext, Hents, length_app. simpl. lia.
    + intros i x. rewrite Hents. intros Hx.
      apply lookup_app_Some in Hx as [Hx|[Hlen Hx]]; [by apply Hi|].
      destruct (i - length (entries st))%nat as [|n] eqn:E; simpl in Hx; [|done].
      injection Hx as <-. simpl. lia.
    + intros k i. rewrite Hpend, Hents. intros Hk.
      assert (pending st !! k = Some i →
              ∃ x, (entries st ++
                    [{| id := nextId st; request := e; response := None |}]) !! i
                   = Some x ∧ response x = None ∧ open_key (request x) = Some k)
        as Hold.
      { intros Hold. destruct (Hp _ _ Hold) as (x & Hx & ?).
        exists x. split; [|done]. by apply lookup_app_l_Some. }
      destruct (open_key e) as [k'|] eqn:Ho; [|by apply Hold].
      destruct (decide (k' = k)) as [->|Hne].
      * rewrite lookup_insert_eq in Hk. injection Hk as <-.
        exists {| id := nextId st; request := e; response := None |}.
        split; [|done].
        by rewrite lookup_app_r, Nat.sub_diag by lia.
      * rewrite lookup_insert_ne in Hk by done. by apply Hold.
Qed.

Lemma merge_loop_consistent events : ∀ st st',
  consistent st → merge_loop st events = Some st' → consistent st'.
Proof.
  induction events as [|e events IH]; intros st st' Hc; simpl.
  - by intros [= <-].
  - destruct (merge_step st e) as [st1|] eqn:E; simpl; [|done].
    apply IH. eapply turn_consistent; [done|]. by apply merge_step_turn.
Qed.

Lemma merge_loop_app a b st :
  merge_loop st (a ++ b) = merge_loop st a ≫= λ st', merge_loop st' b.
Proof.
  revert st. induction a as [|e a IH]; intros st; simpl; [done|].
  destruct (merge_step st e); simpl; [apply IH|done].
Qed.

(** *** The loop returns *)

Lemma merge_step_returns st e :
  consistent st → keys_computable e → is_Some (merge_step st e).
Proof.
  intros [_ _ Hp] Hk. unfold keys_computable in Hk.
  apply andb_prop_elim in Hk as [Ho Hc].
  unfold merge_step. rewrite absorb_unfold, create_unfold.
  assert (is_Some (if opening e
                   then key ← open_key e;
                        Some {| entries := entries st ++
                                  [{| id := nextId st; request := e; response := None |}];
                                pending := <[key := length (entries st)]> (pending st);
                                nextId := S (nextId st) |}
                   else Some {| entries := entries st ++
                                  [{| id := nextId st; request := e; response := None |}];
                                pending := pending st;
                                nextId := S (nextId st) |})) as Hcreate.
  { destruct (opening e); [|done]. simpl in Ho.
    apply bool_decide_unpack in Ho as [k ->]. done. }
  destruct (closing e); [|done]. simpl in Hc.
  apply bool_decide_unpack in Hc as [k ->]. simpl.
  destruct (pending st !! k) as [idx|] eqn:E; [|done].
  destruct (Hp _ _ E) as (x & -> & _). done.
Qed.

Lemma merge_loop_returns events : ∀ st,
  consistent st → Forall (λ e, keys_computable e) events →
  is_Some (merge_loop st events).
Proof.
  induction events as [|e events IH]; intros st Hc Hk; simpl; [done|].
  apply Forall_cons in Hk as [Hk Hks].
  destruct (merge_step_returns st e Hc Hk) as [st1 E]. rewrite E. simpl.
  apply IH; [|done]. eapply turn_consistent; [done|]. by apply merge_step_turn.
Qed.

Lemma mergeEvents_returns events :
  Forall (λ e, keys_computable e) events → is_Some (mergeEvents events).
Proof.
  intros Hk. unfold mergeEvents.
  destruct (merge_loop_returns events initial consistent_initial Hk) as [st ->].
  done.
Qed.

(** *** Counting entries *)





(** *** Positions and ids *)

Lemma ids_seq (l : list MergedEntry) :
  (∀ i e, l !! i = Some e → id e = i) → id <$> l = seq 0 (length l).
Proof.
  intros Hid. apply list_eq. intros i.
  rewrite list_lookup_fmap. destruct (l !! i) as [e|] eqn:E; simpl.
  - rewrite (Hid _ _ E). symmetry. apply lookup_seq. split; [done|].
    by eapply lookup_lt_Some.
  - symmetry. apply lookup_seq_ge. by apply lookup_ge_None.
Qed.

(** *** An event of both kinds has one key *)

Lemma open_close_key e :
  opening e = true → closing e = true → open_key e = close_key e.
Proof.
  unfold opening, closing, open_key, close_key, table_get.
  destruct (assoc REQUEST_PAIR (type e)) as [a|] eqn:Ha.
  - assert (Object_prototype_get (type e) = None
            ∧ assoc RESPONSE_PAIR (type e) = None) as [-> ->]; [|done].
    revert Ha. unfold assoc, REQUEST_PAIR.
    repeat case_decide; try done; subst; intros _;
      match goal with H : _ = type e |- _ => rewrite <- H end;
      by vm_compute.
  - destruct (assoc RESPONSE_PAIR (type e)) as [b|] eqn:Hb; [|done].
    assert (Object_prototype_get (type e) = None) as ->; [|done].
    revert Hb. unfold assoc, RESPONSE_PAIR.
    repeat case_decide; try done; subst; intros _;
      match goal with H : _ = type e |- _ => rewrite <- H end;
      by vm_compute.
Qed.

Lemma merge_step_keys st e st' :
  merge_step st e = Some st' → keys_computable e.
Proof.
  intros Hstep.
  assert (closing e = true → is_Some (close_key e)) as Hc.
  { intros Hc. revert Hstep. unfold merge_step. rewrite absorb_unfold, Hc.
    destruct (close_key e); [eauto|done]. }
  assert (opening e = true → is_Some (open_key e)) as Ho.
  { intros Ho. destruct (closing e) eqn:Hcl.
    - rewrite (open_close_key e Ho Hcl). by apply Hc.
    - revert Hstep. unfold merge_step.
      rewrite absorb_unfold, create_unfold, Hcl, Ho. simpl.
      destruct (open_key e); [eauto|done]. }
  unfold keys_computable. apply andb_prop_intro. split.
  - destruct (opening e); simpl; [|done]. by apply bool_decide_pack, Ho.
  - destruct (closing e); simpl; [|done]. by apply bool_decide_pack, Hc.
Qed.

Lemma merge_loop_keys events : ∀ st st',
  merge_loop st events = Some st' → Forall (λ e, keys_computable e) events.
Proof.
  induction events as [|e events IH]; intros st st'; simpl; [by constructor|].
  destruct (merge_step st e) as [st1|] eqn:E; simpl; [|done].
  intros Hloop. constructor; [by eapply merge_step_keys|by eapply IH].
Qed.

(** [mergeEvents] returns exactly on the streams whose keys exist. *)
Lemma mergeEvents_returns_iff events :
  is_Some (mergeEvents events) ↔ Forall (λ e, keys_computable e) events.
Proof.
  split; [|apply mergeEvents_returns].
  unfold mergeEvents. intros [out Hout].
  destruct (merge_loop initial events) as [st|] eqn:E; [|done].
  by eapply merge_loop_keys.
Qed.

(** *** Entries and keys that later events leave alone *)

Lemma merge_loop_app_Some a b st st' :
  merge_loop st (a ++ b) = Some st' →
  ∃ st1, merge_loop st a = Some st1 ∧ merge_loop st1 b = Some st'.
Proof.
  rewrite merge_loop_app. destruct (merge_loop st a) as [st1|]; [|done].
  simpl. eauto.
Qed.

Lemma merge_loop_cons_Some e b st st' :
  merge_loop st (e :: b) = Some st' →
  ∃ st1, merge_step st e = Some st1 ∧ merge_loop st1 b = Some st'.
Proof. simpl. destruct (merge_step st e) as [st1|]; [|done]. simpl. eauto. Qed.

(** An entry that is pending under keys of [K] only is not changed by
    events that close no key of [K]. *)
Lemma entry_kept (K : jsstring → Prop) i x events : ∀ st st',
  entries st !! i = Some x →
  (∀ k, pending st !! k = Some i → K k) →
  Forall (λ e, ∀ k, close_key e = Some k → ¬ K k) events →
  merge_loop st events = Some st' →
  entries st' !! i = Some x ∧ (∀ k, pending st' !! k = Some i → K k).
Proof.
  induction events as [|e events IH]; intros st st' Hx HK Hev; simpl.
  - by intros [= <-].
  - apply Forall_cons in Hev as [He Hev].
    destruct (merge_step st e) as [st1|] eqn:E; simpl; [|done].
    apply IH; [| |done].
    + destruct (merge_step_turn _ _ _ E) as [k idx ent Hk Hpk _ -> _|_ -> _ _ _];
        simpl.
      * rewrite list_lookup_insert_ne; [done|].
        intros ->. by apply (He k Hk), HK.
      * by apply lookup_app_l_Some.
    + destruct (merge_step_turn _ _ _ E) as [k idx ent Hk Hpk _ -> _|_ _ _ -> _];
        simpl.
      * intros k' Hk'. apply lookup_delete_Some in Hk' as [_ Hk']. by apply HK.
      * destruct (open_key e) as [k0|]; [|done].
        intros k' Hk'. apply lookup_insert_Some in Hk' as [[_ <-]|[_ Hk']].
        -- apply lookup_lt_Some in Hx. lia.
        -- by apply HK.
Qed.

(** A pending key stays as it is while no event opens or closes it. *)
Lemma pending_kept k i events : ∀ st st',
  pending st !! k = Some i →
  Forall (λ e, close_key e ≠ Some k ∧ open_key e ≠ Some k) events →
  merge_loop st events = Some st' →
  pending st' !! k = Some i.
Proof.
  induction events as [|e events IH]; intros st st' Hk Hev; simpl.
  - by intros [= <-].
  - apply Forall_cons in Hev as [[Hc Ho] Hev].
    destruct (merge_step st e) as [st1|] eqn:E; simpl; [|done].
    apply IH; [|done].
    destruct (merge_step_turn _ _ _ E) as [k' idx ent Hk' _ _ -> _|_ _ _ -> _];
      simpl.
    + rewrite lookup_delete_ne; [done|]. congruence.
    + destruct (open_key e) as [k0|]; [|done].
      rewrite lookup_insert_ne; [done|]. congruence.
Qed.

(** *** Absorbed events *)


(** The three opening types close nothing, so their events are never
    absorbed. *)
Lemma opening_type_not_absorbed pre o :
  is_Some (assoc REQUEST_PAIR (type o)) → absorbed pre o = false.
Proof.
  intros [a Ha]. unfold absorbed.
  destruct (merge_loop initial pre) as [st|]; [|done].
  rewrite absorbed_by_unfold.
  assert (close_key o = None) as ->; [|done].
  unfold close_key, table_get.
  assert (Object_prototype_get (type o) = None
          ∧ assoc RESPONSE_PAIR (type o) = None) as [-> ->]; [|done].
  revert Ha. unfold assoc, REQUEST_PAIR.
  repeat case_decide; try done; subst; intros _;
    match goal with H : _ = type o |- _ => rewrite <- H end;
    by vm_compute.
Qed.

(** *** The length of the result *)





(** A closing event is counted when its key is pending, and only then:
    the second answer of one prompt finds nothing pending. *)
Example merge_length_example :
  mergeEvents [prompt_1; reload; answer_1; answer_2]
  = Some [ {| id := 0; request := prompt_1; response := Some answer_1 |};
           {| id := 1; request := reload; response := None |};
           {| id := 2; request := answer_2; response := None |} ]
  ∧ closes_pending [prompt_1; reload] answer_1 = true
  ∧ closes_pending [prompt_1; reload; answer_1] answer_2 = false
  ∧ matched_count [prompt_1; reload; answer_1; answer_2] = 1%nat.
Proof. by vm_compute. Qed.

(** *** Ids *)

(** C10.  The entries returned carry the ids 0, 1, 2, ... without gaps:
    the id of an entry is its index in the result, whatever was absorbed. *)
Theorem merge_ids_are_positions events :
  Forall (λ e, keys_computable e) events →
  ∃ out, mergeEvents events = Some out
    ∧ id <$> out = seq 0 (length out)
    ∧ ∀ i e, out !! i = Some e → id e = i.
Proof.
  intros Hk. unfold mergeEvents.
  destruct (merge_loop_returns events initial consistent_initial Hk) as [st E].
  rewrite E. exists (entries st). split; [done|].
  pose proof (merge_loop_consistent _ _ _ consistent_initial E) as [_ Hid _].
  split; [by apply ids_seq|done].
Qed.

Lemma merge_ids_are_positions_witness :
  ∃ out, mergeEvents [prompt_1; answer_1; reload; answer_1] = Some out
    ∧ id <$> out = seq 0 (length out)
    ∧ ∀ i e, out !! i = Some e → id e = i.
Proof.
  apply (merge_ids_are_positions [prompt_1; answer_1; reload; answer_1]).
  keys_exist.
Defined.

(** *** Opening and closing events *)

Lemma entry_index_length pre st :
  merge_loop initial pre = Some st → entry_index pre = length (entries st).
Proof. intros E. unfold entry_index, mergeEvents. by rewrite E. Qed.

(** An opening event that is not absorbed makes the entry at the next
    index and becomes the one pending entry of its key. *)
Lemma opening_creates pre o k st0 st1 :
  merge_loop initial pre = Some st0 →
  merge_step st0 o = Some st1 →
  absorbed pre o = false →
  open_key o = Some k →
  consistent st1
  ∧ entries st1 !! entry_index pre
    = Some {| id := entry_index pre; request := o; response := None |}
  ∧ pending st1 !! k = Some (entry_index pre)
  ∧ (∀ k', pending st1 !! k' = Some (entry_index pre) → k' = k)
  ∧ (∀ i x, entries st0 !! i = Some x → entries st1 !! i = Some x)
  ∧ (∀ k' i, k' ≠ k → pending st1 !! k' = Some i → pending st0 !! k' = Some i).
Proof.
  intros E0 E1 Hab Hk. rewrite (entry_index_length _ _ E0).
  unfold absorbed in Hab. rewrite E0 in Hab.
  pose proof (merge_loop_consistent _ _ _ consistent_initial E0) as Hc0.
  pose proof (merge_step_turn _ _ _ E1) as Ht.
  split; [by eapply turn_consistent|].
  destruct Ht as [? ? ? _ _ _ _ Habs|_ Hents _ Hpend _]; [congruence|].
  rewrite Hents, Hpend, Hk, (consistent_next _ Hc0).
  split; [by rewrite lookup_app_r, Nat.sub_diag by lia|].
  split; [by rewrite lookup_insert_eq|].
  split; [|split; [intros i x Hx; by apply lookup_app_l_Some|]].
  - intros k' Hk'. apply lookup_insert_Some in Hk' as [[? _]|[_ Hk']]; [done|].
    destruct (consistent_pending _ Hc0 _ _ Hk') as (x & Hx & _).
    apply lookup_lt_Some in Hx. lia.
  - intros k' i Hne Hk'. by rewrite lookup_insert_ne in Hk'.
Qed.

(** A closing event whose key is pending is attached to the pending
    entry, which then is pending no more. *)
Lemma closing_attaches c k i x st st' :
  merge_step st c = Some st' →
  close_key c = Some k →
  pending st !! k = Some i →
  entries st !! i = Some x →
  (∀ k', pending st !! k' = Some i → k' = k) →
  entries st' !! i = Some (set_response c x)
  ∧ (∀ k', pending st' !! k' = Some i → False)
  ∧ (∀ j y, j ≠ i → entries st !! j = Some y → entries st' !! j = Some y).
Proof.
  intros E Hk Hp Hx Huniq.
  destruct (merge_step_turn _ _ _ E) as [k0 idx ent Hk0 Hp0 Hent -> _|Hfree _ _ _ _].
  - assert (k0 = k) as -> by congruence.
    assert (idx = i) as -> by congruence.
    assert (ent = x) as -> by congruence. simpl.
    split; [by rewrite list_lookup_insert_eq by (by eapply lookup_lt_Some)|].
    split.
    + intros k' Hk'. apply lookup_delete_Some in Hk' as [Hne Hk'].
      by apply Hne, eq_sym, Huniq.
    + intros j y Hne Hy. by rewrite list_lookup_insert_ne.
  - rewrite (Hfree _ Hk) in Hp. done.
Qed.

(** From a state where the entry [i] is the one pending under [k]: after
    events that leave [k] alone, a closing event of [k] becomes the
    response of [i], and nothing later changes that. *)
Lemma pending_entry_answered st1 st i x k mid c post :
  entries st1 !! i = Some x →
  pending st1 !! k = Some i →
  (∀ k', pending st1 !! k' = Some i → k' = k) →
  Forall (λ e, close_key e ≠ Some k) mid →
  Forall (λ e, open_key e ≠ Some k) mid →
  close_key c = Some k →
  merge_loop st1 (mid ++ c :: post) = Some st →
  entries st !! i = Some (set_response c x).
Proof.
  intros Hx1 Hp1 Hu1 Hmidc Hmido Hc E.
  apply merge_loop_app_Some in E as (st2 & E2 & E).
  apply merge_loop_cons_Some in E as (st3 & E3 & E4).
  destruct (entry_kept (λ k', k' = k) i _ mid st1 st2 Hx1 Hu1) as [Hx2 Hu2];
    [|done|].
  { eapply Forall_impl; [exact Hmidc|]. simpl. intros e He k' Hk' ->. done. }
  assert (pending st2 !! k = Some i) as Hp2.
  { apply (pending_kept k i mid st1 st2 Hp1); [|done].
    apply Forall_forall. intros e He. split.
    - by apply (proj1 (Forall_forall _ _) Hmidc).
    - by apply (proj1 (Forall_forall _ _) Hmido). }
  destruct (closing_attaches _ _ _ _ _ _ E3 Hc Hp2 Hx2 Hu2) as (Hx3 & Hu3 & _).
  destruct (entry_kept (λ _, False) i _ post st3 st Hx3 Hu3) as [Hx4 _];
    [|done|done].
  apply Forall_forall. intros e _ k' _ [].
Qed.

(** C1, amended.  An opening event followed by a closing event of the
    same key, with no event of that key between them, neither closing nor
    opening, ends the merge as the request of an entry whose response is
    that closing event.  The key of an event is the text that [matchKey]
    formats of its pair label, its session and, under the label [tool],
    its tool: events have the same key when these texts are equal. *)
Theorem closing_event_is_response pre o mid c post k :
  Forall (λ e, keys_computable e) (pre ++ o :: mid ++ c :: post) →
  absorbed pre o = false →
  open_key o = Some k →
  close_key c = Some k →
  Forall (λ e, close_key e ≠ Some k) mid →
  Forall (λ e, open_key e ≠ Some k) mid →
  ∃ out, mergeEvents (pre ++ o :: mid ++ c :: post) = Some out
    ∧ out !! entry_index pre
      = Some {| id := entry_index pre; request := o; response := Some c |}.
Proof.
  intros Hkeys Hab Ho Hc Hmidc Hmido.
  destruct (mergeEvents_returns _ Hkeys) as [out Hout].
  exists out. split; [done|].
  unfold mergeEvents in Hout.
  destruct (merge_loop initial (pre ++ o :: mid ++ c :: post)) as [st|] eqn:E;
    [|done].
  injection Hout as <-.
  apply merge_loop_app_Some in E as (st0 & E0 & E).
  apply merge_loop_cons_Some in E as (st1 & E1 & E).
  destruct (opening_creates _ _ _ _ _ E0 E1 Hab Ho) as (_ & Hx1 & Hp1 & Hu1 & _ & _).
  by apply (pending_entry_answered st1 st _ _ k mid c post Hx1 Hp1 Hu1).
Qed.

Lemma closing_event_is_response_witness :
  ∃ out, mergeEvents ([reload] ++ prompt_1 :: [search_call] ++ answer_1 :: [prompt_2])
         = Some out
    ∧ out !! entry_index [reload]
      = Some {| id := entry_index [reload]; request := prompt_1;
                response := Some answer_1 |}.
Proof.
  apply (closing_event_is_response [reload] prompt_1 [search_call] answer_1
           [prompt_2] (js "prompt:a")).
  - keys_exist.
  - by vm_compute.
  - by vm_compute.
  - by vm_compute.
  - repeat (constructor; [by vm_compute|]); by constructor.
  - repeat (constructor; [by vm_compute|]); by constructor.
Defined.

(** C1 as stated fails: [prompt_1] is followed by [answer_1] of the same
    key with no closing event between them, only the opening [prompt_2],
    and its entry ends without a response. *)
Lemma closing_event_is_response_needs_no_reopening :
  absorbed [] prompt_1 = false
  ∧ open_key prompt_1 = Some (js "prompt:a")
  ∧ close_key answer_1 = Some (js "prompt:a")
  ∧ Forall (λ e, closing e = false) [prompt_2]
  ∧ mergeEvents ([] ++ prompt_1 :: [prompt_2] ++ answer_1 :: [])
    = Some [ {| id := 0; request := prompt_1; response := None |};
             {| id := 1; request := prompt_2; response := Some answer_1 |} ]
  ∧ entry_index [] = 0%nat.
Proof. repeat split; try by vm_compute. by repeat constructor. Qed.

(** The key is the text, not the session and the tool it is made of: the
    call of session [a] and tool [b:c] is answered by the result of
    session [a:b] and tool [c], whose key is the same text, and its own
    result, which comes later, stands alone. *)
Example foreign_result_is_attached :
  open_key colon_call = Some (js "tool:a:b:c")
  ∧ close_key foreign_result = Some (js "tool:a:b:c")
  ∧ close_key colon_result = Some (js "tool:a:b:c")
  ∧ mergeEvents [colon_call; foreign_result; colon_result]
    = Some [ {| id := 0; request := colon_call; response := Some foreign_result |};
             {| id := 1; request := colon_result; response := None |} ].
Proof. by vm_compute. Qed.

(** C4, amended.  An opening event with no later closing event of its
    key, the key being the text that [matchKey] formats, ends the merge
    as an entry without a response, shown as pending and failed. *)
Theorem unanswered_opening_is_pending pre o post k :
  Forall (λ e, keys_computable e) (pre ++ o :: post) →
  absorbed pre o = false →
  open_key o = Some k →
  Forall (λ e, close_key e ≠ Some k) post →
  ∃ out x, mergeEvents (pre ++ o :: post) = Some out
    ∧ out !! entry_index pre = Some x
    ∧ request x = o
    ∧ response x = None
    ∧ label (getEntryStatus x) = js "pending"
    ∧ isEntryFailed x = true.
Proof.
  intros Hkeys Hab Ho Hpost.
  destruct (mergeEvents_returns _ Hkeys) as [out Hout].
  exists out, {| id := entry_index pre; request := o; response := None |}.
  split; [done|].
  assert (is_pairable {| id := entry_index pre; request := o; response := None |}
          = true) as Hpair.
  { rewrite is_pairable_opening. by eapply open_key_opening. }
  split; [|repeat split].
  - unfold mergeEvents in Hout.
    destruct (merge_loop initial (pre ++ o :: post)) as [st|] eqn:E; [|done].
    injection Hout as <-.
    apply merge_loop_app_Some in E as (st0 & E0 & E).
    apply merge_loop_cons_Some in E as (st1 & E1 & E2).
    destruct (opening_creates _ _ _ _ _ E0 E1 Hab Ho) as (_ & Hx1 & _ & Hu1 & _ & _).
    destruct (entry_kept (λ k', k' = k) _ _ post st1 st Hx1 Hu1) as [Hx2 _];
      [|done|done].
    eapply Forall_impl; [exact Hpost|]. simpl. intros e He k' Hk' ->. done.
  - unfold getEntryStatus. simpl. by rewrite Hpair.
  - unfold isEntryFailed. simpl. rewrite Hpair. simpl.
    by destruct (isEventError o).
Qed.

Lemma unanswered_opening_is_pending_witness :
  ∃ out x, mergeEvents ([prompt_1; answer_1] ++ search_call :: [answer_1; reload])
           = Some out
    ∧ out !! entry_index [prompt_1; answer_1] = Some x
    ∧ request x = search_call
    ∧ response x = None
    ∧ label (getEntryStatus x) = js "pending"
    ∧ isEntryFailed x = true.
Proof.
  apply (unanswered_opening_is_pending [prompt_1; answer_1] search_call
           [answer_1; reload] (js "tool:a:search")).
  - keys_exist.
  - by vm_compute.
  - by vm_compute.
  - repeat (constructor; [by vm_compute|]); by constructor.
Defined.

(** C4 as stated fails when matching is read of the session and the
    tool: the call of session [a] and tool [b:c] is followed by no result
    of that session and tool, and yet its entry has a response, the
    result of session [a:b] and tool [c], is shown as ok and has not
    failed. *)
Lemma unanswered_opening_takes_foreign_result :
  get colon_call "sessionId" = VString (js "a")
  ∧ get colon_call "tool" = VString (js "b:c")
  ∧ get foreign_result "sessionId" = VString (js "a:b")
  ∧ get foreign_result "tool" = VString (js "c")
  ∧ opening colon_call = true
  ∧ mergeEvents [colon_call; foreign_result]
    = Some [ {| id := 0; request := colon_call; response := Some foreign_result |} ]
  ∧ label (getEntryStatus
             {| id := 0; request := colon_call; response := Some foreign_result |})
    = js "ok"
  ∧ isEntryFailed
      {| id := 0; request := colon_call; response := Some foreign_result |}
    = false.
Proof. by vm_compute. Qed.

(** The scenario of the specification: a tool call alone. *)
Example tool_call_alone :
  mergeEvents [search_call]
  = Some [ {| id := 0; request := search_call; response := None |} ]
  ∧ getEntryStatus {| id := 0; request := search_call; response := None |}
    = {| label := js "pending"; color := js "#ff9800" |}
  ∧ isEntryFailed {| id := 0; request := search_call; response := None |} = true.
Proof. by vm_compute. Qed.

(** *** Two openings of one key *)

(** C2, amended.  An opening event that arrives while its key is pending
    makes a second entry, and the table then holds the index of this new
    entry only.  The next closing event of the key is attached to the
    entry opened last; the entry that was pending before is left without
    a response.  The key of an event is the text that [matchKey] formats:
    events have the same key when these texts are equal. *)
Theorem reopening_supersedes pre o mid c post k i1 :
  Forall (λ e, keys_computable e) (pre ++ o :: mid ++ c :: post) →
  pending_after pre !! k = Some i1 →
  absorbed pre o = false →
  open_key o = Some k →
  close_key c = Some k →
  Forall (λ e, close_key e ≠ Some k ∧ open_key e ≠ Some k) mid →
  ∃ out x1, mergeEvents (pre ++ o :: mid ++ c :: post) = Some out
    ∧ (i1 < entry_index pre)%nat
    ∧ pending_after (pre ++ [o]) !! k = Some (entry_index pre)
    ∧ out !! i1 = Some x1
    ∧ open_key (request x1) = Some k
    ∧ response x1 = None
    ∧ out !! entry_index pre
      = Some {| id := entry_index pre; request := o; response := Some c |}.
Proof.
  intros Hkeys Hpend Hab Ho Hc Hmid.
  assert (Forall (λ e, close_key e ≠ Some k) mid
          ∧ Forall (λ e, open_key e ≠ Some k) mid) as [Hmidc Hmido].
  { split; (eapply Forall_impl; [exact Hmid|]); simpl; tauto. }
  destruct (mergeEvents_returns _ Hkeys) as [out Hout].
  unfold mergeEvents in Hout.
  destruct (merge_loop initial (pre ++ o :: mid ++ c :: post)) as [st|] eqn:E;
    [|done].
  injection Hout as <-.
  pose proof E as Hrun.
  apply merge_loop_app_Some in E as (st0 & E0 & E).
  apply merge_loop_cons_Some in E as (st1 & E1 & E).
  unfold pending_after in Hpend. rewrite E0 in Hpend. simpl in Hpend.
  pose proof (merge_loop_consistent _ _ _ consistent_initial E0) as Hc0.
  destruct (consistent_pending _ Hc0 _ _ Hpend) as (x1 & Hx1 & Hr1 & Hk1).
  destruct (opening_creates _ _ _ _ _ E0 E1 Hab Ho)
    as (_ & Hx2 & Hp1 & Hu1 & Hold & Hother).
  exists (entries st), x1.
  split; [unfold mergeEvents; by rewrite Hrun|].
  assert (i1 < entry_index pre)%nat as Hlt.
  { rewrite (entry_index_length _ _ E0). by eapply lookup_lt_Some. }
  split; [done|]. split.
  { unfold pending_after. rewrite merge_loop_app, E0. simpl. by rewrite E1. }
  split; [|split; [done|split; [done|]]].
  2: by apply (pending_entry_answered st1 st _ _ k mid c post Hx2 Hp1 Hu1).
  destruct (entry_kept (λ _, False) i1 x1 (mid ++ c :: post) st1 st) as [Hfin _];
    try done.
  - by apply Hold.
  - intros k' Hk'. destruct (decide (k' = k)) as [->|Hne].
    + rewrite Hp1 in Hk'. injection Hk' as Heq. lia.
    + apply Hother in Hk'; [|done].
      destruct (consistent_pending _ Hc0 _ _ Hk') as (y & Hy & _ & Hky).
      congruence.
  - apply Forall_forall. intros e _ k' _ [].
Qed.

Lemma reopening_supersedes_witness :
  ∃ out x1, mergeEvents ([prompt_1] ++ prompt_2 :: [reload] ++ answer_1 :: [answer_2])
            = Some out
    ∧ (0 < entry_index [prompt_1])%nat
    ∧ pending_after ([prompt_1] ++ [prompt_2]) !! js "prompt:a"
      = Some (entry_index [prompt_1])
    ∧ out !! 0%nat = Some x1
    ∧ open_key (request x1) = Some (js "prompt:a")
    ∧ response x1 = None
    ∧ out !! entry_index [prompt_1]
      = Some {| id := entry_index [prompt_1]; request := prompt_2;
                response := Some answer_1 |}.
Proof.
  apply (reopening_supersedes [prompt_1] prompt_2 [reload] answer_1 [answer_2]
           (js "prompt:a") 0%nat).
  - keys_exist.
  - by vm_compute.
  - by vm_compute.
  - by vm_compute.
  - by vm_compute.
  - repeat (constructor; [by vm_compute|]); by constructor.
Defined.

(** C2 as stated fails in its last part: of two prompts opened under one
    key, the first answer goes to the one opened last, the first one is
    never answered, and the second answer stands alone as an entry. *)
Lemma reopening_is_not_first_opened_first_closed :
  open_key prompt_1 = open_key prompt_2
  ∧ close_key answer_1 = open_key prompt_1
  ∧ close_key answer_2 = open_key prompt_1
  ∧ mergeEvents [prompt_1; prompt_2; answer_1; answer_2]
    = Some [ {| id := 0; request := prompt_1; response := None |};
             {| id := 1; request := prompt_2; response := Some answer_1 |};
             {| id := 2; request := answer_2; response := None |} ].
Proof. by vm_compute. Qed.

(** The next closing event of the key is the next one with that text: of
    two calls of session [a] and tool [b:c], the one opened last is
    answered by the result of session [a:b] and tool [c]. *)
Example reopening_with_foreign_result :
  open_key colon_call = close_key foreign_result
  ∧ mergeEvents [colon_call; colon_call; foreign_result; colon_result]
    = Some [ {| id := 0; request := colon_call; response := None |};
             {| id := 1; request := colon_call; response := Some foreign_result |};
             {| id := 2; request := colon_result; response := None |} ].
Proof. by vm_compute. Qed.

(** *** Events without key fields *)

Lemma nullish_missing v d : not_nullish v = false → nullish v d = d.
Proof. by destruct v. Qed.

Lemma matchKey_missing e p :
  missing e "sessionId" →
  (is_tool p = true → missing e "tool") →
  matchKey e p
  = Some (if is_tool p then js "tool::" else pair_to_string p ++ js ":").
Proof.
  unfold missing, matchKey. intros Hs Ht.
  rewrite (nullish_missing _ _ Hs). simpl.
  destruct (is_tool p); [|done].
  by rewrite (nullish_missing _ _ (Ht eq_refl)).
Qed.

Lemma matchKey_same e1 e2 p :
  missing e1 "sessionId" →
  missing e2 "sessionId" →
  (is_tool p = true →
   (missing e1 "tool" ∧ missing e2 "tool")
   ∨ (get e1 "tool" = get e2 "tool" ∧ is_Some (ToString (get e1 "tool")))) →
  ∃ key, matchKey e1 p = Some key ∧ matchKey e2 p = Some key.
Proof.
  intros H1 H2 Ht. destruct (is_tool p) eqn:Hp.
  - destruct (Ht eq_refl) as [[Ht1 Ht2]|[Heq [s Hs]]].
    + eexists. split; apply matchKey_missing; try done; by rewrite Hp.
    + unfold matchKey, missing in *.
      rewrite (nullish_missing _ _ H1), (nullish_missing _ _ H2), Hp, <- Heq.
      simpl. destruct (not_nullish (get e1 "tool")) eqn:Hn.
      * assert (nullish (get e1 "tool") (VString []) = get e1 "tool") as ->
          by (by destruct (get e1 "tool")).
        rewrite Hs. simpl. eauto.
      * rewrite (nullish_missing _ _ Hn). simpl. eauto.
  - eexists. split; apply matchKey_missing; try done; by rewrite Hp.
Qed.

Lemma table_get_truthy table k p :
  Forall (λ kv, kv.2 ≠ []) table →
  table_get table k = Some p → truthy p = true.
Proof.
  unfold table_get. intros Hne.
  destruct (assoc table k) as [a|] eqn:Ha.
  - intros [= <-]. simpl. apply bool_decide_eq_true.
    induction table as [|[k' a'] table IH]; [done|].
    apply Forall_cons in Hne as [Hne1 Hne]. simpl in Ha.
    case_decide; [by injection Ha as <-|by apply IH].
  - destruct (Object_prototype_get k); [|done]. by intros [= <-].
Qed.

(** Two events of one pair, read from the two tables under one label and
    with one key, merge into one entry. *)
Lemma pair_merges o c p key :
  table_get REQUEST_PAIR (type o) = Some p →
  table_get RESPONSE_PAIR (type c) = Some p →
  matchKey o p = Some key →
  matchKey c p = Some key →
  mergeEvents [o; c]
  = Some [ {| id := 0; request := o; response := Some c |} ].
Proof.
  intros Ho Hc Hko Hkc.
  assert (truthy p = true) as Hp.
  { eapply (table_get_truthy REQUEST_PAIR); [|done].
    repeat (constructor; [done|]). constructor. }
  assert (opening o = true) as Hopening by (unfold opening; by rewrite Ho).
  assert (open_key o = Some key) as Hopen
    by (unfold open_key; by rewrite Ho, Hp).
  assert (closing c = true) as Hclosing by (unfold closing; by rewrite Hc).
  assert (close_key c = Some key) as Hclose
    by (unfold close_key; by rewrite Hc, Hp).
  assert (absorb initial o = Some None) as Hab.
  { rewrite absorb_unfold. destruct (closing o) eqn:Hco; [|done].
    rewrite <- (open_close_key o Hopening Hco), Hopen. simpl.
    by rewrite lookup_empty. }
  set (x := {| id := 0; request := o; response := None |}).
  set (st1 := {| entries := [x]; pending := <[key := 0%nat]> ∅; nextId := 1 |}).
  assert (merge_step initial o = Some st1) as E1.
  { unfold merge_step. rewrite Hab. cbn [mbind option_bind].
    by rewrite create_unfold, Hopening, Hopen. }
  assert (merge_step st1 c
          = Some {| entries := [set_response c x];
                    pending := delete key (pending st1);
                    nextId := 1 |}) as E2.
  { unfold merge_step. rewrite absorb_unfold, Hclosing, Hclose.
    cbn [mbind option_bind].
    assert (pending st1 !! key = Some 0%nat) as -> by apply lookup_insert_eq.
    done. }
  unfold mergeEvents. cbn [merge_loop]. rewrite E1. cbn [mbind option_bind].
  by rewrite E2.
Qed.

Lemma missing_keys_computable e :
  missing e "sessionId" → missing e "tool" → keys_computable e.
Proof.
  intros Hs Ht. unfold keys_computable, opening, closing, open_key, close_key.
  apply andb_prop_intro. split.
  - destruct (table_get REQUEST_PAIR (type e)) as [p|]; [|done].
    destruct (truthy p); [|done]. simpl.
    rewrite matchKey_missing by done. apply bool_decide_pack. eauto.
  - destruct (table_get RESPONSE_PAIR (type e)) as [p|]; [|done].
    destruct (truthy p); [|done]. simpl.
    rewrite matchKey_missing by done. apply bool_decide_pack. eauto.
Qed.

(** C9, amended.  Two events without a [sessionId], and for the tool
    pair either both without a [tool] or with equal [tool]s that
    [String] converts, get one and the same key from [matchKey]; an
    opening and a closing event of that sort merge into one entry; and
    [mergeEvents] returns on every stream whose events have neither a
    [sessionId] nor a [tool]. *)
Theorem missing_key_fields_collapse :
  (∀ e1 e2 p,
     missing e1 "sessionId" → missing e2 "sessionId" →
     (is_tool p = true →
      (missing e1 "tool" ∧ missing e2 "tool")
      ∨ (get e1 "tool" = get e2 "tool" ∧ is_Some (ToString (get e1 "tool")))) →
     ∃ key, matchKey e1 p = Some key ∧ matchKey e2 p = Some key)
  ∧ (∀ o c p,
       table_get REQUEST_PAIR (type o) = Some p →
       table_get RESPONSE_PAIR (type c) = Some p →
       missing o "sessionId" → missing c "sessionId" →
       (is_tool p = true →
        (missing o "tool" ∧ missing c "tool")
        ∨ (get o "tool" = get c "tool" ∧ is_Some (ToString (get o "tool")))) →
       mergeEvents [o; c]
       = Some [ {| id := 0; request := o; response := Some c |} ])
  ∧ (∀ events,
       Forall (λ e, missing e "sessionId" ∧ missing e "tool") events →
       is_Some (mergeEvents events)).
Proof.
  split; [exact matchKey_same|]. split.
  - intros o c p Ho Hc Hso Hsc Ht.
    destruct (matchKey_same o c p Hso Hsc Ht) as (key & Hko & Hkc).
    by eapply pair_merges.
  - intros events Hev. apply mergeEvents_returns.
    eapply Forall_impl; [exact Hev|]. simpl.
    intros e [Hs Ht]. by apply missing_keys_computable.
Qed.

Lemma missing_key_fields_collapse_witness :
  (∃ key, matchKey bare_prompt (Own (js "prompt")) = Some key
          ∧ matchKey bare_answer (Own (js "prompt")) = Some key)
  ∧ mergeEvents [bare_prompt; bare_answer]
    = Some [ {| id := 0; request := bare_prompt; response := Some bare_answer |} ]
  ∧ is_Some (mergeEvents [bare_call; bare_call; bare_prompt]).
Proof.
  destruct missing_key_fields_collapse as (H1 & H2 & H3).
  split; [|split].
  - apply (H1 bare_prompt bare_answer (Own (js "prompt"))); by vm_compute.
  - apply (H2 bare_prompt bare_answer (Own (js "prompt"))); by vm_compute.
  - apply (H3 [bare_call; bare_call; bare_prompt]).
    repeat (constructor; [by vm_compute|]). constructor.
Defined.

(** C9 as stated fails: two tool calls without a [sessionId] and with
    equal [tool]s get no key when [String] cannot convert the [tool], and
    the merge raises. *)
Lemma equal_tools_without_key :
  get odd_call "sessionId" = VUndefined
  ∧ table_get REQUEST_PAIR (type odd_call) = Some (Own (js "tool"))
  ∧ ToString (get odd_call "tool") = None
  ∧ matchKey odd_call (Own (js "tool")) = None
  ∧ mergeEvents [odd_call; odd_call] = None.
Proof. by vm_compute. Qed.

(** *** Classification *)

Lemma type_is_true k t : type_is k t = true ↔ t = js k.
Proof. unfold type_is. apply bool_decide_eq_true. Qed.

Lemma not_nullish_true v : not_nullish v = true ↔ v ≠ VUndefined ∧ v ≠ VNull.
Proof. destruct v; simpl; split; try done; intros [? ?]; done. Qed.

Lemma not_empty_string_true v : not_empty_string v = true ↔ v ≠ VString [].
Proof. destruct v as [| | | |[|c s]| |]; simpl; split; done. Qed.

(** C7.  [isEventError] holds exactly of the events of type PROMPT_ERROR
    and of the events of type TOOL_RESULT_AI whose [error] is present
    (neither [undefined] nor [null]) and not the empty string. *)
Theorem isEventError_iff e :
  isEventError e = true
  ↔ type e = js "PROMPT_ERROR"
    ∨ (type e = js "TOOL_RESULT_AI"
       ∧ get e "error" ≠ VUndefined
       ∧ get e "error" ≠ VNull
       ∧ get e "error" ≠ VString []).
Proof.
  unfold isEventError.
  destruct (type_is "PROMPT_ERROR" (type e)) eqn:Hp.
  { apply type_is_true in Hp. split; [by left|done]. }
  assert (type e ≠ js "PROMPT_ERROR") as Hne.
  { intros Heq. apply type_is_true in Heq. congruence. }
  destruct (type_is "TOOL_RESULT_AI" (type e)) eqn:Ht; simpl.
  - apply type_is_true in Ht.
    destruct (not_nullish (get e "error")) eqn:Hn; simpl.
    + apply not_nullish_true in Hn as [Hu Hnull].
      destruct (not_empty_string (get e "error")) eqn:Hs.
      * apply not_empty_string_true in Hs. split; [intros _; by right|done].
      * split; [done|]. intros [?|(_ & _ & _ & Hs')]; [done|].
        apply not_empty_string_true in Hs'. congruence.
    + split; [done|]. intros [?|(_ & Hu & Hnull & _)]; [done|].
      assert (not_nullish (get e "error") = true) as Hn'
        by (by apply not_nullish_true).
      congruence.
  - split; [done|]. intros [?|[Heq _]]; [done|].
    apply type_is_true in Heq. congruence.
Qed.

Example isEventError_examples :
  isEventError (ev "PROMPT_ERROR" VUndefined []) = true
  ∧ isEventError (ev "TOOL_RESULT_AI" VUndefined [("error", VString (js "boom"))]) = true
  ∧ isEventError (ev "TOOL_RESULT_AI" VUndefined [("error", VString [])]) = false
  ∧ isEventError (ev "TOOL_RESULT_AI" VUndefined [("error", VNull)]) = false
  ∧ isEventError (ev "TOOL_RESULT_AI" VUndefined [("result", VNumber 1)]) = false
  ∧ isEventError (ev "TOOL_CALL" VUndefined [("error", VString (js "boom"))]) = false.
Proof. by vm_compute. Qed.

(** The table as the two loops leave it. *)
Lemma TYPE_TO_CATEGORY_table :
  TYPE_TO_CATEGORY
  = [ (js "SESSION_CREATED", AI); (js "PROMPT_SENT", AI);
      (js "PROMPT_RESPONSE", AI); (js "PROMPT_ERROR", AI);
      (js "STREAM_START", AI); (js "STREAM_END", AI);
      (js "TOOL_CALL", Tool); (js "TOOL_RESULT_AI", Tool);
      (js "TOOL_REGISTERED", WebMCP); (js "TOOL_UNREGISTERED", WebMCP);
      (js "CONTEXT_CLEARED", WebMCP);
      (js "TOOL_ACTIVATED", Event); (js "TOOL_CANCEL", Event);
      (js "PAGE_RELOAD", System) ].
Proof. by vm_compute. Qed.

(** Every type listed under a category is mapped to that category. *)
Lemma getCategory_known cat types t :
  (cat, types) ∈ CATEGORY_TYPES → t ∈ types → getCategory t = Own cat.
Proof.
  unfold CATEGORY_TYPES. intros Hc Ht.
  repeat (apply elem_of_cons in Hc as [[= -> ->]|Hc];
          [repeat (apply elem_of_cons in Ht as [->|Ht]; [by vm_compute|]);
           by apply elem_of_nil in Ht|]).
  by apply elem_of_nil in Hc.
Qed.

(** A type that is neither listed nor the name of a member of
    [Object.prototype] is mapped to System. *)
Lemma getCategory_default t :
  assoc TYPE_TO_CATEGORY t = None →
  Object_prototype_get t = None →
  getCategory t = Own System.
Proof. unfold getCategory, table_get. by intros -> ->. Qed.

(** C8 fails on the code: the type [constructor] is mapped to no
    category, but to the function that the empty table inherits under
    that name. *)
Theorem getCategory_constructor :
  assoc TYPE_TO_CATEGORY (js "constructor") = None
  ∧ getCategory (js "constructor") = Inherited (BuiltinFunction (js "Object"))
  ∧ Forall (λ c, getCategory (js "constructor") ≠ Own c)
      [AI; Tool; WebMCP; Event; System].
Proof. split; [by vm_compute|]. split; [by vm_compute|]. by repeat constructor. Qed.

(** *** Numbers as text *)

Lemma two_digits z :
  0 <= z < 100 → length (pad_zeros 2 (Number_toString z)) = 2%nat.
Proof.
  intros Hz. replace z with (Z.of_nat (Z.to_nat z)) by lia.
  assert (Z.to_nat z < 100)%nat as Hn by lia.
  generalize dependent (Z.to_nat z). clear. intros n Hn.
  do 100 (destruct n as [|n]; [by vm_compute|]). lia.
Qed.

(** [Number_div] against the division of the kernel's binary64 numbers:
    on quotients by 1000 of small and of large integers, and on
    quotients by 1024. *)
Example Number_div_is_binary64_division :
  forallb (λ a, same_number (Number_div a 1000) (binary64_div a 1000))
    ((λ n, 1000 + Z.of_nat n) <$> seq 0 2000) = true
  ∧ forallb (λ a, same_number (Number_div a 1000) (binary64_div a 1000))
      ((λ n, 1700000000000 + 7919 * Z.of_nat n) <$> seq 0 500) = true
  ∧ forallb (λ a, same_number (Number_div a 1000) (binary64_div a 1000))
      ((λ n, 2 ^ 53 - 1 - 104729 * Z.of_nat n) <$> seq 0 500) = true
  ∧ forallb (λ a, same_number (Number_div a 1024) (binary64_div a 1024))
      ((λ n, 1024 + 37 * Z.of_nat n) <$> seq 0 500) = true.
Proof. by vm_compute. Qed.

(** The numbers of the library against those of the kernel, which are
    binary64: the double that a literal denotes, a difference and a
    quotient that are rounded, and comparisons. *)
Example Number_is_binary64 :
  Number.of_Z (10 ^ 24) = Prim2SF 1e24
  ∧ Number.of_Z 1005 = Prim2SF 1005
  ∧ Number.sub (Prim2SF 1.2) (Prim2SF 0.5) = Prim2SF (1.2 - 0.5)
  ∧ Number.sub (Prim2SF 0.3) (Prim2SF 0.1) = Prim2SF (0.3 - 0.1)
  ∧ Number.sub (Prim2SF 9007199254740993) (Prim2SF 1)
    = Prim2SF (9007199254740993 - 1)
  ∧ Number.div (Prim2SF 1005) (Prim2SF 1000) = Prim2SF (1005 / 1000)
  ∧ Number.div (Prim2SF 1e24) (Prim2SF 1000) = Prim2SF 1e21
  ∧ Number.lt (Prim2SF 999.9999) (Prim2SF 1000) = (999.9999 <? 1000)%float
  ∧ Number.lt S754_nan (Prim2SF 1000) = (nan <? 1000)%float
  ∧ Number.is_double (Prim2SF 0.7) = true.
Proof. by vm_compute. Qed.

(** The texts of numbers: digits as few as tell the double from its
    neighbours, an exponent from 10^21 on and below 10^-6, and
    [toFixed], which rounds the double itself. *)
Example Number_text_examples :
  Number.toString 50 = js "50"
  ∧ Number.toString (-50) = js "-50"
  ∧ Number.toString (Prim2SF 0.1) = js "0.1"
  ∧ Number.toString (Prim2SF (0.1 + 0.2)) = js "0.30000000000000004"
  ∧ Number.toString (Prim2SF (0.3 - 0.1)) = js "0.19999999999999998"
  ∧ Number.toString (10 ^ 20) = js "100000000000000000000"
  ∧ Number.toString (10 ^ 21) = js "1e+21"
  ∧ Number.toString (2 ^ 53 + 1) = js "9007199254740992"
  ∧ Number.toString (Prim2SF 123456789012345680000) = js "123456789012345680000"
  ∧ Number.toString (Prim2SF 0.000001) = js "0.000001"
  ∧ Number.toString (Prim2SF 0.0000001) = js "1e-7"
  ∧ Number.toString (Prim2SF 5e-324) = js "5e-324"
  ∧ Number.toString (Prim2SF 1.7976931348623157e308) = js "1.7976931348623157e+308"
  ∧ Number.toString (S754_zero true) = js "0"
  ∧ Number.toString (S754_infinity true) = js "-Infinity"
  ∧ Number.toFixed 2 (Prim2SF 1.005) = js "1.00"
  ∧ Number.toFixed 2 (Prim2SF 8.345) = js "8.35"
  ∧ Number.toFixed 2 (Prim2SF 0.001) = js "0.00"
  ∧ Number.toFixed 2 (Prim2SF 999999999999999900000) = js "999999999999999868928.00"
  ∧ Number.toFixed 2 (10 ^ 21) = js "1e+21"
  ∧ Number.toFixed 2 S754_nan = js "NaN".
Proof. by vm_compute. Qed.

(** The sizes, which are printed and divided as integers, against the
    numbers of the library: the same digits and the same kilobytes. *)
Example sizes_are_numbers :
  forallb (λ z : Z, bool_decide (Number.toString z = Number_toString z))
    ((λ n, 37 * Z.of_nat n) <$> seq 0 150) = true
  ∧ forallb (λ a : Z, bool_decide (Number.toFixed 1 (Number.div a 1024)
                                   = toFixed 1 (Number_div a 1024)))
      ((λ n, 1024 + 3701 * Z.of_nat n) <$> seq 0 150) = true.
Proof. by vm_compute. Qed.

(** *** Sizes *)

Lemma getDataSize_format e :
  getDataSize e = format_bytes (utf8_length (rest_json e)).
Proof. reflexivity. Qed.

Lemma getEntrySize_format e :
  getEntrySize e
  = format_bytes (jsonLen (request e)
                  + match response e with
                    | Some r => jsonLen r
                    | None => 0
                    end).
Proof.
  unfold getEntrySize, format_bytes.
  destruct (response e); [done|]. by rewrite Nat.add_0_r.
Qed.

(** On text of ASCII letters the two measures agree. *)
Lemma utf8_length_ascii s :
  Forall (λ c, (c < 128)%N) s → utf8_length s = length s.
Proof.
  induction 1 as [|c s Hc _ IH]; [done|].
  cbn [utf8_length length]. by rewrite decide_True, IH.
Qed.

(** The quotient by 1024 is exact. *)
Lemma Number_div_1024 bytes :
  1024 <= bytes < 2 ^ 53 →
  expo (Number_div bytes 1024) <= -10
  ∧ 1024 * mant (Number_div bytes 1024)
    = bytes * 2 ^ (- expo (Number_div bytes 1024)).
Proof.
  intros Hb. unfold Number_div.
  destruct (decide (bytes <= 0)) as [?|_]; [lia|].
  change (Z.log2 1024) with 10.
  assert (Z.log2 bytes < 53) as Hlog by (apply Z.log2_lt_pow2; lia).
  set (e0 := Z.log2 bytes - 10 - 53).
  set (e := if decide (2 ^ 53 * 1024 <= bytes * 2 ^ (- e0)) then e0 + 1 else e0).
  assert (e <= -10) as He by (unfold e, e0; case_decide; lia).
  cbn [expo mant]. split; [done|].
  rewrite (Z.max_r 0 (- e)), (Z.max_l 0 e) by lia.
  change (2 ^ 0) with 1. rewrite Z.mul_1_r.
  replace (- e) with (- e - 10 + 10) by lia.
  rewrite Z.pow_add_r by lia. change (2 ^ 10) with 1024.
  rewrite Z.mul_assoc, Z.mod_mul, Z.div_mul by lia.
  rewrite decide_True by lia. lia.
Qed.

(** [toFixed(1)] of a quotient by 1024 prints the nearest tenth, the
    upper one on a tie. *)
Lemma toFixed_1_kilobytes bytes :
  1024 <= bytes < 2 ^ 53 →
  toFixed 1 (Number_div bytes 1024)
  = Number_toString ((20 * bytes + 1024) / 2048 / 10) ++ js "."
    ++ Number_toString ((20 * bytes + 1024) / 2048 mod 10).
Proof.
  intros Hb. destruct (Number_div_1024 bytes Hb) as [He Hm].
  unfold toFixed.
  destruct (decide (0 <= expo (Number_div bytes 1024))) as [?|_]; [lia|].
  set (x := Number_div bytes 1024) in *.
  change (10 ^ Z.of_nat 1) with 10.
  assert ((2 * (mant x * 10) + 2 ^ (- expo x)) / 2 ^ (1 - expo x)
          = (20 * bytes + 1024) / 2048) as ->.
  { replace (1 - expo x) with (- expo x - 10 + 11) by lia.
    replace (- expo x) with (- expo x - 10 + 10) in Hm |- * at 1 by lia.
    rewrite Z.pow_add_r in Hm |- * by lia.
    rewrite (Z.pow_add_r 2 (- expo x - 10) 11) by lia.
    change (2 ^ 10) with 1024 in *. change (2 ^ 11) with 2048.
    set (F := 2 ^ (- expo x - 10)) in *.
    assert (0 < F) by (apply Z.pow_pos_nonneg; lia).
    assert (mant x = bytes * F) as -> by lia.
    replace (2 * (bytes * F * 10) + F * 1024) with ((20 * bytes + 1024) * F) by lia.
    rewrite (Z.mul_comm F 2048). apply Z.div_mul_cancel_r; lia. }
  do 2 f_equal.
  assert (0 <= (20 * bytes + 1024) / 2048 mod 10 < 10) as Hd
    by (apply Z.mod_pos_bound; lia).
  set (d := (20 * bytes + 1024) / 2048 mod 10) in *.
  assert (d = 0 ∨ d = 1 ∨ d = 2 ∨ d = 3 ∨ d = 4 ∨ d = 5 ∨ d = 6 ∨ d = 7
          ∨ d = 8 ∨ d = 9) as Hcases by lia.
  destruct Hcases as [->|[->|[->|[->|[->|[->|[->|[->|[->| ->]]]]]]]]];
    reflexivity.
Qed.

(** Bytes below 1024, kilobytes with one decimal from there on. *)
Lemma format_bytes_cases bytes :
  ((bytes < 1024)%nat →
   format_bytes bytes = Number_toString (Z.of_nat bytes) ++ js " B")
  ∧ ((1024 <= bytes)%nat → Z.of_nat bytes < 2 ^ 53 →
     format_bytes bytes
     = Number_toString ((20 * Z.of_nat bytes + 1024) / 2048 / 10) ++ js "."
       ++ Number_toString ((20 * Z.of_nat bytes + 1024) / 2048 mod 10)
       ++ js " KB").
Proof.
  unfold format_bytes. split.
  - intros Hlt. by rewrite decide_True.
  - intros Hge Hlt. rewrite decide_False by lia.
    rewrite toFixed_1_kilobytes by lia. by rewrite <- !app_assoc.
Qed.

Example format_bytes_examples :
  format_bytes 0 = js "0 B"
  ∧ format_bytes 1023 = js "1023 B"
  ∧ format_bytes 1024 = js "1.0 KB"
  ∧ format_bytes 1100 = js "1.1 KB"
  ∧ format_bytes 1536 = js "1.5 KB"
  ∧ format_bytes 2047 = js "2.0 KB".
Proof. by vm_compute. Qed.

(** The scenario of the specification: sizes of request and response add. *)
Example getEntrySize_example :
  jsonLen prompt_1 = 30%nat
  ∧ jsonLen answer_1 = 34%nat
  ∧ getEntrySize {| id := 0; request := prompt_1; response := None |} = js "30 B"
  ∧ getEntrySize {| id := 0; request := prompt_1; response := Some answer_1 |}
    = js "64 B".
Proof. by vm_compute. Qed.

(** C6 fails on the code: for a request with a letter outside ASCII,
    [getEntrySize] reports the number of UTF-16 code units of the JSON
    text, 13, where the text takes 14 bytes, the size that [getDataSize]
    of event-utils reports for the same event. *)
Theorem getEntrySize_counts_code_units :
  rest_json accent_prompt
  = js "{" ++ [34%N] ++ js "input" ++ [34%N] ++ js ":" ++ [34; 233; 34]%N ++ js "}"
  ∧ jsonLen accent_prompt = 13%nat
  ∧ utf8_length (rest_json accent_prompt) = 14%nat
  ∧ getEntrySize {| id := 0; request := accent_prompt; response := None |}
    = js "13 B"
  ∧ getDataSize accent_prompt = js "14 B".
Proof. by vm_compute. Qed.

(** *** The scenarios of the specification *)

Example prompt_and_response :
  mergeEvents [prompt_1; answer_1]
  = Some [ {| id := 0; request := prompt_1; response := Some answer_1 |} ]
  ∧ getEntryDuration {| id := 0; request := prompt_1; response := Some answer_1 |}
    = Some (js "50 ms")
  ∧ isEntryFailed {| id := 0; request := prompt_1; response := Some answer_1 |}
    = false.
Proof. by vm_compute. Qed.

Example two_tools_of_one_session :
  mergeEvents [search_call; fetch_call; fetch_result; search_result]
  = Some [ {| id := 0; request := search_call; response := Some search_result |};
           {| id := 1; request := fetch_call; response := Some fetch_result |} ].
Proof. by vm_compute. Qed.

(** ** Further properties of the merge *)

(** An invariant of the loop that speaks of the events processed so far. *)
Lemma merge_loop_invariant (R : list InspectorEvent → merge_state → Prop) :
  (∀ done st e st',
     consistent st → R done st → turn st e st' → R (done ++ [e]) st') →
  ∀ events done st st',
    consistent st → R done st → merge_loop st events = Some st' →
    R (done ++ events) st'.
Proof.
  intros Hstep. induction events as [|e events IH]; intros done st st' Hc HR.
  - simpl. intros [= <-]. by rewrite app_nil_r.
  - intros E. apply merge_loop_cons_Some in E as (st1 & E1 & E).
    pose proof (merge_step_turn _ _ _ E1) as Ht.
    rewrite (cons_middle e done events), app_assoc.
    eapply IH; [by eapply turn_consistent| |done].
    by eapply Hstep.
Qed.

(** The same for the whole run of [mergeEvents]. *)
Lemma mergeEvents_invariant (R : list InspectorEvent → merge_state → Prop) events :
  (∀ done st e st',
     consistent st → R done st → turn st e st' → R (done ++ [e]) st') →
  R [] initial →
  Forall (λ e, keys_computable e) events →
  ∃ st, merge_loop initial events = Some st
        ∧ mergeEvents events = Some (entries st)
        ∧ consistent st ∧ R events st.
Proof.
  intros Hstep Hinit Hk.
  destruct (merge_loop_returns events initial consistent_initial Hk) as [st E].
  exists st. split; [done|]. split; [unfold mergeEvents; by rewrite E|].
  split; [by eapply merge_loop_consistent; [apply consistent_initial|]|].
  by apply (merge_loop_invariant R Hstep events [] initial st consistent_initial).
Qed.

(** X1.  [mergeEvents] returns exactly on the streams in which every
    opening and every closing event has a key, that is, in which no
    [String(..)] of a [sessionId] or [tool] raises. *)
Theorem mergeEvents_returns_exactly events :
  is_Some (mergeEvents events)
  ↔ Forall (λ e, (opening e = true → is_Some (open_key e))
               ∧ (closing e = true → is_Some (close_key e))) events.
Proof.
  rewrite mergeEvents_returns_iff. apply Forall_iff. intros e.
  unfold keys_computable. split.
  - intros H. apply andb_prop_elim in H as [Ho Hc]. split.
    + intros Heq. rewrite Heq in Ho. simpl in Ho. by apply bool_decide_unpack in Ho.
    + intros Heq. rewrite Heq in Hc. simpl in Hc. by apply bool_decide_unpack in Hc.
  - intros [Ho Hc]. apply andb_prop_intro. split.
    + destruct (opening e); simpl; [|done]. by apply bool_decide_pack, Ho.
    + destruct (closing e); simpl; [|done]. by apply bool_decide_pack, Hc.
Qed.

(** *** No event is lost or doubled *)

Lemma events_of_app l l' : events_of (l ++ l') = events_of l ++ events_of l'.
Proof. unfold events_of. apply bind_app. Qed.

Lemma events_of_set_response l : ∀ i x e,
  l !! i = Some x → response x = None →
  events_of (<[i := set_response e x]> l) ≡ₚ events_of l ++ [e].
Proof.
  induction l as [|y l IH]; intros i x e Hi Hx; [done|].
  destruct i as [|i]; simpl in *.
  - injection Hi as ->. unfold events_of. simpl. rewrite Hx. simpl.
    f_equiv. by rewrite <- Permutation_cons_append.
  - unfold events_of in *. simpl. rewrite (IH _ _ _ Hi Hx).
    by rewrite app_assoc.
Qed.

(** X2.  Every event of the stream is in the result exactly once, as the
    request or as the response of an entry: the events that the entries
    hold are a permutation of the input. *)
Theorem merge_keeps_every_event events :
  Forall (λ e, keys_computable e) events →
  ∃ out, mergeEvents events = Some out ∧ events_of out ≡ₚ events.
Proof.
  intros Hk.
  destruct (mergeEvents_invariant (λ done st, events_of (entries st) ≡ₚ done)
              events) as (st & _ & Hout & _ & HR); [|done|done|by exists (entries st)].
  intros done st e st' Hc HR [k idx ent Hk' Hpk Hent -> _|_ Hents _ _ _]; simpl.
  - destruct (consistent_pending _ Hc _ _ Hpk) as (x & Hx & Hr & _).
    assert (x = ent) as -> by congruence.
    by rewrite (events_of_set_response _ _ _ _ Hent Hr), HR.
  - rewrite Hents, events_of_app, HR. done.
Qed.

Lemma merge_keeps_every_event_witness :
  ∃ out, mergeEvents [prompt_1; reload; prompt_2; answer_1; answer_2] = Some out
         ∧ events_of out ≡ₚ [prompt_1; reload; prompt_2; answer_1; answer_2].
Proof.
  apply (merge_keeps_every_event [prompt_1; reload; prompt_2; answer_1; answer_2]).
  keys_exist.
Defined.

(** *** The order of the entries *)

(** X3.  The entries stand in the order in which their requests arrive:
    the requests of the result, read in order, are a subsequence of the
    input. *)
Theorem merge_keeps_request_order events :
  Forall (λ e, keys_computable e) events →
  ∃ out, mergeEvents events = Some out
         ∧ sublist (request <$> out) events.
Proof.
  intros Hk.
  destruct (mergeEvents_invariant
              (λ done st, sublist (request <$> entries st) done) events)
    as (st & _ & Hout & _ & HR); [|done|done|by exists (entries st)].
  intros done st e st' Hc HR [k idx ent Hk' Hpk Hent -> _|_ Hents _ _ _]; simpl.
  - rewrite list_fmap_insert. simpl.
    rewrite list_insert_id by (by rewrite list_lookup_fmap, Hent).
    by apply sublist_inserts_r.
  - rewrite Hents, fmap_app. simpl. by apply sublist_app.
Qed.

Lemma merge_keeps_request_order_witness :
  ∃ out, mergeEvents [answer_2; prompt_1; reload; answer_1; search_call] = Some out
         ∧ sublist (request <$> out)
             [answer_2; prompt_1; reload; answer_1; search_call].
Proof.
  apply (merge_keeps_request_order
           [answer_2; prompt_1; reload; answer_1; search_call]).
  keys_exist.
Defined.

(** X4.  In every entry, the response stands later in the stream than
    the request. *)
Theorem response_follows_request events :
  Forall (λ e, keys_computable e) events →
  ∃ out, mergeEvents events = Some out
    ∧ ∀ i x r, out !! i = Some x → response x = Some r →
        ∃ before between after,
          events = before ++ request x :: between ++ r :: after.
Proof.
  intros Hk.
  destruct (mergeEvents_invariant
              (λ done st, ∀ i x, entries st !! i = Some x →
                 ∃ before rest, done = before ++ request x :: rest
                   ∧ ∀ r, response x = Some r →
                       ∃ between after, rest = between ++ r :: after) events)
    as (st & _ & Hout & _ & HR); [|done|done|].
  - intros done st e st' Hc HR [k idx ent Hk' Hpk Hent -> _|_ Hents _ _ _]; simpl.
    + intros i x. destruct (decide (i = idx)) as [->|Hne].
      * rewrite list_lookup_insert_eq by (by eapply lookup_lt_Some).
        intros [= <-]. simpl.
        destruct (HR _ _ Hent) as (before & rest & -> & _).
        exists before, (rest ++ [e]). split; [by rewrite <- app_assoc|].
        intros r [= <-]. by exists rest, [].
      * rewrite list_lookup_insert_ne by done. intros Hx.
        destruct (HR _ _ Hx) as (before & rest & -> & Hr).
        exists before, (rest ++ [e]). split; [by rewrite <- app_assoc|].
        intros r Hxr. destruct (Hr r Hxr) as (between & after & ->).
        exists between, (after ++ [e]). by rewrite <- app_assoc.
    + intros i x. rewrite Hents. intros Hx.
      apply lookup_app_Some in Hx as [Hx|[_ Hx]].
      * destruct (HR _ _ Hx) as (before & rest & -> & Hr).
        exists before, (rest ++ [e]). split; [by rewrite <- app_assoc|].
        intros r Hxr. destruct (Hr r Hxr) as (between & after & ->).
        exists between, (after ++ [e]). by rewrite <- app_assoc.
      * apply list_lookup_singleton_Some in Hx as [_ <-]. simpl.
        exists done, []. split; [done|]. done.
  - exists (entries st). split; [done|]. intros i x r Hx Hr.
    destruct (HR _ _ Hx) as (before & rest & -> & Hrest).
    destruct (Hrest r Hr) as (between & after & ->). eauto.
Qed.

Lemma response_follows_request_witness :
  ∃ out, mergeEvents [prompt_1; reload; answer_1] = Some out
    ∧ ∀ i x r, out !! i = Some x → response x = Some r →
        ∃ before between after,
          [prompt_1; reload; answer_1] = before ++ request x :: between ++ r :: after.
Proof. apply (response_follows_request [prompt_1; reload; answer_1]). keys_exist. Defined.

(** *** Doubles *)

(** The arithmetic of doubles, read off the definitions of the library:
    how mantissas are aligned, how two doubles compare, which sign a
    rounded number has, and that integers below 2^53 are rounded to
    themselves. *)

Lemma Pos_iter_xO m d : Z.pos (Pos.iter xO m d) = Z.pos m * 2 ^ Z.pos d.
Proof.
  induction d as [|d IH] using Pos.peano_ind.
  - simpl. lia.
  - rewrite Pos.iter_succ, Pos2Z.inj_xO, IH, Pos2Z.inj_succ, Z.pow_succ_r by lia. lia.
Qed.

Lemma shl_align_fst m e e' :
  e' <= e → Z.pos (shl_align m e e').1 = Z.pos m * 2 ^ (e - e').
Proof.
  intros He. unfold shl_align.
  destruct (e' - e) as [|d|d] eqn:Hd; simpl; try lia.
  - replace (e - e') with 0 by lia. lia.
  - rewrite Pos_iter_xO. f_equal. f_equal. lia.
Qed.

Lemma digits2_pos_bounds m :
  2 ^ (Z.pos (digits2_pos m) - 1) <= Z.pos m < 2 ^ Z.pos (digits2_pos m).
Proof.
  induction m as [m IH|m IH|]; simpl digits2_pos.
  - rewrite Pos2Z.inj_succ, Z.pow_succ_r by lia.
    replace (Z.succ (Z.pos (digits2_pos m)) - 1) with (Z.succ (Z.pos (digits2_pos m) - 1)) by lia.
    rewrite Z.pow_succ_r by lia. lia.
  - rewrite Pos2Z.inj_succ, Z.pow_succ_r by lia.
    replace (Z.succ (Z.pos (digits2_pos m)) - 1) with (Z.succ (Z.pos (digits2_pos m) - 1)) by lia.
    rewrite Z.pow_succ_r by lia. lia.
  - simpl. lia.
Qed.

(** The mantissa of a double has at most 53 bits, and 53 above the least
    exponent. *)
Lemma canonical_bounds m e :
  canonical_mantissa prec emax m e = true →
  -1074 <= e ∧ Z.pos m < 2 ^ 53 ∧ (-1074 < e → 2 ^ 52 <= Z.pos m).
Proof.
  unfold canonical_mantissa, fexp, SpecFloat.emin. intros H%Z.eqb_eq.
  change (3 - emax - prec) with (-1074) in H. change prec with 53 in H.
  pose proof (digits2_pos_bounds m) as [Hlo Hhi].
  set (d := Z.pos (digits2_pos m)) in *.
  assert (0 < d) by (unfold d; lia).
  split; [lia|]. split.
  - assert (d <= 53) by lia.
    eapply Z.lt_le_trans; [exact Hhi|]. apply Z.pow_le_mono_r; lia.
  - intros He. assert (d = 53) as Hd by lia. rewrite Hd in Hlo. exact Hlo.
Qed.

Lemma aligned_value s m e ez :
  ez <= e → aligned s m e ez = (if s then -1 else 1) * Z.pos m * 2 ^ (e - ez).
Proof.
  intros He. unfold aligned. rewrite shl_align_fst by done.
  destruct s; simpl; lia.
Qed.

Lemma scaled_lt m1 e1 m2 e2 ez :
  ez <= e1 → e1 < e2 →
  canonical_mantissa prec emax m1 e1 = true →
  canonical_mantissa prec emax m2 e2 = true →
  Z.pos m1 * 2 ^ (e1 - ez) < Z.pos m2 * 2 ^ (e2 - ez).
Proof.
  intros Hez Hlt H1 H2.
  destruct (canonical_bounds _ _ H1) as (Hmin1 & Hhi1 & _).
  destruct (canonical_bounds _ _ H2) as (_ & _ & Hlo2).
  specialize (Hlo2 ltac:(lia)).
  replace (e2 - ez) with ((e2 - e1 - 1) + 1 + (e1 - ez)) by lia.
  rewrite !Z.pow_add_r by lia.
  assert (0 < 2 ^ (e1 - ez)) by (apply Z.pow_pos_nonneg; lia).
  assert (1 <= 2 ^ (e2 - e1 - 1)) by (apply (Z.pow_le_mono_r 2 0); lia).
  change (2 ^ 1) with 2. change (2 ^ 53) with (2 * 2 ^ 52) in Hhi1.
  set (a := 2 ^ (e1 - ez)) in *. set (b := 2 ^ (e2 - e1 - 1)) in *.
  apply Z.lt_le_trans with (2 * Z.pos m2 * a); [nia|].
  replace (Z.pos m2 * (b * 2 * a)) with (b * (2 * Z.pos m2 * a)) by lia.
  assert (0 < 2 * Z.pos m2 * a) by lia. nia.
Qed.

(** The order of two doubles is the order of their values. *)
Lemma compare_aligned sx mx ex sy my ey :
  canonical_mantissa prec emax mx ex = true →
  canonical_mantissa prec emax my ey = true →
  SFcompare (S754_finite sx mx ex) (S754_finite sy my ey)
  = Some (aligned sx mx ex (Z.min ey ex) ?= aligned sy my ey (Z.min ey ex)).
Proof.
  intros Hx Hy. rewrite !aligned_value by lia. unfold SFcompare.
  assert (0 < Z.pos mx * 2 ^ (ex - Z.min ey ex))
    by (apply Z.mul_pos_pos; [lia|apply Z.pow_pos_nonneg; lia]).
  assert (0 < Z.pos my * 2 ^ (ey - Z.min ey ex))
    by (apply Z.mul_pos_pos; [lia|apply Z.pow_pos_nonneg; lia]).
  f_equal. symmetry. destruct sx, sy.
  - destruct (Z.compare_spec ex ey) as [->|Hlt|Hgt].
    + rewrite Z.min_id, Z.sub_diag. change (2 ^ 0) with 1.
      rewrite Pos.compare_cont_spec.
      destruct (Pos.compare_spec mx my); cbn [Pos.switch_Eq CompOpp];
        [apply Z.compare_eq_iff|apply Z.compare_gt_iff|apply Z.compare_lt_iff]; lia.
    + apply Z.compare_gt_iff.
      pose proof (scaled_lt mx ex my ey (Z.min ey ex) ltac:(lia) ltac:(lia) Hx Hy). lia.
    + apply Z.compare_lt_iff.
      pose proof (scaled_lt my ey mx ex (Z.min ey ex) ltac:(lia) ltac:(lia) Hy Hx). lia.
  - apply Z.compare_lt_iff. lia.
  - apply Z.compare_gt_iff. lia.
  - destruct (Z.compare_spec ex ey) as [->|Hlt|Hgt].
    + rewrite Z.min_id, Z.sub_diag. change (2 ^ 0) with 1.
      rewrite Pos.compare_cont_spec.
      destruct (Pos.compare_spec mx my); cbn [Pos.switch_Eq CompOpp];
        [apply Z.compare_eq_iff|apply Z.compare_lt_iff|apply Z.compare_gt_iff]; lia.
    + apply Z.compare_lt_iff.
      pose proof (scaled_lt mx ex my ey (Z.min ey ex) ltac:(lia) ltac:(lia) Hx Hy). lia.
    + apply Z.compare_gt_iff.
      pose proof (scaled_lt my ey mx ex (Z.min ey ex) ltac:(lia) ltac:(lia) Hy Hx). lia.
Qed.

Lemma le_aligned x y sx mx ex sy my ey :
  x = S754_finite sx mx ex → y = S754_finite sy my ey →
  Number.is_double x = true → Number.is_double y = true →
  Number.le x y = true →
  aligned sx mx ex (Z.min ey ex) <= aligned sy my ey (Z.min ey ex).
Proof.
  intros -> -> Hx Hy. unfold Number.is_double in *. simpl in Hx, Hy.
  unfold bounded in Hx, Hy.
  apply andb_prop in Hx as [Hx _]. apply andb_prop in Hy as [Hy _].
  unfold Number.le, SFleb. rewrite (compare_aligned _ _ _ _ _ _ Hx Hy).
  destruct (Z.compare_spec (aligned sx mx ex (Z.min ey ex))
              (aligned sy my ey (Z.min ey ex))); [lia|lia|done].
Qed.

Lemma iter_pos_invariant {A} (P : A → Prop) (f : A → A) :
  (∀ x, P x → P (f x)) → ∀ p x, P x → P (SpecFloat.iter_pos f p x).
Proof.
  intros Hf. induction p as [p IH|p IH|]; intros x Hx; simpl; auto.
Qed.

Lemma shr_fexp_nonneg m e l :
  0 <= m → 0 <= shr_m (shr_fexp prec emax m e l).1.
Proof.
  intros Hm. unfold shr_fexp, shr.
  assert (0 <= shr_m (shr_record_of_loc m l)) as H0
    by (by destruct l as [|[]]).
  destruct (fexp prec emax (Zdigits2 m + e) - e) as [|p|p]; simpl; try done.
  apply (iter_pos_invariant (λ r, 0 <= shr_m r)); [|done].
  intros [mr r s] Hr. simpl in *. destruct mr as [|[q|q|]|q]; simpl; lia.
Qed.

(** A rounded number has the sign it is given. *)
Lemma binary_round_aux_sign sx mx ex lx :
  0 <= mx →
  match binary_round_aux prec emax sx mx ex lx with
  | S754_zero s | S754_infinity s | S754_finite s _ _ => s = sx
  | S754_nan => False
  end.
Proof.
  intros Hm. unfold binary_round_aux.
  pose proof (shr_fexp_nonneg mx ex lx Hm) as H1.
  destruct (shr_fexp prec emax mx ex lx) as [mrs' e'] eqn:E1. simpl in H1.
  assert (0 <= round_nearest_even (shr_m mrs') (loc_of_shr_record mrs')) as H2.
  { unfold round_nearest_even.
    destruct (loc_of_shr_record mrs') as [|[]]; try done; [|lia].
    destruct (Z.even (shr_m mrs')); lia. }
  pose proof (shr_fexp_nonneg _ e' loc_Exact H2) as H3.
  destruct (shr_fexp prec emax _ e' loc_Exact) as [mrs'' e''] eqn:E2. simpl in H3.
  destruct (shr_m mrs'') as [|p|p]; [done| |lia].
  by destruct (e'' <=? emax - prec).
Qed.

(** The difference of a finite double and one that is not larger is not
    negative. *)
Lemma sub_non_negative x y :
  Number.is_finite x = true → Number.is_double x = true →
  Number.is_finite y = true → Number.is_double y = true →
  Number.le x y = true →
  Number.le 0 (Number.sub y x) = true.
Proof.
  intros Hfx Hdx Hfy Hdy Hle.
  destruct x as [sx|sx| |sx mx ex], y as [sy|sy| |sy my ey]; try done.
  1-2: by destruct sx, sy; vm_compute in Hle |- *.
  pose proof (le_aligned _ _ sx mx ex sy my ey eq_refl eq_refl Hdx Hdy Hle) as Hal.
  unfold Number.sub, SF64sub, SFsub.
  fold (aligned sy my ey (Z.min ey ex)). fold (aligned sx mx ex (Z.min ey ex)).
  destruct (aligned sy my ey (Z.min ey ex) - aligned sx mx ex (Z.min ey ex))
    as [|p|p] eqn:Hd; [done| |lia].
  unfold binary_normalize, binary_round.
  destruct (shl_align p _ _) as [mz ez].
  pose proof (binary_round_aux_sign false (Z.pos mz) ez loc_Exact ltac:(lia)) as Hs.
  destruct (binary_round_aux prec emax false (Z.pos mz) ez loc_Exact)
    as [s|s| |s m e]; try done; by subst s.
Qed.

(** *** Integers below 2^53 *)

Lemma digits2_pos_iter_xO m d :
  Z.pos (digits2_pos (Pos.iter xO m d)) = Z.pos (digits2_pos m) + Z.pos d.
Proof.
  induction d as [|d IH] using Pos.peano_ind.
  - simpl. lia.
  - rewrite Pos.iter_succ. simpl digits2_pos. rewrite Pos2Z.inj_succ, IH. lia.
Qed.

Lemma shr_fexp_canonical m e :
  canonical_mantissa prec emax m e = true →
  shr_fexp prec emax (Z.pos m) e loc_Exact
  = ({| shr_m := Z.pos m; shr_r := false; shr_s := false |}, e).
Proof.
  intros Hc. unfold shr_fexp. simpl Zdigits2.
  unfold canonical_mantissa in Hc. apply Z.eqb_eq in Hc. rewrite Hc, Z.sub_diag.
  reflexivity.
Qed.

(** Rounding leaves a double as it is. *)
Lemma binary_round_aux_canonical s m e :
  canonical_mantissa prec emax m e = true → e <= 971 →
  binary_round_aux prec emax s (Z.pos m) e loc_Exact = S754_finite s m e.
Proof.
  intros Hc He. unfold binary_round_aux.
  rewrite (shr_fexp_canonical m e Hc). simpl.
  rewrite (shr_fexp_canonical m e Hc). simpl.
  change (emax - prec) with 971. by rewrite (proj2 (Z.leb_le e 971) He).
Qed.

Lemma iter_pos_swap {A} (f : A → A) p x :
  SpecFloat.iter_pos f p (f x) = f (SpecFloat.iter_pos f p x).
Proof.
  revert x. induction p as [p IH|p IH|]; intros x; simpl; [|by rewrite !IH|done].
  by rewrite !IH.
Qed.

Lemma iter_pos_succ {A} (f : A → A) p x :
  SpecFloat.iter_pos f (Pos.succ p) x = f (SpecFloat.iter_pos f p x).
Proof.
  revert x. induction p as [p IH|p IH|]; intros x; simpl.
  - rewrite !IH. by rewrite !iter_pos_swap.
  - by rewrite !iter_pos_swap.
  - done.
Qed.

(** Shifting out zeros loses nothing. *)
Lemma shr_zeros q n :
  SpecFloat.iter_pos shr_1 n
    {| shr_m := Z.pos (Pos.iter xO q n); shr_r := false; shr_s := false |}
  = {| shr_m := Z.pos q; shr_r := false; shr_s := false |}.
Proof.
  revert q. induction n as [|n IH] using Pos.peano_ind; intros q.
  - done.
  - rewrite iter_pos_succ, Pos.iter_succ_r, IH. done.
Qed.

(** An integer [m * 2^e] that fits the format is rounded to itself: with
    its mantissa shifted to the left, or its zeros shifted out. *)
Lemma binary_round_left s m e E :
  E = fexp prec emax (Z.pos (digits2_pos m) + e) → E <= e → E <= 971 →
  binary_round prec emax s m e = S754_finite s (shl_align m e E).1 E.
Proof.
  intros HE Hle Hmax. unfold binary_round. rewrite <- HE.
  assert ((shl_align m e E).2 = E) as He2.
  { unfold shl_align. destruct (E - e) as [|d|d] eqn:Hd; simpl; lia. }
  destruct (shl_align m e E) as [mz ez] eqn:Hal. simpl in He2. subst ez.
  simpl. apply binary_round_aux_canonical; [|done].
  unfold canonical_mantissa. apply Z.eqb_eq.
  assert (Z.pos (digits2_pos mz) + E = Z.pos (digits2_pos m) + e) as ->; [|done].
  apply (f_equal fst) in Hal. unfold shl_align in Hal.
  destruct (E - e) as [|d|d] eqn:Hd; simpl in Hal; subst mz.
  - lia.
  - lia.
  - rewrite digits2_pos_iter_xO. lia.
Qed.

Lemma binary_round_right s q n E e :
  E = fexp prec emax (Z.pos (digits2_pos q) + E) → E = e + Z.pos n → E <= 971 →
  binary_round prec emax s (Pos.iter xO q n) e = S754_finite s q E.
Proof.
  intros HE He Hmax. unfold binary_round.
  assert (fexp prec emax (Z.pos (digits2_pos (Pos.iter xO q n)) + e) = E) as Hf.
  { rewrite digits2_pos_iter_xO.
    replace (Z.pos (digits2_pos q) + Z.pos n + e)
      with (Z.pos (digits2_pos q) + E) by lia.
    by symmetry. }
  rewrite Hf. unfold shl_align.
  destruct (E - e) as [|d|d] eqn:Hd; try lia.
  unfold binary_round_aux.
  assert (shr_fexp prec emax (Z.pos (Pos.iter xO q n)) e loc_Exact
          = ({| shr_m := Z.pos q; shr_r := false; shr_s := false |}, E)) as Hshr.
  { unfold shr_fexp. simpl Zdigits2. rewrite Hf, Hd. unfold shr. simpl shr_record_of_loc.
    assert (d = n) as -> by lia. rewrite shr_zeros. f_equal. lia. }
  rewrite Hshr. simpl.
  assert (canonical_mantissa prec emax q E = true) as Hc
    by (unfold canonical_mantissa; apply Z.eqb_eq; by rewrite <- HE).
  rewrite (shr_fexp_canonical q E Hc). simpl.
  change (emax - prec) with 971. by rewrite (proj2 (Z.leb_le E 971) Hmax).
Qed.

(** The double of an integer below 2^53: the integer itself, its
    mantissa shifted to 53 bits. *)
Lemma fexp_small p :
  Z.pos p < 2 ^ 53 →
  fexp prec emax (Z.pos (digits2_pos p) + 0) = Z.pos (digits2_pos p) - 53
  ∧ Z.pos (digits2_pos p) - 53 <= 0.
Proof.
  intros Hp. pose proof (digits2_pos_bounds p) as [Hlo _].
  assert (Z.pos (digits2_pos p) <= 53) as Hd.
  { destruct (decide (Z.pos (digits2_pos p) <= 53)) as [|Hn]; [done|].
    assert (2 ^ 53 <= 2 ^ (Z.pos (digits2_pos p) - 1))
      by (apply Z.pow_le_mono_r; lia). lia. }
  split; [|lia]. unfold fexp, SpecFloat.emin.
  change (3 - emax - prec) with (-1074). change prec with 53. lia.
Qed.

Lemma binary_round_small s p :
  Z.pos p < 2 ^ 53 →
  binary_round prec emax s p 0
  = S754_finite s (shl_align p 0 (Z.pos (digits2_pos p) - 53)).1
      (Z.pos (digits2_pos p) - 53).
Proof.
  intros Hp. destruct (fexp_small p Hp) as [Hf Hle].
  apply binary_round_left; [done|lia|lia].
Qed.

(** The same integer in smaller units is rounded to the same double. *)
Lemma binary_round_scaled s p k :
  Z.pos p < 2 ^ 53 →
  binary_round prec emax s (Pos.iter xO p k) (- Z.pos k)
  = binary_round prec emax s p 0.
Proof.
  intros Hp. rewrite (binary_round_small s p Hp).
  destruct (fexp_small p Hp) as [Hf Hle].
  set (E := Z.pos (digits2_pos p) - 53) in *.
  assert (fexp prec emax (Z.pos (digits2_pos (Pos.iter xO p k)) + - Z.pos k) = E)
    as Hf'.
  { rewrite digits2_pos_iter_xO. rewrite <- Hf. f_equal. lia. }
  destruct (decide (E <= - Z.pos k)) as [Hc|Hc].
  - rewrite (binary_round_left s _ (- Z.pos k) E); [|done|done|lia].
    f_equal. apply Pos2Z.inj_pos.
    rewrite !shl_align_fst, Pos_iter_xO by lia.
    rewrite <- Z.mul_assoc, <- Z.pow_add_r by lia. f_equal. f_equal. lia.
  - destruct (E + Z.pos k) as [|n|n] eqn:Hn; try lia.
    assert (Pos.iter xO p k = Pos.iter xO (shl_align p 0 E).1 n) as ->.
    { apply Pos2Z.inj_pos. rewrite !Pos_iter_xO, shl_align_fst by lia.
      rewrite <- Z.mul_assoc, <- Z.pow_add_r by lia. f_equal. f_equal. lia. }
    apply binary_round_right; [|lia|lia].
    assert (Z.pos (digits2_pos (shl_align p 0 E).1) = Z.pos (digits2_pos p) - E)
      as ->.
    { unfold shl_align. destruct (E - 0) as [|d|d] eqn:Hd; simpl fst; try lia.
      rewrite digits2_pos_iter_xO. lia. }
    replace (Z.pos (digits2_pos p) - E + E) with (Z.pos (digits2_pos p) + 0) by lia.
    by rewrite Hf.
Qed.

Lemma binary_normalize_scaled z k :
  Z.abs z < 2 ^ 53 → 0 <= k →
  binary_normalize prec emax (z * 2 ^ k) (- k) false = Number.of_Z z.
Proof.
  intros Hz Hk. unfold Number.of_Z.
  destruct k as [|k|k]; [|clear Hk|lia].
  { by rewrite Z.mul_1_r. }
  destruct z as [|p|p].
  - done.
  - rewrite <- Pos_iter_xO. simpl binary_normalize. apply binary_round_scaled. lia.
  - replace (Z.neg p * 2 ^ Z.pos k) with (Z.neg (Pos.iter xO p k))
      by (rewrite <- Pos2Z.opp_pos, Pos_iter_xO; lia).
    simpl binary_normalize. apply binary_round_scaled. lia.
Qed.

(** The double of an integer below 2^53 in units of a power of two. *)
Lemma of_Z_aligned z s m e ez :
  Z.abs z < 2 ^ 53 → Number.of_Z z = S754_finite s m e → ez <= e →
  e <= 0 ∧ aligned s m e ez = z * 2 ^ (- ez).
Proof.
  intros Hz Hof Hez. unfold Number.of_Z in Hof.
  destruct z as [|p|p]; [done| |]; simpl binary_normalize in Hof;
    rewrite binary_round_small in Hof by lia;
    injection Hof as <- <- <-;
    destruct (fexp_small p ltac:(lia)) as [_ Hle];
    (split; [done|]);
    rewrite aligned_value by done;
    rewrite shl_align_fst by lia;
    set (E := Z.pos (digits2_pos p) - 53) in *;
    replace (- ez) with ((0 - E) + (E - ez)) by lia;
    rewrite Z.pow_add_r by lia; lia.
Qed.

(** On integers below 2^53 whose difference is below 2^53, as epoch
    milliseconds are, the subtraction is exact. *)
Lemma sub_integers a b :
  Z.abs a < 2 ^ 53 → Z.abs b < 2 ^ 53 → Z.abs (b - a) < 2 ^ 53 →
  Number.sub (Number.of_Z b) (Number.of_Z a) = Number.of_Z (b - a).
Proof.
  intros Ha Hb Hd.
  destruct (Number.of_Z a) as [sa|sa| |sa ma ea] eqn:Ea,
           (Number.of_Z b) as [sb|sb| |sb mb eb] eqn:Eb.
  all: try (exfalso; revert Ea; unfold Number.of_Z;
            destruct a as [|p|p]; simpl binary_normalize;
            rewrite ?binary_round_small by lia; done).
  all: try (exfalso; revert Eb; unfold Number.of_Z;
            destruct b as [|p|p]; simpl binary_normalize;
            rewrite ?binary_round_small by lia; done).
  - assert (a = 0) as ->.
    { destruct a as [|p|p]; [done| |]; exfalso; revert Ea; unfold Number.of_Z;
        simpl binary_normalize; rewrite binary_round_small by lia; done. }
    assert (b = 0) as ->.
    { destruct b as [|p|p]; [done| |]; exfalso; revert Eb; unfold Number.of_Z;
        simpl binary_normalize; rewrite binary_round_small by lia; done. }
    injection Ea as <-. injection Eb as <-. done.
  - assert (a = 0) as ->.
    { destruct a as [|p|p]; [done| |]; exfalso; revert Ea; unfold Number.of_Z;
        simpl binary_normalize; rewrite binary_round_small by lia; done. }
    by rewrite Z.sub_0_r, Eb.
  - assert (b = 0) as ->.
    { destruct b as [|p|p]; [done| |]; exfalso; revert Eb; unfold Number.of_Z;
        simpl binary_normalize; rewrite binary_round_small by lia; done. }
    simpl Number.sub. unfold Number.of_Z in Ea |- *.
    destruct a as [|p|p]; [done| |]; simpl binary_normalize in *;
      rewrite binary_round_small in Ea |- * by lia;
      injection Ea as <- <- <-; done.
  - unfold Number.sub, SF64sub, SFsub.
    fold (aligned sb mb eb (Z.min eb ea)). fold (aligned sa ma ea (Z.min eb ea)).
    destruct (of_Z_aligned a sa ma ea (Z.min eb ea) Ha Ea ltac:(lia)) as [Hea ->].
    destruct (of_Z_aligned b sb mb eb (Z.min eb ea) Hb Eb ltac:(lia)) as [Heb ->].
    rewrite <- Z.mul_sub_distr_r.
    pose proof (binary_normalize_scaled (b - a) (- Z.min eb ea) Hd ltac:(lia)) as H.
    by rewrite Z.opp_involutive in H.
Qed.

Lemma of_Z_canonical z s m e :
  Z.abs z < 2 ^ 53 → Number.of_Z z = S754_finite s m e →
  canonical_mantissa prec emax m e = true ∧ s = bool_decide (z < 0).
Proof.
  intros Hz Hof. unfold Number.of_Z in Hof.
  destruct z as [|p|p]; [done| |]; simpl binary_normalize in Hof;
    rewrite binary_round_small in Hof by lia;
    injection Hof as <- <- <-;
    destruct (fexp_small p ltac:(lia)) as [Hf Hle];
    (split; [|done]);
    unfold canonical_mantissa; apply Z.eqb_eq;
    (assert (Z.pos (digits2_pos (shl_align p 0 (Z.pos (digits2_pos p) - 53)).1)
             + (Z.pos (digits2_pos p) - 53) = Z.pos (digits2_pos p) + 0) as ->;
     [|done]);
    unfold shl_align;
    (destruct (Z.pos (digits2_pos p) - 53 - 0) as [|d|d] eqn:Hd; simpl fst;
     [lia|lia|rewrite digits2_pos_iter_xO; lia]).
Qed.

(** On integers below 2^53 the comparison of doubles is that of the
    integers. *)
Lemma lt_integers a b :
  Z.abs a < 2 ^ 53 → Z.abs b < 2 ^ 53 →
  Number.lt (Number.of_Z a) (Number.of_Z b) = bool_decide (a < b).
Proof.
  intros Ha Hb. unfold Number.lt, SFltb.
  destruct (Number.of_Z a) as [sa|sa| |sa ma ea] eqn:Ea,
           (Number.of_Z b) as [sb|sb| |sb mb eb] eqn:Eb.
  all: try (exfalso; revert Ea; unfold Number.of_Z;
            destruct a as [|p|p]; simpl binary_normalize;
            rewrite ?binary_round_small by lia; done).
  all: try (exfalso; revert Eb; unfold Number.of_Z;
            destruct b as [|p|p]; simpl binary_normalize;
            rewrite ?binary_round_small by lia; done).
  all: assert (∀ z s, Z.abs z < 2 ^ 53 → Number.of_Z z = S754_zero s → z = 0)
    as Hzero by (intros [|p|p] s Hz; unfold Number.of_Z; simpl binary_normalize;
                 rewrite ?binary_round_small by lia; done).
  - rewrite (Hzero a sa Ha Ea), (Hzero b sb Hb Eb). done.
  - rewrite (Hzero a sa Ha Ea).
    assert (b ≠ 0) by (by intros ->).
    destruct (of_Z_canonical b sb mb eb Hb Eb) as [_ ->]. simpl.
    repeat case_bool_decide; try done; lia.
  - rewrite (Hzero b sb Hb Eb).
    assert (a ≠ 0) by (by intros ->).
    destruct (of_Z_canonical a sa ma ea Ha Ea) as [_ ->]. simpl.
    repeat case_bool_decide; try done; lia.
  - destruct (of_Z_canonical a sa ma ea Ha Ea) as [Hca _].
    destruct (of_Z_canonical b sb mb eb Hb Eb) as [Hcb _].
    rewrite (compare_aligned _ _ _ _ _ _ Hca Hcb).
    destruct (of_Z_aligned a sa ma ea (Z.min eb ea) Ha Ea ltac:(lia)) as [Hea ->].
    destruct (of_Z_aligned b sb mb eb (Z.min eb ea) Hb Eb ltac:(lia)) as [Heb ->].
    assert (0 < 2 ^ (- Z.min eb ea)) by (apply Z.pow_pos_nonneg; lia).
    destruct (Z.compare_spec (a * 2 ^ (- Z.min eb ea)) (b * 2 ^ (- Z.min eb ea)));
      case_bool_decide; try done; nia.
Qed.

(** *** Durations *)

(** [toFixed(2)] prints the nearest hundredths, with two decimals. *)
Lemma toFixed_2_text m e :
  0 < m →
  ∃ n, toFixed 2 {| mant := m; expo := e |}
       = Number_toString (n / 100) ++ js "."
         ++ pad_zeros 2 (Number_toString (n mod 100))
    ∧ length (pad_zeros 2 (Number_toString (n mod 100))) = 2%nat
    ∧ 0 <= n
    ∧ Z.abs (2 * (n * 2 ^ Z.max 0 (- e) - 100 * m * 2 ^ Z.max 0 e))
      <= 2 ^ Z.max 0 (- e).
Proof.
  intros Hm. unfold toFixed. cbn [mant expo]. change (10 ^ Z.of_nat 2) with 100.
  set (n := if decide (0 <= e) then m * 100 * 2 ^ e
            else (2 * (m * 100) + 2 ^ (- e)) / 2 ^ (1 - e)).
  exists n. split; [done|].
  split; [apply two_digits; apply Z.mod_pos_bound; lia|].
  unfold n. destruct (decide (0 <= e)) as [He|He].
  - rewrite (Z.max_l 0 (- e)), (Z.max_r 0 e) by lia. change (2 ^ 0) with 1.
    assert (0 < 2 ^ e) by (apply Z.pow_pos_nonneg; lia). split; [nia|lia].
  - rewrite (Z.max_r 0 (- e)), (Z.max_l 0 e) by lia. change (2 ^ 0) with 1.
    replace (2 ^ (1 - e)) with (2 * 2 ^ (- e))
      by (rewrite <- Z.pow_succ_r by lia; f_equal; lia).
    assert (0 < 2 ^ (- e)) by (apply Z.pow_pos_nonneg; lia).
    set (E := 2 ^ (- e)) in *.
    pose proof (Z.div_mod (2 * (m * 100) + E) (2 * E) ltac:(lia)) as Hdiv.
    pose proof (Z.mod_pos_bound (2 * (m * 100) + E) (2 * E) ltac:(lia)) as Hmod.
    set (q := (2 * (m * 100) + E) / (2 * E)) in *. split; nia.
Qed.

(** The text of an integer of up to three digits is its decimal text. *)
Lemma toString_small z :
  -1000 < z < 1000 → Number.toString (Number.of_Z z) = Number_toString z.
Proof.
  intros Hz.
  assert (forallb (λ n, bool_decide
                          (Number.toString (Number.of_Z (Z.of_nat n - 999))
                           = Number_toString (Z.of_nat n - 999)))
            (seq 0 1999) = true) as H by (by vm_compute).
  rewrite forallb_forall in H. specialize (H (Z.to_nat (z + 999))).
  replace (Z.of_nat (Z.to_nat (z + 999)) - 999) with z in H by lia.
  apply bool_decide_eq_true in H; [done|]. apply in_seq. lia.
Qed.

(** A quotient by 1000 that is printed in seconds is not negative. *)
Lemma seconds_sign ms s m e :
  Number.lt ms 1000 = false →
  Number.div ms 1000 = S754_finite s m e →
  s = false.
Proof.
  assert (∃ m1 e1, Number.of_Z 1000 = S754_finite false m1 e1)
    as (m1 & e1 & ->) by (by eexists _, _).
  intros Hlt Hdiv. destruct ms as [s0|s0| |sx mx ex]; try done.
  destruct sx; [done|].
  unfold Number.div, SF64div, SFdiv in Hdiv.
  destruct (SFdiv_core_binary prec emax (Z.pos mx) ex (Z.pos m1) e1)
    as [[mz ez] lz] eqn:Hcore.
  assert (0 <= mz) as Hmz.
  { unfold SFdiv_core_binary in Hcore.
    set (m' := match _ - _ - _ with Z.pos _ => _ | _ => _ end) in Hcore.
    assert (0 <= m') as Hm'.
    { unfold m'. destruct (_ - _ - _) as [|p|p]; try lia.
      rewrite Z.shiftl_mul_pow2 by lia.
      apply Z.mul_nonneg_nonneg; [lia|apply Z.pow_nonneg; lia]. }
    pose proof (Z.div_eucl_eq m' (Z.pos m1) ltac:(lia)) as Heq.
    pose proof (Z.mod_pos_bound m' (Z.pos m1) ltac:(lia)) as Hmod.
    unfold Z.modulo in Hmod.
    destruct (Z.div_eucl m' (Z.pos m1)) as [q r]. injection Hcore as <- _ _.
    nia. }
  pose proof (binary_round_aux_sign (xorb false false) mz ez lz Hmz) as Hs.
  rewrite Hdiv in Hs. done.
Qed.

(** In the result of a merge, the response of an entry stands later in
    the stream than its request. *)
Lemma response_later events :
  Forall (λ e, keys_computable e) events →
  ∃ out, mergeEvents events = Some out
    ∧ ∀ i x r, out !! i = Some x → response x = Some r →
        ∃ before between after,
          events = before ++ request x :: between ++ r :: after.
Proof.
  intros Hk.
  destruct (mergeEvents_invariant
              (λ done st, ∀ i x, entries st !! i = Some x →
                 ∃ before rest, done = before ++ request x :: rest
                   ∧ ∀ r, response x = Some r →
                       ∃ between after, rest = between ++ r :: after) events)
    as (st & _ & Hout & _ & HR); [|done|done|].
  - intros done st e st' Hc HR [k idx ent Hk' Hpk Hent -> _|_ Hents _ _ _]; simpl.
    + intros i x. destruct (decide (i = idx)) as [->|Hne].
      * rewrite list_lookup_insert_eq by (by eapply lookup_lt_Some).
        intros [= <-]. simpl.
        destruct (HR _ _ Hent) as (before & rest & -> & _).
        exists before, (rest ++ [e]). split; [by rewrite <- app_assoc|].
        intros r [= <-]. by exists rest, [].
      * rewrite list_lookup_insert_ne by done. intros Hx.
        destruct (HR _ _ Hx) as (before & rest & -> & Hr).
        exists before, (rest ++ [e]). split; [by rewrite <- app_assoc|].
        intros r Hxr. destruct (Hr r Hxr) as (between & after & ->).
        exists between, (after ++ [e]). by rewrite <- app_assoc.
    + intros i x. rewrite Hents. intros Hx.
      apply lookup_app_Some in Hx as [Hx|[_ Hx]].
      * destruct (HR _ _ Hx) as (before & rest & -> & Hr).
        exists before, (rest ++ [e]). split; [by rewrite <- app_assoc|].
        intros r Hxr. destruct (Hr r Hxr) as (between & after & ->).
        exists between, (after ++ [e]). by rewrite <- app_assoc.
      * apply list_lookup_singleton_Some in Hx as [_ <-]. simpl.
        exists done, []. split; [done|]. done.
  - exists (entries st). split; [done|]. intros i x r Hx Hr.
    destruct (HR _ _ Hx) as (before & rest & -> & Hrest).
    destruct (Hrest r Hr) as (between & after & ->). eauto.
Qed.

(** In a time-ordered stream, the timestamp of an event is not larger
    than that of an event that stands later. *)
Lemma time_ordered_pair before o between r after start end_ :
  time_ordered (before ++ o :: between ++ r :: after) →
  is_number (ts o) = Some start → is_number (ts r) = Some end_ →
  Number.is_finite start = true ∧ Number.is_double start = true
  ∧ Number.is_finite end_ = true ∧ Number.is_double end_ = true
  ∧ Number.le start end_ = true.
Proof.
  intros [Hall Hsorted] Ho Hr. unfold instants in *.
  rewrite omap_app in Hall, Hsorted. simpl in Hall, Hsorted.
  rewrite Ho, omap_app in Hall, Hsorted. simpl in Hall, Hsorted.
  rewrite Hr in Hall, Hsorted.
  apply Forall_app in Hall as [_ Hall].
  apply Forall_cons in Hall as [[? ?] Hall].
  apply Forall_app in Hall as [_ Hall].
  apply Forall_cons in Hall as [[? ?] _].
  apply StronglySorted_app_1_r in Hsorted.
  apply StronglySorted_cons in Hsorted as [Hfirst _].
  apply Forall_app in Hfirst as [_ Hfirst].
  apply Forall_cons in Hfirst as [? _]. done.
Qed.

(** C5, amended.  [getEntryDuration] is [null] without a response and
    when a timestamp is not a number.  Otherwise it subtracts the
    request timestamp from the response timestamp, as doubles, and
    prints the difference with [ms] when it is below 1000, and else the
    difference divided by 1000 with [toFixed(2)] and [s]: that is seconds
    with two decimals, rounded to the nearest hundredth, when the
    quotient is finite and below 10^21.  On timestamps that are integers
    below 2^53 with a difference below 2^53, the difference is exact,
    and printed in its decimal digits when it has up to three.
    The duration is not negative when the response timestamp is not the
    smaller one, and so in every entry that [mergeEvents] returns for a
    time-ordered stream. *)
Theorem getEntryDuration_cases :
  (∀ e, response e = None → getEntryDuration e = None)
  ∧ (∀ e r, response e = Some r →
       is_number (ts (request e)) = None ∨ is_number (ts r) = None →
       getEntryDuration e = None)
  ∧ (∀ e r start end_,
       response e = Some r →
       ts (request e) = VNumber start → ts r = VNumber end_ →
       (Number.lt (Number.sub end_ start) 1000 = true →
        getEntryDuration e
        = Some (Number.toString (Number.sub end_ start) ++ js " ms"))
       ∧ (Number.lt (Number.sub end_ start) 1000 = false →
          getEntryDuration e
          = Some (Number.toFixed 2 (Number.div (Number.sub end_ start) 1000)
                  ++ js " s")
          ∧ (Number.magnitude_below
               (Number.div (Number.sub end_ start) 1000) (10 ^ 21) = true →
             ∃ n, getEntryDuration e
                  = Some (Number_toString (n / 100) ++ js "."
                          ++ pad_zeros 2 (Number_toString (n mod 100)) ++ js " s")
               ∧ length (pad_zeros 2 (Number_toString (n mod 100))) = 2%nat
               ∧ nearest_hundredths (Number.div (Number.sub end_ start) 1000) n))
       ∧ (∀ a b : Z,
            start = Number.of_Z a → end_ = Number.of_Z b →
            Z.abs a < 2 ^ 53 → Z.abs b < 2 ^ 53 → Z.abs (b - a) < 2 ^ 53 →
            Number.sub end_ start = Number.of_Z (b - a)
            ∧ (b - a < 1000 →
               getEntryDuration e
               = Some (Number.toString (Number.of_Z (b - a)) ++ js " ms"))
            ∧ (-1000 < b - a < 1000 →
               getEntryDuration e = Some (Number_toString (b - a) ++ js " ms"))
            ∧ (1000 <= b - a →
               getEntryDuration e
               = Some (Number.toFixed 2 (Number.div (Number.of_Z (b - a)) 1000)
                       ++ js " s")))
       ∧ (Number.is_finite start = true → Number.is_double start = true →
          Number.is_finite end_ = true → Number.is_double end_ = true →
          Number.le start end_ = true →
          Number.le 0 (Number.sub end_ start) = true))
  ∧ (∀ events,
       time_ordered events →
       Forall (λ e, keys_computable e) events →
       ∃ out, mergeEvents events = Some out
         ∧ ∀ i e r start end_,
             out !! i = Some e → response e = Some r →
             ts (request e) = VNumber start → ts r = VNumber end_ →
             Number.le 0 (Number.sub end_ start) = true).
Proof.
  split; [by intros e; unfold getEntryDuration; intros ->|].
  split.
  { intros e r Hr [H|H]; unfold getEntryDuration; rewrite Hr, H; [done|].
    by destruct (is_number (ts (request e))). }
  split.
  - intros e r start end_ Hr Hs He. unfold getEntryDuration.
    rewrite Hr, Hs, He. cbn [is_number]. split; [by intros ->|].
    split; [|split].
    + intros Hlt. rewrite Hlt. split; [done|]. intros Hmag.
      destruct (Number.div (Number.sub end_ start) 1000) as [s|s| |s m e'] eqn:Hq;
        try done.
      * exists 0. by vm_compute.
      * assert (s = false) as -> by (by eapply seconds_sign).
        unfold Number.toFixed. rewrite Hmag. cbn [app].
        destruct (toFixed_2_text (Z.pos m) e' ltac:(lia)) as (n & -> & Hlen & Hn).
        exists n. by rewrite <- !app_assoc.
    + intros a b -> -> Ha Hb Hd.
      rewrite (sub_integers a b Ha Hb Hd).
      rewrite (lt_integers (b - a) 1000 Hd ltac:(lia)).
      split; [done|]. split; [|split]; intros Hc.
      * by rewrite bool_decide_eq_true_2.
      * by rewrite bool_decide_eq_true_2, toString_small by lia.
      * by rewrite bool_decide_eq_false_2 by lia.
    + apply sub_non_negative.
  - intros events Hord Hk.
    destruct (response_later events Hk) as (out & Hout & Hlater).
    exists out. split; [done|]. intros i e r start end_ Hx Hr Hs He.
    destruct (Hlater i e r Hx Hr) as (before & between & after & Hev).
    rewrite Hev in Hord.
    destruct (time_ordered_pair before (request e) between r after start end_ Hord)
      as (? & ? & ? & ? & ?); [by rewrite Hs|by rewrite He|].
    by apply sub_non_negative.
Qed.

Lemma getEntryDuration_cases_witness :
  getEntryDuration {| id := 0; request := prompt_1; response := Some answer_1 |}
  = Some (Number_toString (150 - 100) ++ js " ms")
  ∧ (∃ n, getEntryDuration
            {| id := 0; request := prompt_1; response := Some slow_answer |}
          = Some (Number_toString (n / 100) ++ js "."
                  ++ pad_zeros 2 (Number_toString (n mod 100)) ++ js " s")
       ∧ length (pad_zeros 2 (Number_toString (n mod 100))) = 2%nat
       ∧ nearest_hundredths
           (Number.div (Number.sub (Number.of_Z 1105) (Number.of_Z 100)) 1000) n)
  ∧ (∃ out, mergeEvents [prompt_1; prompt_2; answer_1; reload; answer_2] = Some out
       ∧ ∀ i e r start end_,
           out !! i = Some e → response e = Some r →
           ts (request e) = VNumber start → ts r = VNumber end_ →
           Number.le 0 (Number.sub end_ start) = true).
Proof.
  destruct getEntryDuration_cases as (_ & _ & Hentry & Hstream).
  split; [|split].
  - destruct (Hentry {| id := 0; request := prompt_1; response := Some answer_1 |}
                answer_1 100 150 eq_refl eq_refl eq_refl) as (_ & _ & Hint & _).
    destruct (Hint 100 150 eq_refl eq_refl ltac:(lia) ltac:(lia) ltac:(lia))
      as (_ & _ & Hms & _).
    apply Hms. lia.
  - destruct (Hentry {| id := 0; request := prompt_1; response := Some slow_answer |}
                slow_answer 100 1105 eq_refl eq_refl eq_refl) as (_ & Hs & _).
    destruct (Hs ltac:(by vm_compute)) as [_ Hn]. apply Hn. by vm_compute.
  - apply (Hstream [prompt_1; prompt_2; answer_1; reload; answer_2]); [|keys_exist].
    unfold time_ordered.
    change (instants [prompt_1; prompt_2; answer_1; reload; answer_2])
      with [Number.of_Z 100; Number.of_Z 120; Number.of_Z 150; Number.of_Z 160;
            Number.of_Z 170].
    split.
    + repeat (constructor; [by vm_compute|]). constructor.
    + repeat match goal with
             | |- StronglySorted _ _ => constructor
             | |- Forall _ [] => constructor
             | |- Forall _ (_ :: _) => constructor; [by vm_compute|]
             end.
Defined.

(** The scenario of the specification; a quotient that the division of
    doubles rounds below the half; timestamps that are fractions; and an
    answer stamped before its prompt, in a stream that is not
    time-ordered. *)
Example getEntryDuration_examples :
  getEntryDuration {| id := 0; request := prompt_1; response := Some answer_1 |}
  = Some (js "50 ms")
  ∧ getEntryDuration {| id := 0; request := prompt_1; response := Some slow_answer |}
    = Some (js "1.00 s")
  ∧ getEntryDuration {| id := 0; request := half_prompt;
                        response := Some fraction_answer |}
    = Some (js "0.7 ms")
  ∧ getEntryDuration {| id := 0; request := prompt_1; response := None |} = None
  ∧ getEntryDuration {| id := 0; request := reload;
                        response := Some (ev "X" (VString (js "150")) []) |} = None
  ∧ mergeEvents [late_prompt; early_answer]
    = Some [ {| id := 0; request := late_prompt; response := Some early_answer |} ]
  ∧ getEntryDuration
      {| id := 0; request := late_prompt; response := Some early_answer |}
    = Some (js "-50 ms").
Proof. by vm_compute. Qed.

(** C5 as stated fails in its formatting: the stream is time-ordered,
    both timestamps are numbers, the second 10^24 milliseconds after the
    first, and the duration is printed with an exponent, not as seconds
    with two decimals. *)
Lemma getEntryDuration_exponent_text :
  ts epoch_prompt = VNumber 0
  ∧ ts far_answer = VNumber (10 ^ 24)
  ∧ time_ordered [epoch_prompt; far_answer]
  ∧ mergeEvents [epoch_prompt; far_answer]
    = Some [ {| id := 0; request := epoch_prompt; response := Some far_answer |} ]
  ∧ getEntryDuration
      {| id := 0; request := epoch_prompt; response := Some far_answer |}
    = Some (js "1e+21 s").
Proof.
  split; [done|]. split; [done|]. split; [|by vm_compute].
  unfold time_ordered.
  change (instants [epoch_prompt; far_answer])
    with [Number.of_Z 0; Number.of_Z (10 ^ 24)].
  split.
  - repeat (constructor; [by vm_compute|]). constructor.
  - repeat match goal with
           | |- StronglySorted _ _ => constructor
           | |- Forall _ [] => constructor
           | |- Forall _ (_ :: _) => constructor; [by vm_compute|]
           end.
Qed.

(** Nor is a duration seconds with two decimals when a timestamp is NaN
    or an infinity, which are numbers to [typeof]. *)
Example getEntryDuration_not_finite :
  getEntryDuration {| id := 0; request := prompt_1; response := Some nan_answer |}
  = Some (js "NaN s")
  ∧ getEntryDuration {| id := 0; request := prompt_1; response := Some never_answer |}
    = Some (js "Infinity s").
Proof. by vm_compute. Qed.

(** *** What a response is *)

(** The key of a response is the key its entry was pending under. *)
Lemma merged_pairs_keyed events :
  Forall (λ e, keys_computable e) events →
  ∃ st, merge_loop initial events = Some st
    ∧ mergeEvents events = Some (entries st)
    ∧ ∀ i x r, entries st !! i = Some x → response x = Some r →
        ∃ k, open_key (request x) = Some k ∧ close_key r = Some k.
Proof.
  intros Hk.
  destruct (mergeEvents_invariant
              (λ _ st, ∀ i x r, entries st !! i = Some x → response x = Some r →
                 ∃ k, open_key (request x) = Some k ∧ close_key r = Some k) events)
    as (st & E & Hout & _ & HR); [|done|done|by exists st].
  intros _ st e st' Hc HR [k idx ent Hk' Hpk Hent -> _|_ Hents _ _ _]; simpl.
  - intros i x r. destruct (decide (i = idx)) as [->|Hne].
    + rewrite list_lookup_insert_eq by (by eapply lookup_lt_Some).
      intros [= <-] [= <-]. simpl.
      destruct (consistent_pending _ Hc _ _ Hpk) as (y & Hy & _ & Ho).
      assert (y = ent) as -> by congruence. eauto.
    + rewrite list_lookup_insert_ne by done. apply HR.
  - intros i x r. rewrite Hents. intros Hx.
    apply lookup_app_Some in Hx as [Hx|[_ Hx]]; [by eapply HR|].
    apply list_lookup_singleton_Some in Hx as [_ <-]. done.
Qed.

(** X5.  In every entry that has a response, the request is an opening
    event, the response is a closing event, and the key of the one is
    the key of the other. *)
Theorem paired_events_share_key events :
  Forall (λ e, keys_computable e) events →
  ∃ out, mergeEvents events = Some out
    ∧ ∀ i x r, out !! i = Some x → response x = Some r →
        opening (request x) = true ∧ closing r = true
        ∧ ∃ k, open_key (request x) = Some k ∧ close_key r = Some k.
Proof.
  intros Hk. destruct (merged_pairs_keyed events Hk) as (st & _ & Hout & HR).
  exists (entries st). split; [done|]. intros i x r Hx Hr.
  destruct (HR _ _ _ Hx Hr) as (k & Ho & Hc).
  split; [by eapply open_key_opening|]. split; [by eapply close_key_closing|].
  eauto.
Qed.

Lemma paired_events_share_key_witness :
  ∃ out, mergeEvents [search_call; fetch_call; fetch_result; search_result] = Some out
    ∧ ∀ i x r, out !! i = Some x → response x = Some r →
        opening (request x) = true ∧ closing r = true
        ∧ ∃ k, open_key (request x) = Some k ∧ close_key r = Some k.
Proof.
  apply (paired_events_share_key
           [search_call; fetch_call; fetch_result; search_result]).
  keys_exist.
Defined.

(** *** Streams that grow *)

Lemma continues_refl x : continues x x.
Proof. by repeat split. Qed.

Lemma continues_trans x y z : continues x y → continues y z → continues x z.
Proof.
  intros (Hi & Hr & Hs) (Hi' & Hr' & Hs'). repeat split; [congruence..|].
  intros r Hx. by apply Hs', Hs.
Qed.

(** The entries of a state are continued in every later state. *)
Lemma merge_loop_continues events st0 st :
  consistent st0 → merge_loop st0 events = Some st →
  ∀ i x, entries st0 !! i = Some x →
         ∃ x', entries st !! i = Some x' ∧ continues x x'.
Proof.
  intros Hc0 E.
  apply (merge_loop_invariant
           (λ _ st', ∀ i x, entries st0 !! i = Some x →
                            ∃ x', entries st' !! i = Some x' ∧ continues x x'))
    with (events := events) (done := []) (st := st0); try done.
  - intros _ st1 e st2 Hc HR [k idx ent Hk' Hpk Hent -> _|_ Hents _ _ _]; simpl;
      intros i x Hx; destruct (HR _ _ Hx) as (y & Hy & Hxy).
    + destruct (decide (i = idx)) as [->|Hne].
      * rewrite list_lookup_insert_eq by (by eapply lookup_lt_Some).
        destruct (consistent_pending _ Hc _ _ Hpk) as (z & Hz & Hnone & _).
        assert (z = ent) as -> by congruence.
        assert (y = ent) as -> by congruence.
        eexists. split; [done|]. eapply continues_trans; [exact Hxy|].
        repeat split; simpl. congruence.
      * rewrite list_lookup_insert_ne by done. eauto.
    + rewrite Hents. exists y. split; [by apply lookup_app_l_Some|done].
  - intros i x Hx. exists x. split; [done|apply continues_refl].
Qed.

(** X6.  When events are added to a stream, the entries made so far keep
    their index, their id, their request and the response they have:
    only new entries and missing responses are added. *)
Theorem merge_of_longer_stream pre post :
  Forall (λ e, keys_computable e) (pre ++ post) →
  ∃ out_pre out,
    mergeEvents pre = Some out_pre
    ∧ mergeEvents (pre ++ post) = Some out
    ∧ (length out_pre <= length out)%nat
    ∧ ∀ i x, out_pre !! i = Some x →
        ∃ x', out !! i = Some x' ∧ continues x x'.
Proof.
  intros Hk. apply Forall_app in Hk as Hk'. destruct Hk' as [Hpre Hpost].
  destruct (merge_loop_returns pre initial consistent_initial Hpre) as [st0 E0].
  pose proof (merge_loop_consistent _ _ _ consistent_initial E0) as Hc0.
  destruct (merge_loop_returns post st0 Hc0 Hpost) as [st E].
  exists (entries st0), (entries st). unfold mergeEvents.
  rewrite merge_loop_app, E0. simpl. rewrite E. split; [done|]. split; [done|].
  pose proof (merge_loop_continues post st0 st Hc0 E) as Hcont.
  split; [|done].
  destruct (decide (length (entries st0) <= length (entries st))%nat) as [?|Hgt];
    [done|].
  destruct (entries st0 !! length (entries st)) as [x|] eqn:Hx.
  - destruct (Hcont _ _ Hx) as (x' & Hx' & _).
    apply lookup_lt_Some in Hx'. lia.
  - apply lookup_ge_None in Hx. lia.
Qed.

Lemma merge_of_longer_stream_witness :
  ∃ out_pre out,
    mergeEvents [prompt_1; reload] = Some out_pre
    ∧ mergeEvents ([prompt_1; reload] ++ [answer_1; search_call]) = Some out
    ∧ (length out_pre <= length out)%nat
    ∧ ∀ i x, out_pre !! i = Some x →
        ∃ x', out !! i = Some x' ∧ continues x x'.
Proof.
  apply (merge_of_longer_stream [prompt_1; reload] [answer_1; search_call]).
  keys_exist.
Defined.

(** *** Events that stand alone *)

Lemma merge_loop_without_openings events : ∀ st,
  pending st = ∅ →
  Forall (λ e, opening e = false) events →
  Forall (λ e, keys_computable e) events →
  merge_loop st events
  = Some {| entries := entries st ++ imap (λ i, standalone (nextId st + i)) events;
            pending := ∅;
            nextId := nextId st + length events |}.
Proof.
  induction events as [|e events IH]; intros st Hp Ho Hk.
  - simpl. rewrite app_nil_r, Nat.add_0_r, <- Hp. by destruct st.
  - apply Forall_cons in Ho as [Ho Hos]. apply Forall_cons in Hk as [Hk Hks].
    assert (absorb st e = Some None) as Hab.
    { rewrite absorb_unfold. destruct (closing e) eqn:Hc; [|done].
      unfold keys_computable in Hk. rewrite Hc, Ho in Hk. simpl in Hk.
      apply bool_decide_unpack in Hk as [k ->]. simpl.
      by rewrite Hp, lookup_empty. }
    cbn [merge_loop]. unfold merge_step. rewrite Hab. cbn [mbind option_bind].
    rewrite create_unfold, Ho. cbn [mbind option_bind].
    rewrite IH by done. cbn [entries pending nextId length].
    f_equal. f_equal; [|lia].
    rewrite <- app_assoc. f_equal. cbn [imap app]. rewrite Nat.add_0_r.
    f_equal. apply imap_ext. intros i x _. simpl. f_equal. lia.
Qed.

(** X7.  A stream without opening events merges into one entry per
    event, in order and without responses: closing events that find
    nothing pending stand alone like every other event. *)
Theorem merge_without_openings events :
  Forall (λ e, opening e = false) events →
  Forall (λ e, keys_computable e) events →
  mergeEvents events = Some (imap standalone events).
Proof.
  intros Ho Hk. unfold mergeEvents.
  by rewrite (merge_loop_without_openings events initial eq_refl Ho Hk).
Qed.

Lemma merge_without_openings_witness :
  mergeEvents [answer_1; reload; search_result; answer_1]
  = Some (imap standalone [answer_1; reload; search_result; answer_1]).
Proof.
  apply (merge_without_openings [answer_1; reload; search_result; answer_1]).
  - repeat (constructor; [by vm_compute|]); by constructor.
  - keys_exist.
Defined.

(** X8.  An event that opens nothing and is not absorbed makes an entry
    that never gets a response, whatever follows; its status is the
    status of the event itself. *)
Theorem standalone_event_stays_alone pre e post :
  Forall (λ e, keys_computable e) (pre ++ e :: post) →
  opening e = false →
  absorbed pre e = false →
  ∃ out, mergeEvents (pre ++ e :: post) = Some out
    ∧ out !! entry_index pre = Some (standalone (entry_index pre) e)
    ∧ getEntryStatus (standalone (entry_index pre) e) = getEventStatus e.
Proof.
  intros Hk Ho Hab.
  destruct (mergeEvents_returns _ Hk) as [out Hout]. exists out.
  split; [done|]. split.
  - unfold mergeEvents in Hout.
    destruct (merge_loop initial (pre ++ e :: post)) as [st|] eqn:E; [|done].
    injection Hout as <-.
    apply merge_loop_app_Some in E as (st0 & E0 & E).
    apply merge_loop_cons_Some in E as (st1 & E1 & E2).
    pose proof (merge_loop_consistent _ _ _ consistent_initial E0) as Hc0.
    rewrite (entry_index_length _ _ E0).
    unfold absorbed in Hab. rewrite E0 in Hab.
    destruct (merge_step_turn _ _ _ E1) as [? ? ? _ _ _ _ Habs|_ Hents _ Hpend _];
      [congruence|].
    rewrite (not_opening_key e Ho) in Hpend.
    destruct (entry_kept (λ _, False) (length (entries st0))
                (standalone (length (entries st0)) e) post st1 st) as [Hfin _];
      try done.
    + rewrite Hents, (consistent_next _ Hc0).
      by rewrite lookup_app_r, Nat.sub_diag by lia.
    + intros k. rewrite Hpend. intros Hk'.
      destruct (consistent_pending _ Hc0 _ _ Hk') as (x & Hx & _).
      apply lookup_lt_Some in Hx. lia.
    + apply Forall_forall. intros ? _ ? _ [].
  - unfold getEntryStatus. simpl. rewrite is_pairable_opening. simpl.
    by rewrite Ho.
Qed.

Lemma standalone_event_stays_alone_witness :
  ∃ out, mergeEvents ([prompt_1] ++ reload :: [answer_1; answer_2]) = Some out
    ∧ out !! entry_index [prompt_1] = Some (standalone (entry_index [prompt_1]) reload)
    ∧ getEntryStatus (standalone (entry_index [prompt_1]) reload)
      = getEventStatus reload.
Proof.
  apply (standalone_event_stays_alone [prompt_1] reload [answer_1; answer_2]).
  - keys_exist.
  - by vm_compute.
  - by vm_compute.
Defined.

(** *** Status and failure *)

Lemma type_is_false k t : type_is k t = false ↔ t ≠ js k.
Proof. unfold type_is. apply bool_decide_eq_false. Qed.

Lemma getEventStatus_labels e :
  (label (getEventStatus e) = js "error" ↔ isEventError e = true)
  ∧ label (getEventStatus e) ≠ js "pending".
Proof.
  unfold getEventStatus, isEventError.
  destruct e as [t time fs]. cbn [type].
  destruct (type_is "PROMPT_ERROR" t) eqn:H1.
  { split; [done|]. cbn [label]. by vm_compute. }
  destruct (type_is "PROMPT_RESPONSE" t) eqn:H2.
  { apply type_is_true in H2. subst t. split; [|by vm_compute].
    split; intros H; by vm_compute in H. }
  destruct (type_is "STREAM_END" t) eqn:H3.
  { apply type_is_true in H3. subst t. split; [|by vm_compute].
    split; intros H; by vm_compute in H. }
  cbn [orb].
  destruct (type_is "TOOL_RESULT_AI" t) eqn:H4.
  { cbn [andb].
    destruct (not_nullish (get {| type := t; ts := time; fields := fs |} "error")
              && not_empty_string
                   (get {| type := t; ts := time; fields := fs |} "error"));
      [split; [done|by vm_compute]|].
    destruct (negb (not_nullish
                      (get {| type := t; ts := time; fields := fs |} "result")));
      (split; [split; intros H; by vm_compute in H|by vm_compute]). }
  cbn [andb].
  repeat match goal with
         | |- context [type_is ?k t] => destruct (type_is k t)
         end; cbn [orb label];
    (split; [split; intros H; by vm_compute in H|by vm_compute]).
Qed.

(** X9.  The status of an event is labelled [error] exactly when
    [isEventError] holds of it.  No event has the label [pending]: an
    entry is labelled so exactly when it has no response and its request
    opens a pair. *)
Theorem error_and_pending_labels :
  (∀ e, label (getEventStatus e) = js "error" ↔ isEventError e = true)
  ∧ (∀ x, label (getEntryStatus x) = js "pending"
          ↔ response x = None ∧ opening (request x) = true).
Proof.
  split; [intros e; apply getEventStatus_labels|].
  intros x. unfold getEntryStatus. rewrite is_pairable_opening.
  destruct (response x) as [r|].
  - split; [|by intros [? _]]. intros H.
    by destruct (getEventStatus_labels r) as [_ Hp].
  - destruct (opening (request x)); [done|].
    split; [|by intros [_ ?]]. intros H.
    by destruct (getEventStatus_labels (request x)) as [_ Hp].
Qed.

Lemma opening_not_error e : opening e = true → isEventError e = false.
Proof.
  intros Ho. destruct (isEventError e) eqn:He; [|done].
  apply isEventError_iff in He as [Ht|[Ht _]];
    unfold opening in Ho; rewrite Ht in Ho; by vm_compute in Ho.
Qed.

(** X10.  An entry of a merge result is failed exactly when its status
    is labelled [error] or [pending]. *)
Theorem failed_iff_status events :
  Forall (λ e, keys_computable e) events →
  ∃ out, mergeEvents events = Some out
    ∧ ∀ i x, out !! i = Some x →
        isEntryFailed x = true
        ↔ label (getEntryStatus x) = js "error"
          ∨ label (getEntryStatus x) = js "pending".
Proof.
  intros Hk.
  destruct (mergeEvents_invariant
              (λ _ st, ∀ i x r, entries st !! i = Some x → response x = Some r →
                 opening (request x) = true) events)
    as (st & _ & Hout & _ & HR); [|done|done|].
  - intros _ st e st' Hc HR [k idx ent Hk' Hpk Hent -> _|_ Hents _ _ _]; simpl.
    + intros i x r. destruct (decide (i = idx)) as [->|Hne].
      * rewrite list_lookup_insert_eq by (by eapply lookup_lt_Some).
        intros [= <-] _. simpl.
        destruct (consistent_pending _ Hc _ _ Hpk) as (y & Hy & _ & Ho).
        assert (y = ent) as -> by congruence. by eapply open_key_opening.
      * rewrite list_lookup_insert_ne by done. apply HR.
    + intros i x r. rewrite Hents. intros Hx.
      apply lookup_app_Some in Hx as [Hx|[_ Hx]]; [by eapply HR|].
      apply list_lookup_singleton_Some in Hx as [_ <-]. done.
  - exists (entries st). split; [done|]. intros i x Hx.
    unfold isEntryFailed, getEntryStatus.
    destruct (response x) as [r|] eqn:Hr.
    + rewrite (opening_not_error _ (HR _ _ _ Hx Hr)).
      destruct (getEventStatus_labels r) as [Herr Hpend].
      rewrite andb_false_r.
      destruct (isEventError r) eqn:He.
      * split; [intros _; left; by apply Herr|done].
      * split; [done|]. intros [H|H]; [|done]. apply Herr in H. congruence.
    + destruct (is_pairable x).
      { destruct (isEventError (request x)); (split; [by right|done]). }
      destruct (getEventStatus_labels (request x)) as [Herr Hpend].
      cbn [andb]. destruct (isEventError (request x)) eqn:He.
      * split; [intros _; left; by apply Herr|done].
      * split; [done|]. intros [H|H]; [|done]. apply Herr in H. congruence.
Qed.

Lemma failed_iff_status_witness :
  ∃ out, mergeEvents [prompt_1; search_call; answer_1; answer_2] = Some out
    ∧ ∀ i x, out !! i = Some x →
        isEntryFailed x = true
        ↔ label (getEntryStatus x) = js "error"
          ∨ label (getEntryStatus x) = js "pending".
Proof.
  apply (failed_iff_status [prompt_1; search_call; answer_1; answer_2]).
  keys_exist.
Defined.

(** Outside a merge result the two can differ: an error event given a
    response is failed, and its status is that of the response. *)
Example failed_with_status_ok :
  isEntryFailed {| id := 0; request := ev "PROMPT_ERROR" VUndefined [];
                   response := Some answer_1 |} = true
  ∧ label (getEntryStatus {| id := 0; request := ev "PROMPT_ERROR" VUndefined [];
                             response := Some answer_1 |}) = js "ok".
Proof. by vm_compute. Qed.

(** *** Keys *)

(** A text is cut in one way at its first colon. *)
Lemma split_at_colon (s1 s2 t1 t2 : jsstring) :
  colon ∉ s1 → colon ∉ s2 →
  s1 ++ colon :: t1 = s2 ++ colon :: t2 → s1 = s2 ∧ t1 = t2.
Proof.
  revert s2. induction s1 as [|c s1 IH]; intros [|d s2] H1 H2; simpl.
  - by intros [= ->].
  - intros [= <- _]. exfalso. apply H2. by left.
  - intros [= -> _]. exfalso. apply H1. by left.
  - intros [= -> Heq]. apply not_elem_of_cons in H1 as [_ H1].
    apply not_elem_of_cons in H2 as [_ H2].
    destruct (IH s2 H1 H2 Heq) as [-> ->]. done.
Qed.

(** The key made under an own label starts with the label and a colon. *)
Lemma matchKey_label e p k :
  matchKey e (Own p) = Some k → ∃ rest, k = p ++ colon :: rest.
Proof.
  unfold matchKey.
  destruct (ToString (nullish (get e "sessionId") (VString []))) as [sid|];
    [|done].
  cbn [mbind option_bind]. destruct (is_tool (Own p)) eqn:Hp.
  - apply bool_decide_eq_true in Hp as ->.
    destruct (ToString (nullish (get e "tool") (VString []))) as [tool|];
      [|done].
    cbn [mbind option_bind]. intros [= <-]. by exists (sid ++ js ":" ++ tool).
  - intros [= <-]. by exists sid.
Qed.

Lemma pair_label_no_colon table t p :
  table = REQUEST_PAIR ∨ table = RESPONSE_PAIR →
  assoc table t = Some p → colon ∉ p.
Proof.
  intros [-> | ->]; unfold assoc, REQUEST_PAIR, RESPONSE_PAIR;
    repeat case_decide; try done; intros [= <-];
    apply (bool_decide_unpack _); by vm_compute.
Qed.

(** Two events of the tables that have one key have one label. *)
Lemma keyed_labels_equal o c k p q :
  open_key o = Some k → close_key c = Some k →
  assoc REQUEST_PAIR (type o) = Some p →
  assoc RESPONSE_PAIR (type c) = Some q →
  p = q.
Proof.
  intros Ho Hc Hp Hq.
  assert (truthy (Own p) = true ∧ truthy (Own q) = true) as [Htp Htq].
  { split.
    - apply (table_get_truthy REQUEST_PAIR (type o));
        [repeat (constructor; [done|]); constructor|].
      unfold table_get. by rewrite Hp.
    - apply (table_get_truthy RESPONSE_PAIR (type c));
        [repeat (constructor; [done|]); constructor|].
      unfold table_get. by rewrite Hq. }
  unfold open_key, table_get in Ho. rewrite Hp, Htp in Ho.
  unfold close_key, table_get in Hc. rewrite Hq, Htq in Hc.
  destruct (matchKey_label _ _ _ Ho) as (r1 & ->).
  destruct (matchKey_label _ _ _ Hc) as (r2 & Heq).
  apply split_at_colon in Heq as [-> _]; [done| |].
  - by eapply (pair_label_no_colon REQUEST_PAIR); [left|].
  - by eapply (pair_label_no_colon RESPONSE_PAIR); [right|].
Qed.

(** X11.  A response is never attached to a request of another pair: in
    every entry whose request and response have types of the tables, the
    label of the request type is the label of the response type. *)
Theorem pairs_do_not_mix events :
  Forall (λ e, keys_computable e) events →
  ∃ out, mergeEvents events = Some out
    ∧ ∀ i x r p q, out !! i = Some x → response x = Some r →
        assoc REQUEST_PAIR (type (request x)) = Some p →
        assoc RESPONSE_PAIR (type r) = Some q →
        p = q.
Proof.
  intros Hk. destruct (merged_pairs_keyed events Hk) as (st & _ & Hout & HR).
  exists (entries st). split; [done|]. intros i x r p q Hx Hr Hp Hq.
  destruct (HR _ _ _ Hx Hr) as (k & Ho & Hc).
  by eapply keyed_labels_equal.
Qed.

Lemma pairs_do_not_mix_witness :
  ∃ out, mergeEvents [prompt_1; search_call; search_result; answer_1] = Some out
    ∧ ∀ i x r p q, out !! i = Some x → response x = Some r →
        assoc REQUEST_PAIR (type (request x)) = Some p →
        assoc RESPONSE_PAIR (type r) = Some q →
        p = q.
Proof.
  apply (pairs_do_not_mix [prompt_1; search_call; search_result; answer_1]).
  keys_exist.
Defined.

(** X12.  Under one label other than [tool], equal keys mean equal
    session texts.  Under [tool], equal keys mean equal session texts
    and equal tool texts when the session texts have no colon. *)
Theorem equal_keys_equal_fields e1 e2 s1 s2 :
  ToString (nullish (get e1 "sessionId") (VString [])) = Some s1 →
  ToString (nullish (get e2 "sessionId") (VString [])) = Some s2 →
  (∀ p, is_tool (Own p) = false →
        matchKey e1 (Own p) = matchKey e2 (Own p) → s1 = s2)
  ∧ (∀ t1 t2,
       ToString (nullish (get e1 "tool") (VString [])) = Some t1 →
       ToString (nullish (get e2 "tool") (VString [])) = Some t2 →
       colon ∉ s1 → colon ∉ s2 →
       matchKey e1 (Own (js "tool")) = matchKey e2 (Own (js "tool")) →
       s1 = s2 ∧ t1 = t2).
Proof.
  intros H1 H2. unfold matchKey. rewrite H1, H2. cbn [mbind option_bind]. split.
  - intros p ->. intros [= Heq]. by apply app_inv_head in Heq as [= ->].
  - intros t1 t2 -> -> Hs1 Hs2. cbn [mbind option_bind].
    change (is_tool (Own (js "tool"))) with true. cbn [mbind option_bind].
    intros [= Heq]. exact (split_at_colon s1 s2 t1 t2 Hs1 Hs2 Heq).
Qed.

Lemma equal_keys_equal_fields_witness :
  js "a" = js "a" ∧ js "search" = js "search".
Proof.
  destruct (equal_keys_equal_fields search_call search_result (js "a") (js "a")
              eq_refl eq_refl) as [_ H].
  apply (H (js "search") (js "search")); try reflexivity;
    apply (bool_decide_unpack _); by vm_compute.
Defined.

(** With a colon in a session text, two pairs of session and tool have
    one key, and the call of the one is answered by the result of the
    other. *)
Example colon_in_session_collides :
  matchKey (ev "TOOL_CALL" VUndefined
              [("sessionId", VString (js "a:b")); ("tool", VString (js "c"))])
           (Own (js "tool"))
  = matchKey (ev "TOOL_RESULT_AI" VUndefined
                [("sessionId", VString (js "a")); ("tool", VString (js "b:c"))])
             (Own (js "tool"))
  ∧ mergeEvents
      [ ev "TOOL_CALL" VUndefined
          [("sessionId", VString (js "a:b")); ("tool", VString (js "c"))];
        ev "TOOL_RESULT_AI" VUndefined
          [("sessionId", VString (js "a")); ("tool", VString (js "b:c"))] ]
    = Some [ {| id := 0;
                request := ev "TOOL_CALL" VUndefined
                  [("sessionId", VString (js "a:b")); ("tool", VString (js "c"))];
                response := Some (ev "TOOL_RESULT_AI" VUndefined
                  [("sessionId", VString (js "a")); ("tool", VString (js "b:c"))]) |} ].
Proof. by vm_compute. Qed.

(** ** Further properties of the event utilities *)

(** *** Names *)

(** X13.  [truncate] gives a text of at most [max + 1] code units that
    begins like the text it is given, leaves a text of at most [max]
    code units as it is, and changes nothing when applied again. *)
Theorem truncate_properties s max :
  length (truncate s max) = (length s `min` (max + 1))%nat
  ∧ take max (truncate s max) = take max s
  ∧ ((length s <= max)%nat → truncate s max = s)
  ∧ truncate (truncate s max) max = truncate s max.
Proof.
  unfold truncate. destruct (decide (max < length s)%nat) as [Hlt|Hge].
  - assert (length (take max s ++ [8230%N]) = (max + 1)%nat) as Hlen.
    { rewrite length_app, length_take. simpl. lia. }
    rewrite Hlen. split; [lia|]. split.
    { rewrite take_app_le by (rewrite length_take; lia).
      rewrite take_take. f_equal. lia. }
    split; [lia|].
    rewrite decide_True by lia.
    rewrite take_app_le by (rewrite length_take; lia).
    rewrite take_take. do 2 f_equal. lia.
  - split; [lia|]. split; [done|]. split; [done|]. by rewrite decide_False.
Qed.

Lemma truncate_properties_witness :
  truncate (js "abc") 5 = js "abc".
Proof.
  destruct (truncate_properties (js "abc") 5) as (_ & _ & H & _).
  apply H. vm_compute. lia.
Defined.

Lemma assoc_None {A} (l : list (jsstring * A)) k :
  assoc l k = None ↔ k ∉ l.*1.
Proof.
  induction l as [|[k' a] l IH]; simpl.
  - split; [intros _; apply not_elem_of_nil|done].
  - destruct (decide (k' = k)) as [->|Hk].
    + split; [done|]. intros Hn. exfalso. apply Hn. by left.
    + rewrite IH, not_elem_of_cons.
      split; [intros ?; split; [congruence|done]|by intros [_ ?]].
Qed.

Lemma truncate_length s max : (length (truncate s max) <= max + 1)%nat.
Proof.
  unfold truncate. case_decide; [|lia].
  rewrite length_app, length_take. simpl. lia.
Qed.

(** The tests of [getEventName] on a type that is in no table. *)
Lemma unknown_type_tests t :
  assoc TYPE_COLORS t = None →
  Forall (λ k, type_is k t = false)
    ["SESSION_CREATED"; "PROMPT_SENT"; "STREAM_START"; "PROMPT_RESPONSE";
     "STREAM_END"; "PROMPT_ERROR"; "TOOL_CALL"; "TOOL_RESULT_AI";
     "TOOL_REGISTERED"; "TOOL_UNREGISTERED"; "CONTEXT_CLEARED";
     "TOOL_ACTIVATED"; "TOOL_CANCEL"; "PAGE_RELOAD"]%string.
Proof.
  intros Hn. apply assoc_None in Hn.
  repeat (constructor;
          [apply type_is_false; intros ->; apply Hn;
           apply (bool_decide_unpack _); by vm_compute|]).
  constructor.
Qed.

(** X14.  The name of a prompt, stream or error event has at most 61
    code units, the name of a session event at most 17, of which the
    first nine are [Session #]; an event of a type in no table is named
    by its type. *)
Theorem getEventName_bounds e :
  (∀ name, getEventName e = Some name →
     type e ∈ [js "PROMPT_SENT"; js "STREAM_START"; js "PROMPT_RESPONSE";
               js "STREAM_END"; js "PROMPT_ERROR"] →
     (length name <= 61)%nat)
  ∧ (∀ name, getEventName e = Some name →
       type e = js "SESSION_CREATED" →
       (length name <= 17)%nat ∧ take 9 name = js "Session #")
  ∧ (assoc TYPE_COLORS (type e) = None → getEventName e = Some (type e)).
Proof.
  destruct e as [t time fs]. cbn [type]. split; [|split].
  - intros name Hname Ht.
    assert (∃ s, name = truncate s 60) as [s ->].
    { repeat (apply elem_of_cons in Ht as [->|Ht];
              [revert Hname; unfold getEventName; cbn [type]; known_type;
               match goal with
               | |- context [field_text ?e ?k ?d] =>
                   destruct (field_text e k d) as [s|]; [|done]
               end; cbn [mbind option_bind]; intros [= <-]; by exists s|]).
      by apply elem_of_nil in Ht. }
    pose proof (truncate_length s 60). lia.
  - intros name Hname ->. revert Hname. unfold getEventName. cbn [type].
    known_type.
    match goal with
    | |- context [field_text ?e ?k ?d] =>
        destruct (field_text e k d) as [s|]; [|done]
    end.
    cbn [mbind option_bind]. intros Heq. apply (inj Some) in Heq. subst name.
    split; [|done].
    rewrite length_app, length_take. change (length (js "Session #")) with 9%nat.
    lia.
  - intros Hn. pose proof (unknown_type_tests t Hn) as Htests.
    unfold getEventName. cbn [type].
    repeat (apply Forall_cons in Htests as [-> Htests]). done.
Qed.

Lemma getEventName_bounds_witness :
  (length (truncate (js "hi") 60) <= 61)%nat.
Proof.
  destruct (getEventName_bounds prompt_1) as [H _].
  apply (H (truncate (js "hi") 60)); [reflexivity|].
  apply (bool_decide_unpack _). by vm_compute.
Defined.

Example getEventName_examples :
  getEventName prompt_1 = Some (js "hi")
  ∧ getEventName search_result = Some (js "search")
  ∧ getEventName (ev "SESSION_CREATED" VUndefined
                    [("sessionId", VString (js "0123456789abcdef"))])
    = Some (js "Session #01234567")
  ∧ getEventName (ev "TOOL_REGISTERED" VUndefined
                    [("tool", VObject [(js "name", VString (js "fetch"))])])
    = Some (js "fetch")
  ∧ getEventName (ev "TOOL_REGISTERED" VUndefined [("tool", VString (js "fetch"))])
    = Some (js "unknown")
  ∧ getEventName (ev "TOOL_CALL" VUndefined []) = Some (js "unknown")
  ∧ getEventName odd_call = None
  ∧ getEventName (ev "SOMETHING_ELSE" VUndefined []) = Some (js "SOMETHING_ELSE")
  ∧ length <$> getEventName
      (ev "PROMPT_SENT" VUndefined [("input", VString (replicate 100 97%N))])
    = Some 61%nat.
Proof. by vm_compute. Qed.

(** X15.  The name of a tool call or tool result that has a [tool] is
    the tool part of its key. *)
Theorem tool_name_in_key e k :
  type e = js "TOOL_CALL" ∨ type e = js "TOOL_RESULT_AI" →
  not_nullish (get e "tool") = true →
  matchKey e (Own (js "tool")) = Some k →
  ∃ sid name,
    ToString (nullish (get e "sessionId") (VString [])) = Some sid
    ∧ getEventName e = Some name
    ∧ k = js "tool:" ++ sid ++ js ":" ++ name.
Proof.
  intros Ht Htool. unfold matchKey.
  destruct (ToString (nullish (get e "sessionId") (VString []))) as [sid|];
    [|done].
  cbn [mbind option_bind]. change (is_tool (Own (js "tool"))) with true.
  cbn iota.
  assert (∀ d, nullish (get e "tool") d = get e "tool") as Hn
    by (intros d; by destruct (get e "tool")).
  rewrite Hn. destruct (ToString (get e "tool")) as [name|] eqn:Hname; [|done].
  cbn [mbind option_bind]. intros [= <-]. exists sid, name.
  split; [done|]. split; [|done].
  destruct e as [t time fs]. cbn [type] in Ht.
  unfold getEventName, field_text. cbn [type].
  destruct Ht as [-> | ->]; known_type; by rewrite Hn.
Qed.

Lemma tool_name_in_key_witness :
  ∃ sid name,
    ToString (nullish (get search_call "sessionId") (VString [])) = Some sid
    ∧ getEventName search_call = Some name
    ∧ js "tool:a:search" = js "tool:" ++ sid ++ js ":" ++ name.
Proof.
  apply (tool_name_in_key search_call (js "tool:a:search"));
    [by left|reflexivity|reflexivity].
Defined.

(** *** Payload and response data *)

Lemma assoc_Some_key {A} (l : list (jsstring * A)) k a :
  assoc l k = Some a → k ∈ l.*1.
Proof.
  intros Ha. destruct (decide (k ∈ l.*1)) as [?|Hn]; [done|].
  apply assoc_None in Hn. congruence.
Qed.

(** X16.  [getResponse] gives an object exactly for the types that
    RESPONSE_PAIR lists, and [null] for every other type; [getPayload]
    gives an object for each type that REQUEST_PAIR lists. *)
Theorem data_follows_pairing_tables e :
  (getResponse e ≠ VNull ↔ is_Some (assoc RESPONSE_PAIR (type e)))
  ∧ (is_Some (assoc RESPONSE_PAIR (type e)) → ∃ props, getResponse e = VObject props)
  ∧ (is_Some (assoc REQUEST_PAIR (type e)) → ∃ props, getPayload e = VObject props).
Proof.
  destruct e as [t time fs]. cbn [type].
  assert (is_Some (assoc RESPONSE_PAIR t) →
          ∃ props, getResponse {| type := t; ts := time; fields := fs |}
                   = VObject props) as Hres.
  { intros [a Ha]. apply assoc_Some_key in Ha. unfold getResponse. cbn [type].
    repeat (apply elem_of_cons in Ha as [->|Ha];
            [known_type; unfold pick; eauto|]).
    by apply elem_of_nil in Ha. }
  split; [|split; [done|]].
  - split.
    + intros Hne. unfold getResponse in Hne. cbn [type] in Hne.
      destruct (type_is "PROMPT_RESPONSE" t) eqn:H1;
        [apply type_is_true in H1; subst t; clear; vm_compute; eauto|].
      destruct (type_is "STREAM_END" t) eqn:H2;
        [apply type_is_true in H2; subst t; clear; vm_compute; eauto|].
      destruct (type_is "PROMPT_ERROR" t) eqn:H3;
        [apply type_is_true in H3; subst t; clear; vm_compute; eauto|].
      destruct (type_is "TOOL_RESULT_AI" t) eqn:H4;
        [apply type_is_true in H4; subst t; clear; vm_compute; eauto|].
      done.
    + intros H. destruct (Hres H) as [props ->]. done.
  - intros [a Ha]. apply assoc_Some_key in Ha. unfold getPayload. cbn [type].
    repeat (apply elem_of_cons in Ha as [->|Ha];
            [known_type; unfold pick; eauto|]).
    by apply elem_of_nil in Ha.
Qed.

Lemma data_follows_pairing_tables_witness :
  ∃ props, getResponse answer_1 = VObject props.
Proof.
  destruct (data_follows_pairing_tables answer_1) as (_ & H & _).
  apply H. vm_compute. eauto.
Defined.

Example data_examples :
  getEntryPayload {| id := 0; request := search_call; response := Some search_result |}
  = VObject [(js "tool", VString (js "search")); (js "args", VUndefined)]
  ∧ getEntryResponseData
      {| id := 0; request := search_call; response := Some search_result |}
    = VObject [(js "tool", VString (js "search")); (js "result", VNumber 3);
               (js "error", VUndefined)]
  ∧ getEntryResponseData {| id := 0; request := search_call; response := None |}
    = VNull
  ∧ getEntryResponseData (standalone 0 answer_1)
    = VObject [(js "result", VString (js "hello"))]
  ∧ getPayload (ev "TOOL_REGISTERED" VUndefined []) = VUndefined.
Proof. by vm_compute. Qed.

(** *** Colours and labels *)

Lemma Object_prototype_get_Some t i :
  Object_prototype_get t = Some i →
  i ∈ (ObjectPrototype
       :: (BuiltinFunction <$> Object_prototype_functions.*2)).
Proof.
  unfold Object_prototype_get.
  destruct (assoc Object_prototype_functions t) as [name|] eqn:Ha.
  - intros [= <-]. right. apply list_elem_of_fmap_2.
    clear -Ha. induction Object_prototype_functions as [|[k a] l IH]; [done|].
    simpl in Ha. case_decide; [injection Ha as ->; by left|].
    right. by apply IH.
  - case_decide; [|done]. intros [= <-]. by left.
Qed.

(** X17.  The colour of the category of an entry is [undefined] exactly
    when the type of its request is the name of a member of
    [Object.prototype]; for every other type it is the colour that
    CATEGORY_COLORS gives the category of the type. *)
Theorem category_color_defined x :
  (getEntryCategoryColor x = None
   ↔ is_Some (Object_prototype_get (type (request x))))
  ∧ (∀ c, getEntryCategory x = Own c →
          ∃ colour, assoc CATEGORY_COLORS (category_name c) = Some colour
                    ∧ getEntryCategoryColor x = Some (Own colour)).
Proof.
  assert (∀ c, ∃ colour, assoc CATEGORY_COLORS (category_name c) = Some colour
                         ∧ table_get CATEGORY_COLORS (category_name c)
                           = Some (Own colour)) as Hcol.
  { intros []; eexists; split; by vm_compute. }
  split.
  - unfold getEntryCategoryColor, getEntryCategory, getCategory, table_get at 2.
    destruct (assoc TYPE_TO_CATEGORY (type (request x))) as [c|] eqn:Hc.
    + change (default (Own System) (Some (Own c))) with (@Own EventCategory c).
      cbv iota. destruct (Hcol c) as (colour & _ & ->).
      split; [done|]. intros [i Hi]. exfalso.
      apply assoc_Some_key in Hc. revert Hi.
      repeat (apply elem_of_cons in Hc as [->|Hc]; [by vm_compute|]).
      by apply elem_of_nil in Hc.
    + destruct (Object_prototype_get (type (request x))) as [i|] eqn:Hi.
      * change (default (Own System) (Inherited <$> Some i))
          with (@Inherited EventCategory i).
        cbv iota. split; [eauto|]. intros _.
        apply Object_prototype_get_Some in Hi. clear -Hi.
        repeat (apply elem_of_cons in Hi as [->|Hi]; [by vm_compute|]).
        by apply elem_of_nil in Hi.
      * change (default (Own System) (Inherited <$> None))
          with (@Own EventCategory System).
        cbv iota. destruct (Hcol System) as (colour & _ & ->).
        split; [done|]. by intros [? ?].
  - intros c Hc. unfold getEntryCategoryColor. rewrite Hc.
    destruct (Hcol c) as (colour & Ha & Ht). eauto.
Qed.

Lemma category_color_defined_witness :
  ∃ colour, assoc CATEGORY_COLORS (category_name Tool) = Some colour
            ∧ getEntryCategoryColor (standalone 0 search_call) = Some (Own colour).
Proof.
  destruct (category_color_defined (standalone 0 search_call)) as [_ H].
  apply (H Tool). reflexivity.
Defined.

(** X18.  The colour table of the row component and the colour table of
    the event utilities give every type the same colour, and the types
    that have a colour are the types that have a category. *)
Theorem color_tables_agree t :
  assoc TimelineEntry.TYPE_COLORS t = assoc TYPE_COLORS t
  ∧ (∀ e x, type e = t → request x = e → TimelineEntry.color e = getEntryColor x)
  ∧ (is_Some (assoc TYPE_COLORS t) ↔ is_Some (assoc TYPE_TO_CATEGORY t)).
Proof.
  assert (assoc TimelineEntry.TYPE_COLORS t = assoc TYPE_COLORS t) as Heq.
  { destruct (decide (t ∈ TYPE_COLORS.*1)) as [Hin|Hout].
    - repeat (apply elem_of_cons in Hin as [->|Hin]; [by vm_compute|]).
      by apply elem_of_nil in Hin.
    - rewrite (proj2 (assoc_None TYPE_COLORS t) Hout).
      apply assoc_None. intros Hin. apply Hout. clear Hout.
      repeat (apply elem_of_cons in Hin as [->|Hin];
              [apply (bool_decide_unpack _); by vm_compute|]).
      by apply elem_of_nil in Hin. }
  split; [done|]. split.
  - intros e x Ht Hx. unfold TimelineEntry.color, getEntryColor, table_get.
    by rewrite Hx, Ht, Heq.
  - destruct (decide (t ∈ TYPE_COLORS.*1)) as [Hin|Hout].
    + repeat (apply elem_of_cons in Hin as [->|Hin];
              [split; intros _; vm_compute; eauto|]).
      by apply elem_of_nil in Hin.
    + rewrite (proj2 (assoc_None TYPE_COLORS t) Hout).
      assert (assoc TYPE_TO_CATEGORY t = None) as ->; [|done].
      apply assoc_None. intros Hin. apply Hout. clear Hout.
      repeat (apply elem_of_cons in Hin as [->|Hin];
              [apply (bool_decide_unpack _); by vm_compute|]).
      by apply elem_of_nil in Hin.
Qed.

(** X19.  An entry has a label in PAIRED_LABELS exactly when its request
    opens a pair; every other entry is shown under the type of its
    request. *)
Theorem paired_label_iff_pairable x :
  (is_Some (table_get PAIRED_LABELS (type (request x))) ↔ is_pairable x = true)
  ∧ (is_pairable x = false → getEntryType x = Own (type (request x))).
Proof.
  assert (∀ t, assoc PAIRED_LABELS t = None ↔ assoc REQUEST_PAIR t = None)
    as Hnone.
  { intros t. by rewrite !assoc_None. }
  assert (is_Some (table_get PAIRED_LABELS (type (request x)))
          ↔ is_pairable x = true) as Hiff.
  { unfold is_pairable, table_get.
    destruct (assoc REQUEST_PAIR (type (request x))) as [p|] eqn:Hp.
    - destruct (assoc PAIRED_LABELS (type (request x))) as [q|] eqn:Hq.
      + split; [intros _|eauto].
        apply (table_get_truthy REQUEST_PAIR (type (request x)));
          [repeat (constructor; [done|]); constructor|].
        unfold table_get. by rewrite Hp.
      + apply Hnone in Hq. congruence.
    - rewrite (proj2 (Hnone _) Hp).
      destruct (Object_prototype_get (type (request x))); simpl;
        [split; eauto|split; [by intros [? ?]|done]]. }
  split; [done|]. intros Hp. unfold getEntryType.
  destruct (table_get PAIRED_LABELS (type (request x))) as [l|] eqn:Hl; [|done].
  assert (is_pairable x = true) by (apply Hiff; eauto). congruence.
Qed.

(** *** Sizes *)

Lemma utf8_length_bounds s :
  (length s <= utf8_length s <= 3 * length s)%nat.
Proof.
  assert (∀ n s, (length s <= n)%nat →
                 (length s <= utf8_length s <= 3 * length s)%nat) as H;
    [|by apply (H (length s))].
  clear s. induction n as [|n IH]; intros s Hn.
  { destruct s; [simpl; lia|simpl in Hn; lia]. }
  destruct s as [|c s]; [simpl; lia|].
  cbn [utf8_length length] in *.
  pose proof (IH s ltac:(lia)) as Hs.
  destruct (decide (c < 128)%N); [lia|].
  destruct (decide (c < 2048)%N); [lia|].
  destruct s as [|d s]; [simpl; lia|].
  destruct (is_high_surrogate c && is_low_surrogate d); [|lia].
  pose proof (IH s ltac:(simpl in Hn; lia)) as Hs'.
  cbn [length] in *. lia.
Qed.

(** X20.  The size that [getEntrySize] counts for an event is at least
    the two braces, never more than the bytes that [getDataSize] counts
    for it, and at least a third of them. *)
Theorem jsonLen_bounds e :
  (2 <= jsonLen e)%nat
  ∧ (jsonLen e <= utf8_length (rest_json e))%nat
  ∧ (utf8_length (rest_json e) <= 3 * jsonLen e)%nat.
Proof.
  unfold jsonLen. split; [|apply utf8_length_bounds].
  unfold rest_json. cbn [JSON_stringify from_option]. unfold Datatypes.id.
  rewrite !length_app. change (length (js "{")) with 1%nat.
  change (length (js "}")) with 1%nat. lia.
Qed.

Example empty_payload_size :
  rest_json reload = js "{}"
  ∧ getEntrySize (standalone 0 reload) = js "2 B"
  ∧ getDataSize reload = js "2 B".
Proof. by vm_compute. Qed.

(** X21.  [getEntrySize] prints the code units of the request and of
    the response together, [getDataSize] the bytes of the event: as
    bytes below 1024, and from 1024 on as kilobytes rounded to the
    nearest tenth, the upper one on a tie. *)
Theorem size_texts :
  (∀ x, getEntrySize x
        = format_bytes (jsonLen (request x)
                        + match response x with
                          | Some r => jsonLen r
                          | None => 0
                          end))
  ∧ (∀ e, getDataSize e = format_bytes (utf8_length (rest_json e)))
  ∧ (∀ n, (n < 1024)%nat →
          format_bytes n = Number_toString (Z.of_nat n) ++ js " B")
  ∧ (∀ n, (1024 <= n)%nat → Z.of_nat n < 2 ^ 53 →
          ∃ tenths, 2048 * tenths <= 20 * Z.of_nat n + 1024 < 2048 * (tenths + 1)
            ∧ format_bytes n
              = Number_toString (tenths / 10) ++ js "."
                ++ Number_toString (tenths mod 10) ++ js " KB").
Proof.
  split; [apply getEntrySize_format|]. split; [apply getDataSize_format|].
  split; [intros n; apply format_bytes_cases|].
  intros n Hge Hlt. exists ((20 * Z.of_nat n + 1024) / 2048). split.
  - pose proof (Z.div_mod (20 * Z.of_nat n + 1024) 2048 ltac:(lia)).
    pose proof (Z.mod_pos_bound (20 * Z.of_nat n + 1024) 2048 ltac:(lia)).
    lia.
  - by apply format_bytes_cases.
Qed.

Lemma size_texts_witness :
  ∃ tenths, 2048 * tenths <= 20 * Z.of_nat 1536 + 1024 < 2048 * (tenths + 1)
    ∧ format_bytes 1536
      = Number_toString (tenths / 10) ++ js "."
        ++ Number_toString (tenths mod 10) ++ js " KB".
Proof.
  destruct size_texts as (_ & _ & _ & H). apply (H 1536%nat); [lia|by vm_compute].
Defined.

(** *** Request and response of one category *)

(** X22.  In every entry whose request and response have types of the
    pairing tables, the two types have one category, AI or Tool. *)
Theorem paired_events_share_category events :
  Forall (λ e, keys_computable e) events →
  ∃ out, mergeEvents events = Some out
    ∧ ∀ i x r, out !! i = Some x → response x = Some r →
        is_Some (assoc REQUEST_PAIR (type (request x))) →
        is_Some (assoc RESPONSE_PAIR (type r)) →
        getCategory (type (request x)) = getCategory (type r)
        ∧ (getEntryCategory x = Own AI ∨ getEntryCategory x = Own Tool).
Proof.
  intros Hk. destruct (merged_pairs_keyed events Hk) as (st & _ & Hout & HR).
  exists (entries st). split; [done|]. intros i x r Hx Hr [p Hp] [q Hq].
  destruct (HR _ _ _ Hx Hr) as (k & Ho & Hc).
  pose proof (keyed_labels_equal _ _ _ _ _ Ho Hc Hp Hq) as <-.
  unfold getEntryCategory. clear -Hp Hq.
  revert Hp Hq. unfold assoc, REQUEST_PAIR, RESPONSE_PAIR.
  repeat case_decide; try done;
    repeat match goal with H : js _ = type _ |- _ => rewrite <- H; clear H end;
    intros [= <-] Hq; try (by vm_compute in Hq);
    (split; [by vm_compute|]); first [by left; vm_compute|by right; vm_compute].
Qed.

Lemma paired_events_share_category_witness :
  ∃ out, mergeEvents [search_call; prompt_1; answer_1; search_result] = Some out
    ∧ ∀ i x r, out !! i = Some x → response x = Some r →
        is_Some (assoc REQUEST_PAIR (type (request x))) →
        is_Some (assoc RESPONSE_PAIR (type r)) →
        getCategory (type (request x)) = getCategory (type r)
        ∧ (getEntryCategory x = Own AI ∨ getEntryCategory x = Own Tool).
Proof.
  apply (paired_events_share_category
           [search_call; prompt_1; answer_1; search_result]).
  keys_exist.
Defined.

(** *** Streams in two parts *)

(** A run from a state with entries [base] and a run from the initial
    state go in step, the one [length base] above the other. *)
Lemma merge_loop_shift base events : ∀ sa sb sb',
  entries sa = base ++ (shift (length base) <$> entries sb) →
  pending sa = (λ i, length base + i)%nat <$> pending sb →
  nextId sa = (length base + nextId sb)%nat →
  merge_loop sb events = Some sb' →
  ∃ sa', merge_loop sa events = Some sa'
    ∧ entries sa' = base ++ (shift (length base) <$> entries sb')
    ∧ pending sa' = (λ i, length base + i)%nat <$> pending sb'
    ∧ nextId sa' = (length base + nextId sb')%nat.
Proof.
  induction events as [|e events IH]; intros sa sb sb' He Hp Hn.
  { simpl. intros [= <-]. eauto. }
  intros E. apply merge_loop_cons_Some in E as (sb1 & E1 & E).
  assert (∃ sa1, merge_step sa e = Some sa1
            ∧ entries sa1 = base ++ (shift (length base) <$> entries sb1)
            ∧ pending sa1 = (λ i, length base + i)%nat <$> pending sb1
            ∧ nextId sa1 = (length base + nextId sb1)%nat)
    as (sa1 & Ea & He1 & Hp1 & Hn1).
  { revert E1. unfold merge_step. rewrite !absorb_unfold, !create_unfold.
    assert (∀ k, pending sa !! k = (λ i, length base + i)%nat <$> pending sb !! k)
      as Hlook by (intros k; by rewrite Hp, lookup_fmap).
    assert (length (entries sa) = (length base + length (entries sb))%nat) as Hlen
      by (by rewrite He, length_app, length_fmap).
    assert ((if opening e
             then key ← open_key e;
                  Some {| entries := entries sb ++
                            [{| id := nextId sb; request := e; response := None |}];
                          pending := <[key := length (entries sb)]> (pending sb);
                          nextId := S (nextId sb) |}
             else Some {| entries := entries sb ++
                            [{| id := nextId sb; request := e; response := None |}];
                          pending := pending sb;
                          nextId := S (nextId sb) |}) = Some sb1 →
            ∃ sa1,
              (if opening e
               then key ← open_key e;
                    Some {| entries := entries sa ++
                              [{| id := nextId sa; request := e; response := None |}];
                            pending := <[key := length (entries sa)]> (pending sa);
                            nextId := S (nextId sa) |}
               else Some {| entries := entries sa ++
                              [{| id := nextId sa; request := e; response := None |}];
                            pending := pending sa;
                            nextId := S (nextId sa) |}) = Some sa1
              ∧ entries sa1 = base ++ (shift (length base) <$> entries sb1)
              ∧ pending sa1 = (λ i, length base + i)%nat <$> pending sb1
              ∧ nextId sa1 = (length base + nextId sb1)%nat) as Hcreate.
    { destruct (opening e).
      - destruct (open_key e) as [k|]; [|done]. cbn [mbind option_bind].
        intros [= <-]. eexists. split; [done|]. cbn [entries pending nextId].
        rewrite Hlen, He, Hn, Hp, fmap_app, fmap_insert, <- app_assoc.
        split; [done|]. split; [done|]. lia.
      - intros [= <-]. eexists. split; [done|]. cbn [entries pending nextId].
        rewrite He, Hn, Hp, fmap_app, <- app_assoc.
        split; [done|]. split; [done|]. lia. }
    destruct (closing e); cbn [mbind option_bind]; [|done].
    destruct (close_key e) as [k|]; [|done]. cbn [mbind option_bind].
    rewrite Hlook. destruct (pending sb !! k) as [idx|]; cbn [fmap option_fmap option_map];
      [|done].
    destruct (entries sb !! idx) as [ent|] eqn:Hent; [|done].
    assert (entries sa !! (length base + idx)%nat = Some (shift (length base) ent))
      as ->.
    { rewrite He, lookup_app_r by lia.
      replace (length base + idx - length base)%nat with idx by lia.
      by rewrite list_lookup_fmap, Hent. }
    cbn [mbind option_bind]. intros [= <-]. eexists. split; [done|].
    cbn [entries pending nextId]. rewrite He, Hp, Hn.
    rewrite insert_app_r, list_fmap_insert, fmap_delete. done. }
  destruct (IH sa1 sb1 sb' He1 Hp1 Hn1 E) as (sa' & Ea' & H).
  exists sa'. split; [|done]. cbn [merge_loop]. rewrite Ea. done.
Qed.

(** X23.  When nothing is pending after the first part of a stream, the
    merge of the stream is the merge of the first part followed by the
    merge of the rest, with the ids of the rest raised by the number of
    entries of the first part. *)
Theorem merge_in_two_parts pre post :
  Forall (λ e, keys_computable e) (pre ++ post) →
  pending_after pre = ∅ →
  ∃ out_pre out_post,
    mergeEvents pre = Some out_pre
    ∧ mergeEvents post = Some out_post
    ∧ mergeEvents (pre ++ post)
      = Some (out_pre ++ (shift (length out_pre) <$> out_post)).
Proof.
  intros Hk Hquiet. apply Forall_app in Hk as [Hpre Hpost].
  destruct (merge_loop_returns pre initial consistent_initial Hpre) as [st0 E0].
  destruct (merge_loop_returns post initial consistent_initial Hpost) as [sb E].
  pose proof (merge_loop_consistent _ _ _ consistent_initial E0) as Hc0.
  unfold pending_after in Hquiet. rewrite E0 in Hquiet.
  destruct (merge_loop_shift (entries st0) post st0 initial sb)
    as (sa & Ea & He & _); [| | |exact E|].
  - simpl. by rewrite app_nil_r.
  - rewrite Hquiet. symmetry. apply fmap_empty.
  - simpl. rewrite (consistent_next _ Hc0). lia.
  - exists (entries st0), (entries sb). unfold mergeEvents.
    rewrite E0, E, merge_loop_app, E0.
    cbn [mbind option_bind fmap option_fmap option_map].
    rewrite Ea. cbn [fmap option_fmap option_map]. by rewrite He.
Qed.

Lemma merge_in_two_parts_witness :
  ∃ out_pre out_post,
    mergeEvents [prompt_1; reload; answer_1] = Some out_pre
    ∧ mergeEvents [search_call; prompt_2; search_result] = Some out_post
    ∧ mergeEvents ([prompt_1; reload; answer_1] ++ [search_call; prompt_2; search_result])
      = Some (out_pre ++ (shift (length out_pre) <$> out_post)).
Proof.
  apply (merge_in_two_parts [prompt_1; reload; answer_1]
           [search_call; prompt_2; search_result]).
  - keys_exist.
  - by vm_compute.
Defined.

(** With a prompt pending after the first part, the two parts do not
    merge apart: the answer in the second part belongs to the first. *)
Example merge_in_two_parts_needs_quiet :
  mergeEvents ([prompt_1] ++ [answer_1])
  = Some [ {| id := 0; request := prompt_1; response := Some answer_1 |} ]
  ∧ mergeEvents [prompt_1] = Some [standalone 0 prompt_1]
  ∧ mergeEvents [answer_1] = Some [standalone 0 answer_1].
Proof. by vm_compute. Qed.
